(** * Markdown-to-ADF converter of jira-client.ts

    A shallow embedding of [parseInlineFormatting] and [textToADF]
    (src/jira-client.ts, lines 10-277) together with the fragment of the
    JavaScript string and RegExp semantics they rely on, followed by the
    properties of the converter. *)

From Stdlib Require Import NArith ZArith QArith Qround Lqa String Ascii Lia.
From stdpp Require Import base tactics option list.

Set Default Proof Using "Type".

(** ** JavaScript strings

    A JavaScript string is a sequence of UTF-16 code units. *)

Abbreviation jsstring := (list N).

Definition js (s : string) : jsstring := map N_of_ascii (list_ascii_of_string s).
Arguments js _%_string.

Definition ch (a : ascii) : N := N_of_ascii a.
Arguments ch _%_char.
Arguments js : simpl never.
Arguments ch : simpl never.

(** The bullet character U+2022 is a single code unit. *)
Definition bullet_char : N := 8226%N.

Module JS.

(** LineTerminator: LF, CR, LS, PS. *)
Definition is_line_terminator (c : N) : bool :=
  bool_decide (c ∈ [10; 13; 8232; 8233]%N).

(** WhiteSpace and LineTerminator code units, the set used both by
    [String.prototype.trim] and by the [\s] class. *)
Definition is_space (c : N) : bool :=
  bool_decide (c ∈ [9; 10; 11; 12; 13; 32; 160; 5760; 8232; 8233; 8239; 8287;
                    12288; 65279]%N)
  || ((8192 <=? c)%N && (c <=? 8202)%N).

Definition is_digit (c : N) : bool := ((48 <=? c)%N && (c <=? 57)%N).

Fixpoint trimStart (s : jsstring) : jsstring :=
  match s with
  | c :: s' => if is_space c then trimStart s' else s
  | [] => []
  end.

Fixpoint trimEnd (s : jsstring) : jsstring :=
  match s with
  | c :: s' =>
      match trimEnd s' with
      | [] => if is_space c then [] else [c]
      | t => c :: t
      end
  | [] => []
  end.

Definition trim (s : jsstring) : jsstring := trimEnd (trimStart s).

Fixpoint startsWith (s prefix : jsstring) : bool :=
  match prefix, s with
  | [], _ => true
  | p :: prefix', c :: s' => (c =? p)%N && startsWith s' prefix'
  | _ :: _, [] => false
  end.

(** [s.substring(from)] and [s.substring(from, to)]: both indices are
    clamped to the length and swapped when out of order. *)
Definition substring_from (s : jsstring) (from : nat) : jsstring := drop from s.

Definition substring (s : jsstring) (from to : nat) : jsstring :=
  let a := from `min` length s in
  let b := to `min` length s in
  take ((a `max` b) - (a `min` b)) (drop (a `min` b) s).

(** [s.split(sep)] for a one-unit separator: never the empty array. *)
Fixpoint split (sep : N) (s : jsstring) : list jsstring :=
  match s with
  | [] => [[]]
  | c :: s' =>
      if (c =? sep)%N then [] :: split sep s'
      else match split sep s' with
           | l :: ls => (c :: l) :: ls
           | [] => [[c]]
           end
  end.

(** [lines.join(sep)]. *)
Fixpoint join (sep : jsstring) (l : list jsstring) : jsstring :=
  match l with
  | [] => []
  | [x] => x
  | x :: l' => x ++ sep ++ join sep l'
  end.

(** Truthiness of a possibly undefined string: defined and non-empty. *)
Definition truthy (v : option jsstring) : option jsstring :=
  match v with
  | Some (c :: s) => Some (c :: s)
  | _ => None
  end.

End JS.

(** ** Regular expressions

    The backtracking matcher of ECMAScript in continuation-passing style,
    restricted to the constructs the three patterns of the converter use.
    Every quantifier in them applies to a single-character class. *)

Module RegExp.

Inductive charclass :=
| CAny                      (* .  : anything but a line terminator *)
| CSpace                    (* \s *)
| CDigit                    (* \d *)
| COneOf (cs : list N)      (* [abc]  *)
| CNoneOf (cs : list N).    (* [^abc] *)

Definition class_mem (cl : charclass) (c : N) : bool :=
  match cl with
  | CAny => negb (JS.is_line_terminator c)
  | CSpace => JS.is_space c
  | CDigit => JS.is_digit c
  | COneOf cs => bool_decide (c ∈ cs)
  | CNoneOf cs => negb (bool_decide (c ∈ cs))
  end.

Inductive regex :=
| RChar (c : N)
| RRep (cl : charclass) (min : nat) (max : option nat)   (* cl{min,max}, greedy *)
| RSeq (r1 r2 : regex)
| RAlt (r1 r2 : regex)
| RGroup (i : nat) (r : regex)
| REmpty
| RBegin                                                 (* ^ *)
| REnd.                                                  (* $ *)

Definition ROne (cl : charclass) : regex := RRep cl 1 (Some 1).
Definition RPlus (cl : charclass) : regex := RRep cl 1 None.
Definition RStar (cl : charclass) : regex := RRep cl 0 None.

(** A literal string, a sequence and an alternation of several patterns. *)
Definition RStr (s : jsstring) : regex := foldr (λ c r, RSeq (RChar c) r) REmpty s.
Definition rseq (rs : list regex) : regex := foldr RSeq REmpty rs.
Fixpoint ralt (r : regex) (rs : list regex) : regex :=
  match rs with
  | [] => r
  | r' :: rs' => RAlt r (ralt r' rs')
  end.

Definition captures := list (option jsstring).

Section Matcher.
Context {A : Type}.

Definition can_take (max : option nat) : bool :=
  match max with
  | Some 0 => false
  | _ => true
  end.

(** Greedy repetition of a class: take one more unit first, and fall
    back to stopping here when the rest of the pattern fails. *)
Fixpoint rep_match (p : N → bool) (min : nat) (max : option nat)
    (pos : nat) (s : jsstring) (k : nat → jsstring → option A) : option A :=
  let stop := match min with
              | 0 => k pos s
              | S _ => None
              end in
  match s with
  | c :: s' =>
      if p c && can_take max then
        match rep_match p (pred min) (pred <$> max) (S pos) s' k with
        | Some r => Some r
        | None => stop
        end
      else stop
  | [] => stop
  end.

(** [rmatch r pos s caps k]: match [r] against the suffix [s] of the
    input that starts at index [pos]; [k] is the rest of the pattern. *)
Fixpoint rmatch (r : regex) (pos : nat) (s : jsstring) (caps : captures)
    (k : nat → jsstring → captures → option A) : option A :=
  match r with
  | RChar c =>
      match s with
      | x :: s' => if (x =? c)%N then k (S pos) s' caps else None
      | [] => None
      end
  | RRep cl min max =>
      rep_match (class_mem cl) min max pos s (λ pos' s', k pos' s' caps)
  | RSeq r1 r2 =>
      rmatch r1 pos s caps (λ pos' s' caps', rmatch r2 pos' s' caps' k)
  | RAlt r1 r2 =>
      match rmatch r1 pos s caps k with
      | Some x => Some x
      | None => rmatch r2 pos s caps k
      end
  | RGroup i r1 =>
      rmatch r1 pos s caps
        (λ pos' s' caps', k pos' s' (<[i := Some (take (pos' - pos) s)]> caps'))
  | REmpty => k pos s caps
  | RBegin => if pos =? 0 then k pos s caps else None
  | REnd =>
      match s with
      | [] => k pos s caps
      | _ :: _ => None
      end
  end.
End Matcher.

(** A pattern with its number of capture groups. *)
Record t := { pattern : regex; ngroups : nat }.

(** The match array: [groups !! 0] is the matched text, [groups !! i]
    the i-th capture, [None] for undefined. *)
Record MatchResult := { index : nat; groups : captures }.

Definition group (m : MatchResult) (i : nat) : option jsstring :=
  mjoin (groups m !! i).

(** One attempt at index [pos]; also returns the end index. *)
Definition match_at (re : t) (pos : nat) (s : jsstring) : option (MatchResult * nat) :=
  rmatch (pattern re) pos s (replicate (S (ngroups re)) None)
    (λ pos' _ caps,
       Some ({| index := pos; groups := <[0 := Some (take (pos' - pos) s)]> caps |},
             pos')).

(** The attempts at [pos], [pos + 1], ... up to the end of the input. *)
Fixpoint search (re : t) (pos : nat) (s : jsstring) : option (MatchResult * nat) :=
  match match_at re pos s with
  | Some r => Some r
  | None =>
      match s with
      | [] => None
      | _ :: s' => search re (S pos) s'
      end
  end.

(** [re.exec(text)] for a pattern with the [g] flag: the search starts at
    [lastIndex]; the new [lastIndex] is the end of the match, or 0. *)
Definition exec (re : t) (lastIndex : nat) (text : jsstring)
    : option MatchResult * nat :=
  if length text <? lastIndex then (None, 0)
  else match search re lastIndex (drop lastIndex text) with
       | Some (m, e) => (Some m, e)
       | None => (None, 0)
       end.

(** [text.match(re)] for a pattern without the [g] flag. *)
Definition string_match (re : t) (text : jsstring) : option MatchResult :=
  fst <$> search re 0 text.

(** [text.replace(re, '')] for a pattern without the [g] flag. *)
Definition replace_empty (re : t) (text : jsstring) : jsstring :=
  match search re 0 text with
  | Some (m, e) => take (index m) text ++ drop e text
  | None => text
  end.

End RegExp.
Import RegExp.

(** ** The document model

    ADF nodes as the converter builds them. A text node without a [marks]
    property has [marks = None]. *)

Inductive Mark :=
| MLink (href : jsstring)
| MCode
| MStrong
| MStrike
| MEm.

#[warnings="-register-all"]
Inductive Node :=
| Text (text : jsstring) (marks : option (list Mark))
| Paragraph (content : list Node)
| Heading (level : nat) (content : list Node)
| BulletList (content : list Node)
| OrderedList (content : list Node)
| ListItem (content : list Node)
| CodeBlock (language : option jsstring) (content : list Node).

Record Doc := { version : nat; doc_content : list Node }.

(** ** parseInlineFormatting (lines 10-113) *)

(** The combined pattern of line 16, with the [g] flag. Group 1 is the whole
    alternation; groups 2 to 9 are the inner texts, in the order of the
    alternatives. *)

(** Link: a bracketed label (group 2, one or more units other than the
    closing bracket), then a parenthesized target (group 3, one or more
    units other than the closing parenthesis). *)
Definition link_alt : regex :=
  rseq [RStr (js "["); RGroup 2 (RPlus (CNoneOf (js "]"))); RStr (js "](");
        RGroup 3 (RPlus (CNoneOf (js ")"))); RStr (js ")")].

(** Inline code: group 4, zero or more units other than a backtick, between
    two backticks. *)
Definition code_alt : regex :=
  rseq [RStr (js "`"); RGroup 4 (RStar (CNoneOf (js "`"))); RStr (js "`")].

(** Bold: group 5 between double asterisks, group 6 between double
    underscores; one or more units other than the delimiter character. *)
Definition bold_star_alt : regex :=
  rseq [RStr (js "**"); RGroup 5 (RPlus (CNoneOf (js "*"))); RStr (js "**")].
Definition bold_under_alt : regex :=
  rseq [RStr (js "__"); RGroup 6 (RPlus (CNoneOf (js "_"))); RStr (js "__")].

(** Strikethrough: group 7 between double tildes. *)
Definition strike_alt : regex :=
  rseq [RStr (js "~~"); RGroup 7 (RPlus (CNoneOf (js "~"))); RStr (js "~~")].

(** Italic: group 8 between single asterisks, group 9 between single
    underscores. *)
Definition italic_star_alt : regex :=
  rseq [RStr (js "*"); RGroup 8 (RPlus (CNoneOf (js "*"))); RStr (js "*")].
Definition italic_under_alt : regex :=
  rseq [RStr (js "_"); RGroup 9 (RPlus (CNoneOf (js "_"))); RStr (js "_")].

Definition inline_alts : list regex :=
  [code_alt; bold_star_alt; bold_under_alt; strike_alt; italic_star_alt;
   italic_under_alt].

Definition inline_regex : RegExp.t :=
  {| pattern := RGroup 1 (ralt link_alt inline_alts); ngroups := 9 |}.

Definition text_node (text : jsstring) : Node := Text text None.
Definition marked (text : jsstring) (m : Mark) : Node := Text text (Some [m]).

(** Lines 20-29: the plain text between the previous match and this one. *)
Definition push_plain_before (text : jsstring) (currentPos : nat) (m : MatchResult)
    (result : list Node) : list Node :=
  if currentPos <? index m then
    let plainText := JS.substring text currentPos (index m) in
    match JS.truthy (Some plainText) with
    | Some _ => result ++ [text_node plainText]
    | None => result
    end
  else result.

(** Lines 31-88: the node of the matched span. *)
Definition push_formatted (m : MatchResult) (result : list Node) : list Node :=
  match JS.truthy (group m 1), JS.truthy (group m 2), JS.truthy (group m 3) with
  | Some _, Some label, Some href => result ++ [marked label (MLink href)]
  | _, _, _ =>
  match group m 4 with
  | Some code => result ++ [marked code MCode]
  | None =>
  match JS.truthy (group m 5) with
  | Some t => result ++ [marked t MStrong]
  | None =>
  match JS.truthy (group m 6) with
  | Some t => result ++ [marked t MStrong]
  | None =>
  match JS.truthy (group m 7) with
  | Some t => result ++ [marked t MStrike]
  | None =>
  match JS.truthy (group m 8) with
  | Some t => result ++ [marked t MEm]
  | None =>
  match JS.truthy (group m 9) with
  | Some t => result ++ [marked t MEm]
  | None => result
  end end end end end end end.

(** The while loop of lines 19-91. [lastIndex] is the state of the pattern
    object. [None] stands for an iteration bound that was too small. *)
Fixpoint inline_loop (fuel : nat) (text : jsstring) (lastIndex currentPos : nat)
    (result : list Node) : option (list Node * nat) :=
  match fuel with
  | 0 => None
  | S fuel' =>
      match exec inline_regex lastIndex text with
      | (None, _) => Some (result, currentPos)
      | (Some m, lastIndex') =>
          let result := push_plain_before text currentPos m result in
          let result := push_formatted m result in
          inline_loop fuel' text lastIndex'
            (index m + length (default [] (group m 0))) result
      end
  end.

(** Lines 93-102. *)
Definition push_remaining (text : jsstring) (currentPos : nat) (result : list Node)
    : list Node :=
  if currentPos <? length text then
    let plainText := JS.substring_from text currentPos in
    match JS.truthy (Some plainText) with
    | Some _ => result ++ [text_node plainText]
    | None => result
    end
  else result.

(** Lines 104-110. *)
Definition push_if_empty (text : jsstring) (result : list Node) : list Node :=
  if length result =? 0 then result ++ [text_node text] else result.

Definition parseInlineFormatting (text : jsstring) : option (list Node) :=
  '(result, currentPos) ← inline_loop (S (length text)) text 0 0 [];
  Some (push_if_empty text (push_remaining text currentPos result)).

(** ** textToADF (lines 125-277) *)

(** Line 173: start of input, group 1 of one to six number signs, one or
    more white-space units, group 2 of one or more units other than line
    terminators, end of input. *)
Definition heading_regex : RegExp.t :=
  {| pattern := rseq [RBegin; RGroup 1 (RRep (COneOf (js "#")) 1 (Some 6));
                      RPlus CSpace; RGroup 2 (RPlus CAny); REnd];
     ngroups := 2 |}.

(** Line 186: start of input, a hyphen, an asterisk or a bullet, one
    white-space unit. *)
Definition bullet_regex : RegExp.t :=
  {| pattern := rseq [RBegin; ROne (COneOf [ch "-"; ch "*"; bullet_char]); ROne CSpace];
     ngroups := 0 |}.

(** Lines 219-220: start of input, one or more digits, a period, one
    white-space unit. *)
Definition ordered_regex : RegExp.t :=
  {| pattern := rseq [RBegin; RPlus CDigit; RStr (js "."); ROne CSpace];
     ngroups := 0 |}.

Record State := {
  content : list Node;
  inCodeBlock : bool;
  codeBlockLines : list jsstring;
  codeLanguage : jsstring;
}.

Definition initial : State :=
  {| content := []; inCodeBlock := false; codeBlockLines := []; codeLanguage := [] |}.

Definition fence : jsstring := js "```".
Definition LF : N := 10%N.
Definition newline : jsstring := [LF].

(** The codeBlock node of lines 145-154 and 260-269. *)
Definition code_block (codeLanguage : jsstring) (codeBlockLines : list jsstring) : Node :=
  CodeBlock (JS.truthy (Some codeLanguage))
            [text_node (JS.join newline codeBlockLines)].

Definition list_item (inline : list Node) : Node := ListItem [Paragraph inline].

(** Lines 189-214 and 222-247: push onto the last block when it is a list
    of the same type, otherwise push a new list. *)
Definition push_bullet (content : list Node) (item : Node) : list Node :=
  match last content with
  | Some (BulletList items) =>
      take (length content - 1) content ++ [BulletList (items ++ [item])]
  | _ => content ++ [BulletList [item]]
  end.

Definition push_ordered (content : list Node) (item : Node) : list Node :=
  match last content with
  | Some (OrderedList items) =>
      take (length content - 1) content ++ [OrderedList (items ++ [item])]
  | _ => content ++ [OrderedList [item]]
  end.

(** A push onto [content]; the other variables of the loop are unchanged. *)
Definition with_content (st : State) (content' : list Node) : State :=
  {| content := content'; inCodeBlock := inCodeBlock st;
     codeBlockLines := codeBlockLines st; codeLanguage := codeLanguage st |}.

(** One iteration of the for loop of lines 132-256. *)
Definition step (st : State) (line : jsstring) : option State :=
  if JS.startsWith (JS.trim line) fence then
    if negb (inCodeBlock st) then
      Some {| content := content st; inCodeBlock := true;
              codeBlockLines := [];
              codeLanguage := JS.trim (JS.substring_from (JS.trim line) 3) |}
    else
      Some {| content := content st ++ [code_block (codeLanguage st) (codeBlockLines st)];
              inCodeBlock := false; codeBlockLines := []; codeLanguage := [] |}
  else if inCodeBlock st then
    Some {| content := content st; inCodeBlock := inCodeBlock st;
            codeBlockLines := codeBlockLines st ++ [line];
            codeLanguage := codeLanguage st |}
  else if bool_decide (JS.trim line = []) then Some st
  else
  match string_match heading_regex line with
  | Some headingMatch =>
      let level := length (default [] (group headingMatch 1)) in
      let headingText := default [] (group headingMatch 2) in
      inline ← parseInlineFormatting headingText;
      Some (with_content st (content st ++ [Heading level inline]))
  | None =>
  match string_match bullet_regex (JS.trim line) with
  | Some _ =>
      let listItem := JS.substring_from (JS.trim line) 2 in
      inline ← parseInlineFormatting listItem;
      Some (with_content st (push_bullet (content st) (list_item inline)))
  | None =>
  match string_match ordered_regex (JS.trim line) with
  | Some _ =>
      let listItem := replace_empty ordered_regex (JS.trim line) in
      inline ← parseInlineFormatting listItem;
      Some (with_content st (push_ordered (content st) (list_item inline)))
  | None =>
      inline ← parseInlineFormatting line;
      Some (with_content st (content st ++ [Paragraph inline]))
  end end end.

Fixpoint run_lines (lines : list jsstring) (st : State) : option State :=
  match lines with
  | [] => Some st
  | line :: lines' => st' ← step st line; run_lines lines' st'
  end.

(** Lines 258-270: the unclosed code block. *)
Definition flush_unclosed (st : State) : list Node :=
  if inCodeBlock st && (0 <? length (codeBlockLines st)) then
    content st ++ [code_block (codeLanguage st) (codeBlockLines st)]
  else content st.

(** Line 275. *)
Definition or_empty_paragraph (content : list Node) : list Node :=
  if 0 <? length content then content else [Paragraph []].

Definition textToADF (text : jsstring) : option Doc :=
  st ← run_lines (JS.split LF text) initial;
  Some {| version := 1; doc_content := or_empty_paragraph (flush_unclosed st) |}.


(** ** Declarative meaning of patterns

    [Matches r pos w s caps caps']: at index [pos], with [w ++ s] left of the
    input, [r] can consume [w] and turn the captures [caps] into [caps']. *)

Inductive Matches : regex → nat → jsstring → jsstring → captures → captures → Prop :=
| M_char c pos s caps :
    Matches (RChar c) pos [c] s caps caps
| M_rep cl min max pos w s caps :
    Forall (λ c, class_mem cl c = true) w →
    min ≤ length w →
    (∀ m, max = Some m → length w ≤ m) →
    Matches (RRep cl min max) pos w s caps caps
| M_seq r1 r2 pos w1 w2 s caps caps1 caps2 :
    Matches r1 pos w1 (w2 ++ s) caps caps1 →
    Matches r2 (pos + length w1) w2 s caps1 caps2 →
    Matches (RSeq r1 r2) pos (w1 ++ w2) s caps caps2
| M_alt_l r1 r2 pos w s caps caps' :
    Matches r1 pos w s caps caps' →
    Matches (RAlt r1 r2) pos w s caps caps'
| M_alt_r r1 r2 pos w s caps caps' :
    Matches r2 pos w s caps caps' →
    Matches (RAlt r1 r2) pos w s caps caps'
| M_group i r pos w s caps caps' :
    Matches r pos w s caps caps' →
    Matches (RGroup i r) pos w s caps (<[i := Some w]> caps')
| M_empty pos s caps :
    Matches REmpty pos [] s caps caps
| M_begin s caps :
    Matches RBegin 0 [] s caps caps
| M_end pos caps :
    Matches REnd pos [] [] caps caps.

(** The least number of code units a pattern consumes. *)
Fixpoint min_len (r : regex) : nat :=
  match r with
  | RChar _ => 1
  | RRep _ min _ => min
  | RSeq r1 r2 => min_len r1 + min_len r2
  | RAlt r1 r2 => min_len r1 `min` min_len r2
  | RGroup _ r1 => min_len r1
  | REmpty | RBegin | REnd => 0
  end.

(** ** Segments of a line

    The recognized forms of inline markup, with their delimiters. A link
    [[label](href)] opens with a bracket and closes with the bracketed
    target, which is carried by the mark and is not part of the text. *)

Inductive form :=
| FLink (href : jsstring)
| FCode
| FBoldStar
| FBoldUnder
| FStrike
| FItalicStar
| FItalicUnder.

Definition opening (f : form) : jsstring :=
  match f with
  | FLink _ => js "["
  | FCode => js "`"
  | FBoldStar => js "**"
  | FBoldUnder => js "__"
  | FStrike => js "~~"
  | FItalicStar => js "*"
  | FItalicUnder => js "_"
  end.

Definition closing (f : form) : jsstring :=
  match f with
  | FLink href => js "](" ++ href ++ js ")"
  | FCode => js "`"
  | FBoldStar => js "**"
  | FBoldUnder => js "__"
  | FStrike => js "~~"
  | FItalicStar => js "*"
  | FItalicUnder => js "_"
  end.

Definition mark_of (f : form) : Mark :=
  match f with
  | FLink href => MLink href
  | FCode => MCode
  | FBoldStar | FBoldUnder => MStrong
  | FStrike => MStrike
  | FItalicStar | FItalicUnder => MEm
  end.

(** What the pattern of a form accepts between its delimiters: the inner
    text is free of the closing character and, except for inline code,
    not empty; so is the target of a link. *)
Definition free_of (x : N) (s : jsstring) : Prop := Forall (λ c, c ≠ x) s.

Definition recognized (f : form) (inner : jsstring) : Prop :=
  match f with
  | FLink href =>
      inner ≠ [] ∧ free_of (ch "]") inner ∧ href ≠ [] ∧ free_of (ch ")") href
  | FCode => free_of (ch "`") inner
  | FBoldStar | FItalicStar => inner ≠ [] ∧ free_of (ch "*") inner
  | FBoldUnder | FItalicUnder => inner ≠ [] ∧ free_of (ch "_") inner
  | FStrike => inner ≠ [] ∧ free_of (ch "~") inner
  end.

Inductive segment :=
| Plain (s : jsstring)
| Marked (f : form) (inner : jsstring).

Definition well_formed (g : segment) : Prop :=
  match g with
  | Plain _ => True
  | Marked f inner => recognized f inner
  end.

(** The segment as written in the line, the segment without its
    delimiters, and the text run that stands for it. *)
Definition source_of (g : segment) : jsstring :=
  match g with
  | Plain s => s
  | Marked f inner => opening f ++ inner ++ closing f
  end.

Definition stripped_of (g : segment) : jsstring :=
  match g with
  | Plain s => s
  | Marked _ inner => inner
  end.

Definition run_of (g : segment) : Node :=
  match g with
  | Plain s => text_node s
  | Marked f inner => marked inner (mark_of f)
  end.

Definition node_text (n : Node) : jsstring :=
  match n with
  | Text t _ => t
  | _ => []
  end.

Definition node_marks (n : Node) : list Mark :=
  match n with
  | Text _ (Some ms) => ms
  | _ => []
  end.

(** A recognized span starts the text [s]. *)
Definition span_starts (s : jsstring) : Prop :=
  ∃ f inner rest, recognized f inner ∧ s = source_of (Marked f inner) ++ rest.

(** The markup of the line is recognized: in the segmentation [segs] of the
    part of [line] that starts at index [pos], no recognized span starts at
    an index that lies in a plain piece. *)
Fixpoint plain_is_bare (line : jsstring) (pos : nat) (segs : list segment) : Prop :=
  match segs with
  | [] => True
  | g :: segs' =>
      match g with
      | Plain p => ∀ j, pos ≤ j → j < pos + length p → ¬ span_starts (drop j line)
      | Marked _ _ => True
      end ∧
      plain_is_bare line (pos + length (source_of g)) segs'
  end.

(** Re-joining the text fields of a sequence of runs. *)
Definition plain_text (runs : list Node) : jsstring := concat (node_text <$> runs).

(** ** Classes of lines *)

(** A fence line: trimmed, it is or starts with three backticks. *)
Definition is_fence_line (line : jsstring) : bool :=
  JS.startsWith (JS.trim line) fence.

(** A bullet item: trimmed, it starts with a hyphen, an asterisk or a
    bullet, followed by white space. *)
Definition is_bullet_line (line : jsstring) : bool :=
  match JS.trim line with
  | c :: w :: _ => bool_decide (c ∈ [ch "-"; ch "*"; bullet_char]) && JS.is_space w
  | _ => false
  end.

(** ** Priority of the alternatives

    Trying the alternatives one after the other at one index, each inside
    the outer group of the combined pattern: the first that matches wins. *)
Fixpoint first_match (alts : list regex) (pos : nat) (s : jsstring)
    : option (MatchResult * nat) :=
  match alts with
  | [] => None
  | alt :: alts' =>
      match match_at {| pattern := RGroup 1 alt; ngroups := 9 |} pos s with
      | Some r => Some r
      | None => first_match alts' pos s
      end
  end.

(** ** Statements about the end of the input *)

(** Whenever the lines of [s] leave the converter inside a code block, the
    last block of the Document is the code block of the buffered lines. *)
Definition flushes_open_code_block (s : jsstring) : Prop :=
  ∀ st, run_lines (JS.split LF s) initial = Some st →
        inCodeBlock st = true →
        ∃ doc, textToADF s = Some doc ∧
               last (doc_content doc)
               = Some (code_block (codeLanguage st) (codeBlockLines st)).

(** Whenever the lines of [s] leave the converter inside a code block with
    an empty buffer, the Document is the single empty paragraph. *)
Definition empty_open_fence_gives_empty_paragraph (s : jsstring) : Prop :=
  ∀ st, run_lines (JS.split LF s) initial = Some st →
        inCodeBlock st = true →
        codeBlockLines st = [] →
        textToADF s = Some {| version := 1; doc_content := [Paragraph []] |}.

(** ** Statement about heading lines

    Outside a code block, the line made of [k] number signs, the white space
    [ws] and the content [body] pushes a heading of level [k] that holds the
    tokenized content. *)
Definition CR : N := 13%N.

Definition heading_line_gives_heading (k : nat) (ws body : jsstring) : Prop :=
  ∀ st, inCodeBlock st = false →
    ∃ inline,
      parseInlineFormatting body = Some inline ∧
      step st (replicate k (ch "#") ++ ws ++ body)
      = Some (with_content st (content st ++ [Heading k inline])).

(** ** Further classes of lines and the shape of documents *)

(** The characters that open a form of inline markup. *)
Definition inline_openers : list N :=
  [ch "["; ch "`"; ch "*"; ch "_"; ch "~"].

(** A line of plain prose: not blank, free of line feeds, number signs,
    list markers and inline markup characters, and, once trimmed, not
    starting with a digit. *)
Definition is_prose_line (line : jsstring) : bool :=
  match JS.trim line with
  | [] => false
  | d :: _ =>
      negb (JS.is_digit d) &&
      forallb (λ c, negb (bool_decide
                 (c ∈ [LF; ch "#"; ch "-"; bullet_char] ++ inline_openers))) line
  end.

(** A text run as the converter may build it: the text of a run is empty
    only under the code mark, and a run has at most one mark. *)
Definition valid_run (n : Node) : Prop :=
  match n with
  | Text t None => t ≠ []
  | Text t (Some [m]) => t ≠ [] ∨ m = MCode
  | _ => False
  end.

Definition valid_inline (runs : list Node) : Prop :=
  runs ≠ [] ∧ Forall valid_run runs.

Definition valid_item (n : Node) : Prop :=
  match n with
  | ListItem [Paragraph runs] => valid_inline runs
  | _ => False
  end.

(** A block as the converter may build it. *)
Definition valid_block (n : Node) : Prop :=
  match n with
  | Paragraph runs => runs = [] ∨ valid_inline runs
  | Heading level runs => 1 ≤ level ∧ level ≤ 6 ∧ valid_inline runs
  | BulletList items | OrderedList items => items ≠ [] ∧ Forall valid_item items
  | CodeBlock language [Text _ None] => language ≠ Some []
  | _ => False
  end.

Definition is_bullet_list (n : Node) : bool :=
  match n with BulletList _ => true | _ => false end.
Definition is_ordered_list (n : Node) : bool :=
  match n with OrderedList _ => true | _ => false end.

(** No two neighbouring blocks are lists of the same type. *)
Fixpoint lists_merged (blocks : list Node) : Prop :=
  match blocks with
  | b1 :: (b2 :: _) as rest =>
      ¬ (is_bullet_list b1 = true ∧ is_bullet_list b2 = true) ∧
      ¬ (is_ordered_list b1 = true ∧ is_ordered_list b2 = true) ∧
      lists_merged rest
  | _ => True
  end.

(** What one iteration of the line loop can do to the state. *)
Inductive transition (st : State) : State → Prop :=
| T_open language :
    inCodeBlock st = false →
    transition st {| content := content st; inCodeBlock := true;
                     codeBlockLines := []; codeLanguage := language |}
| T_close :
    inCodeBlock st = true →
    transition st {| content := content st ++
                       [code_block (codeLanguage st) (codeBlockLines st)];
                     inCodeBlock := false; codeBlockLines := [];
                     codeLanguage := [] |}
| T_buffer line :
    inCodeBlock st = true →
    transition st {| content := content st; inCodeBlock := inCodeBlock st;
                     codeBlockLines := codeBlockLines st ++ [line];
                     codeLanguage := codeLanguage st |}
| T_skip :
    inCodeBlock st = false → transition st st
| T_heading level runs :
    inCodeBlock st = false → 1 ≤ level → level ≤ 6 → valid_inline runs →
    transition st (with_content st (content st ++ [Heading level runs]))
| T_bullet runs :
    inCodeBlock st = false → valid_inline runs →
    transition st (with_content st (push_bullet (content st) (list_item runs)))
| T_ordered runs :
    inCodeBlock st = false → valid_inline runs →
    transition st (with_content st (push_ordered (content st) (list_item runs)))
| T_paragraph runs :
    inCodeBlock st = false → valid_inline runs →
    transition st (with_content st (content st ++ [Paragraph runs])).

(** ** adfToPlainText (lines 435-466)

    On the documents of this model every block has its [content] array, so
    the guards [node.content] of the source always hold. [node_text] is
    [c.text || ''] and [plain_text] the mapped and joined texts. *)

Definition node_content (n : Node) : option (list Node) :=
  match n with
  | Text _ _ => None
  | Paragraph c | Heading _ c | BulletList c | OrderedList c | ListItem c
  | CodeBlock _ c => Some c
  end.

(** Lines 452-461: the lines of one item of a bullet list. *)
Definition item_lines (item : Node) : list jsstring :=
  match item with
  | ListItem paras =>
      flat_map (λ para, match node_content para with
                        | Some content => [js "- " ++ plain_text content]
                        | None => []
                        end) paras
  | _ => []
  end.

(** Lines 441-462: the lines one block contributes; a block of any other
    type, an ordered list for one, contributes none. *)
Definition block_lines (node : Node) : list jsstring :=
  match node with
  | Paragraph content => [plain_text content]
  | CodeBlock _ content => [fence ++ newline ++ plain_text content ++ newline ++ fence]
  | Heading level content =>
      [replicate (if level =? 0 then 1 else level) (ch "#") ++ js " "
       ++ plain_text content]
  | BulletList content => flat_map item_lines content
  | _ => []
  end.

Definition adfToPlainText (adf : Doc) : jsstring :=
  JS.join newline (flat_map block_lines (doc_content adf)).

(** An ordered item line: trimmed, it is digits, a period, one white-space
    unit and a remainder. *)
Definition ordered_item_line (line : jsstring) : Prop :=
  ∃ digits w rest,
    JS.trim line = digits ++ ch "." :: w :: rest ∧
    digits ≠ [] ∧ Forall (λ d, JS.is_digit d = true) digits ∧
    JS.is_space w = true.

(** ** JavaScript numbers

    A Number is NaN, an infinity or a finite double; a finite double is a
    rational, and it is kept as that exact value (the two zeros are not told
    apart, which no operation below does either). The comparison and
    [Math.min] are exact in JavaScript; a difference is rounded to the
    nearest double, and [sub] gives the exact difference. For the one
    difference that searchIssues takes, [maxResults - allIssues.length]
    under the guard [allIssues.length < maxResults] with an array length
    below 2^32, this changes nothing in [Math.min(100, ...)]: below 2^53 a
    double is a multiple of a power of two that is at most 1, so that the
    difference is a double itself and is not rounded; from 2^53 on, the exact
    and the rounded difference both exceed 100. *)

Module Number.

Inductive t :=
| NaN
| PosInf
| NegInf
| Finite (q : Q).

(** An array length as a Number. *)
Definition of_nat (n : nat) : t := Finite (inject_Z (Z.of_nat n)).

(** [x < y]: false when a side is NaN. *)
Definition lt (x y : t) : bool :=
  match x, y with
  | NaN, _ | _, NaN => false
  | PosInf, _ | _, NegInf => false
  | NegInf, _ | _, PosInf => true
  | Finite p, Finite q => negb (Qle_bool q p)
  end.

(** [x - y]. *)
Definition sub (x y : t) : t :=
  match x, y with
  | NaN, _ | _, NaN => NaN
  | PosInf, PosInf | NegInf, NegInf => NaN
  | PosInf, _ | _, NegInf => PosInf
  | NegInf, _ | _, PosInf => NegInf
  | Finite p, Finite q => Finite (p - q)
  end.

(** [Math.min(x, y)]: NaN when an argument is NaN. *)
Definition min (x y : t) : t :=
  match x, y with
  | NaN, _ | _, NaN => NaN
  | NegInf, _ | _, NegInf => NegInf
  | PosInf, z | z, PosInf => z
  | Finite p, Finite q => if Qle_bool p q then Finite p else Finite q
  end.

End Number.

(** ** searchIssues (lines 549-584)

    The paging loop, run against a server given as a function from the
    number of the call and the request parameters to the response body, or
    to [None] when the request throws. [maxResults] is any Number. *)

Section SearchIssuesModel.
Context {Issue : Type}.

(** The part of the response body the loop reads: [issues] is [None] when
    absent, [isLast] is [None] when it is not a boolean. *)
Record PageData := {
  page_issues : option (list Issue);
  page_isLast : option bool;
  page_nextPageToken : option jsstring;
}.

(** The query parameters; [fields] is the same constant in every request. *)
Record SearchParams := {
  param_jql : jsstring;
  param_maxResults : Number.t;
  param_nextPageToken : option jsstring;
}.

Record SearchResult := {
  result_issues : list Issue;
  result_total : nat;
  result_isLast : bool;
}.

Inductive SearchOutcome :=
| Returned (r : SearchResult)
| Thrown.

(** Line 573: [!data.issues || data.issues.length === 0]. *)
Definition no_issues (data : PageData) : bool :=
  match page_issues data with
  | Some (_ :: _) => false
  | _ => true
  end.

(** The while loop of lines 555-577, with the requests made so far.
    [None] stands for a loop that makes more than [fuel] iterations. *)
Fixpoint search_loop (fuel : nat) (get : nat → SearchParams → option PageData)
    (jql : jsstring) (maxResults : Number.t) (calls : list SearchParams)
    (allIssues : list Issue) (nextPageToken : option jsstring) (isLast : bool)
    : option (SearchOutcome * list SearchParams) :=
  match fuel with
  | 0 => None
  | S fuel' =>
      if negb isLast && Number.lt (Number.of_nat (length allIssues)) maxResults then
        let params :=
          {| param_jql := jql;
             param_maxResults :=
               Number.min (Number.Finite 100)
                 (Number.sub maxResults (Number.of_nat (length allIssues)));
             param_nextPageToken := JS.truthy nextPageToken |} in
        match get (length calls) params with
        | None => Some (Thrown, calls ++ [params])
        | Some data =>
            let allIssues := allIssues ++ default [] (page_issues data) in
            let isLast := negb (bool_decide (page_isLast data = Some false)) in
            let nextPageToken := page_nextPageToken data in
            if no_issues data
               || (negb (bool_decide (is_Some (JS.truthy nextPageToken)))
                   && negb isLast)
            then Some (Returned {| result_issues := allIssues;
                                   result_total := length allIssues;
                                   result_isLast := true |},
                       calls ++ [params])
            else search_loop fuel' get jql maxResults (calls ++ [params])
                   allIssues nextPageToken isLast
        end
      else Some (Returned {| result_issues := allIssues;
                             result_total := length allIssues;
                             result_isLast := true |}, calls)
  end.

(** [maxResults] defaults to 50. With [maxResults] infinite the loop runs
    for as long as the server sends pages that go on, so that the bound on
    the iterations is an argument. *)
Definition searchIssues (fuel : nat) (get : nat → SearchParams → option PageData)
    (jql : jsstring) (maxResults : option Number.t)
    : option (SearchOutcome * list SearchParams) :=
  search_loop fuel get jql (default (Number.Finite 50) maxResults) [] [] None false.

(** The number of issues still wanted when [n] are held, rounded up; there
    is none for an infinite [maxResults]. Every iteration but the last adds
    an issue, so that this also bounds the iterations to come. *)
Definition issues_left (maxResults : Number.t) (n : nat) : option nat :=
  match maxResults with
  | Number.NaN | Number.NegInf => Some 0
  | Number.Finite q => Some (Z.to_nat (Qceiling q - Z.of_nat n))
  | Number.PosInf => None
  end.

Definition issue_cap (maxResults : option Number.t) : option nat :=
  issues_left (default (Number.Finite 50) maxResults) 0.

(** A request that carries the query and asks for more than 0 and at most
    100 issues; one that asks for a whole number of issues. *)
Definition well_sized (jql : jsstring) (p : SearchParams) : Prop :=
  param_jql p = jql ∧
  ∃ q, param_maxResults p = Number.Finite q ∧ (0 < q)%Q ∧ (q <= 100)%Q.

Definition whole_sized (p : SearchParams) : Prop :=
  ∃ q k, param_maxResults p = Number.Finite q ∧ (q == inject_Z k)%Q ∧
         (1 ≤ k)%Z ∧ (k ≤ 100)%Z.

(** Request [p] follows the [i]-th request [prev]: the response to [prev]
    said [isLast: false], held an issue and a page token that is not empty,
    and [p] carries that token. *)
Definition follows_page (get : nat → SearchParams → option PageData)
    (i : nat) (prev p : SearchParams) : Prop :=
  ∃ data x page c token,
    get i prev = Some data ∧
    page_isLast data = Some false ∧
    page_issues data = Some (x :: page) ∧
    page_nextPageToken data = Some (c :: token) ∧
    param_nextPageToken p = Some (c :: token).

Definition chained (get : nat → SearchParams → option PageData)
    (calls : list SearchParams) : Prop :=
  (∀ p, calls !! 0 = Some p → param_nextPageToken p = None) ∧
  (∀ i prev p, calls !! i = Some prev → calls !! S i = Some p →
               follows_page get i prev p).

(** The issues of the pages received for the requests [calls], in order. *)
Definition pages_of (get : nat → SearchParams → option PageData)
    (calls : list SearchParams) : list Issue :=
  concat (imap (λ i p, default [] (get i p ≫= page_issues)) calls).

(** What searchIssues returns or throws, against the requests it made. *)
Definition outcome_of_pages (get : nat → SearchParams → option PageData)
    (out : SearchOutcome) (calls : list SearchParams) : Prop :=
  match out with
  | Returned r =>
      result_issues r = pages_of get calls ∧
      result_total r = length (result_issues r) ∧ result_isLast r = true
  | Thrown => ∃ p, last calls = Some p ∧ get (length calls - 1) p = None
  end.

(** A response that ends the paging: a throw, or a page that does not say
    [isLast: false], that holds no issue or that gives no page token. *)
Definition ends_paging (response : option PageData) : bool :=
  match response with
  | None => true
  | Some data =>
      negb (bool_decide (page_isLast data = Some false))
      || no_issues data
      || negb (bool_decide (is_Some (JS.truthy (page_nextPageToken data))))
  end.

End SearchIssuesModel.

(** The number of issues a request asks for, rounded up. *)
Definition asked_for (p : SearchParams) : nat :=
  match param_maxResults p with
  | Number.Finite q => Z.to_nat (Qceiling q)
  | _ => 0
  end.

(** A server that always sends a full page of the size asked for, says
    [isLast: false] and gives a token; and one that sends a single issue. *)
Definition full_page_server (i : nat) (p : SearchParams) : option (@PageData nat) :=
  Some {| page_issues := Some (replicate (asked_for p) i);
          page_isLast := Some false;
          page_nextPageToken := Some (js "next") |}.

Definition one_issue_server (i : nat) (p : SearchParams) : option (@PageData nat) :=
  Some {| page_issues := Some [i];
          page_isLast := Some false;
          page_nextPageToken := Some (js "next") |}.

(** A server with three pages of one issue; the third says [isLast: true]. *)
Definition three_page_server (i : nat) (p : SearchParams) : option (@PageData nat) :=
  Some {| page_issues := Some [i];
          page_isLast := Some (2 <=? i);
          page_nextPageToken := if 2 <=? i then None else Some (js "next") |}.

(** ** expandPodAliases (index file, lines 31-69) *)

Definition dquote : N := 34%N.
Definition squote : N := ch "'".
Definition quotes : list N := [dquote; squote].

(** The own properties of [POD_ALIASES] (lines 31-45). *)
Definition POD_ALIASES : list (jsstring * jsstring) :=
  [(js "workflow", js "Pod 1 Workflow");
   (js "pod1", js "Pod 1 Workflow");
   (js "pod 1", js "Pod 1 Workflow");
   (js "growth", js "Pod 2 Growth");
   (js "pod2", js "Pod 2 Growth");
   (js "pod 2", js "Pod 2 Growth");
   (js "platform", js "Platform Pod");
   (js "siteops", js "Pod SiteOps");
   (js "site ops", js "Pod SiteOps");
   (js "ai", js "AI Pod");
   (js "ds", js "DS Pod");
   (js "design", js "DS Pod");
   (js "scale", js "Scale Pod")].

Fixpoint own_property (table : list (jsstring * jsstring)) (key : jsstring)
    : option jsstring :=
  match table with
  | [] => None
  | (k, v) :: table' => if bool_decide (k = key) then Some v else own_property table' key
  end.

(** The pattern of line 55, with the flags [g] and [i]. Only the three
    letters are affected by [i]: each matches in either case, and no unit
    above 127 is folded onto a letter. Group 1 is the name between the
    quotes. *)
Definition pod_regex : RegExp.t :=
  {| pattern :=
       rseq [ROne (COneOf [ch "P"; ch "p"]); ROne (COneOf [ch "O"; ch "o"]);
             ROne (COneOf [ch "D"; ch "d"]);
             RStar CSpace; RStr (js "="); RStar CSpace;
             ROne (COneOf quotes); RGroup 1 (RPlus (CNoneOf quotes));
             ROne (COneOf quotes)];
     ngroups := 1 |}.

(** [text.replace(re, replacer)] for a pattern with the [g] flag and a
    function as replacement: the matches are found one after the other from
    [lastIndex] (moved one unit further after an empty match), and the text
    between them is copied. [None] stands for an iteration bound that was too
    small. *)
Fixpoint replace_loop (fuel : nat) (re : RegExp.t)
    (replacer : MatchResult → jsstring) (text : jsstring)
    (lastIndex nextSourcePosition : nat) (accumulated : jsstring)
    : option jsstring :=
  match fuel with
  | 0 => None
  | S fuel' =>
      match exec re lastIndex text with
      | (None, _) => Some (accumulated ++ JS.substring_from text nextSourcePosition)
      | (Some m, lastIndex') =>
          let matched := default [] (group m 0) in
          let lastIndex' :=
            if length matched =? 0 then S lastIndex' else lastIndex' in
          if nextSourcePosition <=? index m then
            replace_loop fuel' re replacer text lastIndex'
              (index m + length matched)
              (accumulated ++ JS.substring text nextSourcePosition (index m)
                 ++ replacer m)
          else
            replace_loop fuel' re replacer text lastIndex' nextSourcePosition
              accumulated
      end
  end.

Definition replace_global (re : RegExp.t) (replacer : MatchResult → jsstring)
    (text : jsstring) : option jsstring :=
  replace_loop (S (S (length text))) re replacer text 0 0 [].

Section PodAliases.
(** [String.prototype.toLowerCase], and the properties that [POD_ALIASES]
    inherits from its prototype: [inherited key] is the text that a truthy
    inherited property of that name gives inside a template literal. *)
Variable toLowerCase : jsstring → jsstring.
Variable inherited : jsstring → option jsstring.

(** [POD_ALIASES[key]] when it is truthy, as the template literal of line 62
    renders it. *)
Definition alias_lookup (key : jsstring) : option jsstring :=
  match own_property POD_ALIASES key with
  | Some full => JS.truthy (Some full)
  | None => inherited key
  end.

(** The replacer of lines 57-65. *)
Definition pod_replacer (m : MatchResult) : jsstring :=
  let matched := default [] (group m 0) in
  let podName := default [] (group m 1) in
  let normalizedPod := JS.trim (toLowerCase podName) in
  match alias_lookup normalizedPod with
  | Some fullPodName => js "Pod = " ++ [dquote] ++ fullPodName ++ [dquote]
  | None => matched
  end.

Definition expandPodAliases (jql : jsstring) : option jsstring :=
  replace_global pod_regex pod_replacer jql.

End PodAliases.

(** Patterns without [^]: the only construct whose outcome depends on the
    index at which the match is attempted. *)
Fixpoint anchor_free (r : regex) : bool :=
  match r with
  | RBegin => false
  | RSeq r1 r2 | RAlt r1 r2 => anchor_free r1 && anchor_free r2
  | RGroup _ r1 => anchor_free r1
  | RChar _ | RRep _ _ _ | REmpty | REnd => true
  end.

(** A match found in a suffix of the text, seen from the whole text. *)
Definition shift_match (d : nat) (r : MatchResult * nat) : MatchResult * nat :=
  ({| index := d + index r.1; groups := groups r.1 |}, d + r.2).

(** A pod clause: the three letters in either case, white space, an equals
    sign, white space, and a name between two quotes. *)
Definition pod_clause (p o d : N) (ws1 ws2 : jsstring) (q1 : N) (name : jsstring)
    (q2 : N) : jsstring :=
  [p; o; d] ++ ws1 ++ [ch "="] ++ ws2 ++ [q1] ++ name ++ [q2].

(** Lower-casing of the letters A to Z only, for examples. *)
Definition ascii_lower (s : jsstring) : jsstring :=
  (λ c, if ((65 <=? c) && (c <=? 90))%N then (c + 32)%N else c) <$> s.

(** ** Proof automation *)

(** Inversion of [Matches] on a pattern given by its constructors. *)
Ltac inv_Matches :=
  repeat match goal with
  | H : Matches (RChar _) _ _ _ _ _ |- _ => inversion H; clear H; subst
  | H : Matches (RRep _ _ _) _ _ _ _ _ |- _ => inversion H; clear H; subst
  | H : Matches (RSeq _ _) _ _ _ _ _ |- _ => inversion H; clear H; subst
  | H : Matches (RAlt _ _) _ _ _ _ _ |- _ => inversion H; clear H; subst
  | H : Matches (RGroup _ _) _ _ _ _ _ |- _ => inversion H; clear H; subst
  | H : Matches REmpty _ _ _ _ _ |- _ => inversion H; clear H; subst
  | H : Matches RBegin _ _ _ _ _ |- _ => inversion H; clear H; subst
  | H : Matches REnd _ _ _ _ _ |- _ => inversion H; clear H; subst
  end.

(** Literals and patterns in normal form, for evaluation inside proofs. *)
Ltac norm_literals :=
  repeat match goal with
  | |- context [js ?s] =>
      let v := eval vm_compute in (js s) in change (js s) with v
  | |- context [ch ?a] =>
      let v := eval vm_compute in (ch a) in change (ch a) with v
  | |- context [pattern ?re] =>
      let v := eval vm_compute in (pattern re) in change (pattern re) with v
  | |- context [ngroups ?re] =>
      let v := eval vm_compute in (ngroups re) in change (ngroups re) with v
  end.

(** ** The matcher is sound for the declarative meaning *)

Section MatcherFacts.
Context {A : Type}.
Implicit Types (k : nat → jsstring → captures → option A) (a : A).

Lemma rep_match_sound p min max pos s (k : nat → jsstring → option A) a :
  rep_match p min max pos s k = Some a →
  ∃ w s', s = w ++ s' ∧ Forall (λ c, p c = true) w ∧ min ≤ length w ∧
          (∀ m, max = Some m → length w ≤ m) ∧ k (pos + length w) s' = Some a.
Proof.
  revert min max pos.
  induction s as [|c s IH]; intros min max pos; simpl.
  - destruct min; [|done]. intros Hk. exists [], []. simpl.
    rewrite Nat.add_0_r. repeat split; auto with lia.
  - assert (Hstop : match min with 0 => k pos (c :: s) | S _ => None end = Some a →
      ∃ w s', c :: s = w ++ s' ∧ Forall (λ c, p c = true) w ∧ min ≤ length w ∧
              (∀ m, max = Some m → length w ≤ m) ∧ k (pos + length w) s' = Some a).
    { destruct min; [|done]. intros Hk. exists [], (c :: s). simpl.
      rewrite Nat.add_0_r. repeat split; auto with lia. }
    destruct (p c) eqn:Hp; simpl; [|done].
    destruct (can_take max) eqn:Hmax; [|done].
    destruct (rep_match p (pred min) (pred <$> max) (S pos) s k) eqn:Hrec; [|done].
    intros [= ->].
    apply IH in Hrec as (w & s' & -> & Hw & Hmin & Hmx & Hk).
    exists (c :: w), s'. simpl. repeat split; auto with lia.
    + intros m ->. simpl in *. destruct m; [done|].
      specialize (Hmx m eq_refl). lia.
    + by rewrite <- Nat.add_succ_comm.
Qed.

Lemma rmatch_sound r pos s caps k a :
  rmatch r pos s caps k = Some a →
  ∃ w s' caps', s = w ++ s' ∧ Matches r pos w s' caps caps' ∧
                k (pos + length w) s' caps' = Some a.
Proof.
  revert pos s caps k.
  induction r as [c|cl min max|r1 IH1 r2 IH2|r1 IH1 r2 IH2|i r IH| | |];
    intros pos s caps k; simpl.
  - destruct s as [|x s]; [done|].
    destruct (N.eqb_spec x c) as [->|]; [|done].
    intros Hk. exists [c], s, caps. rewrite Nat.add_1_r. eauto using Matches.
  - intros (w & s' & -> & Hw & Hmin & Hmx & Hk)%rep_match_sound.
    exists w, s', caps. eauto using Matches.
  - intros (w1 & s1 & caps1 & -> & H1 & Hk)%IH1.
    apply IH2 in Hk as (w2 & s2 & caps2 & -> & H2 & Hk).
    exists (w1 ++ w2), s2, caps2. rewrite length_app, Nat.add_assoc, <- (assoc_L (++)).
    eauto using Matches.
  - destruct (rmatch r1 pos s caps k) eqn:H1.
    + intros [= ->]. apply IH1 in H1 as (w & s' & caps' & ? & ? & ?).
      exists w, s', caps'. eauto using Matches.
    + intros (w & s' & caps' & ? & ? & ?)%IH2.
      exists w, s', caps'. eauto using Matches.
  - intros (w & s' & caps' & -> & H & Hk)%IH.
    exists w, s', (<[i := Some w]> caps').
    replace (pos + length w - pos) with (length w) in Hk by lia.
    rewrite take_app_length in Hk. eauto using Matches.
  - intros Hk. exists [], s, caps. rewrite Nat.add_0_r. eauto using Matches.
  - destruct (Nat.eqb_spec pos 0) as [->|]; [|done].
    intros Hk. exists [], s, caps. eauto using Matches.
  - destruct s; [|done]. intros Hk. exists [], [], caps.
    rewrite Nat.add_0_r. eauto using Matches.
Qed.

(** The matcher is complete: it finds a match whenever there is one after
    which the rest of the pattern succeeds. *)
Lemma rep_match_complete p min max pos w s (k : nat → jsstring → option A) :
  Forall (λ c, p c = true) w →
  min ≤ length w →
  (∀ m, max = Some m → length w ≤ m) →
  is_Some (k (pos + length w) s) →
  is_Some (rep_match p min max pos (w ++ s) k).
Proof.
  intros Hw. revert min max pos.
  induction Hw as [|c w Hc Hw IH]; intros min max pos Hmin Hmax Hk; simpl in *.
  - rewrite Nat.add_0_r in Hk. assert (min = 0) as -> by lia.
    destruct s as [|c s']; [done|]. simpl.
    destruct (p c && can_take max); [|done].
    by destruct (rep_match p 0 (pred <$> max) (S pos) s' k).
  - rewrite Hc. simpl.
    assert (can_take max = true) as ->.
    { destruct max as [[|m]|]; try done. specialize (Hmax 0 eq_refl). lia. }
    destruct (IH (pred min) (pred <$> max) (S pos)) as [a ->]; [lia| | |done].
    + intros m Hm. destruct max as [m'|]; [|done]. simpl in Hm.
      specialize (Hmax m' eq_refl). injection Hm as <-. lia.
    + by rewrite Nat.add_succ_comm.
Qed.

Lemma rmatch_complete r pos w s caps caps' k :
  Matches r pos w s caps caps' →
  is_Some (k (pos + length w) s caps') →
  is_Some (rmatch r pos (w ++ s) caps k).
Proof.
  intros HM. revert k.
  induction HM as [c pos s caps|cl min max pos w s caps Hw Hmin Hmax
                  |r1 r2 pos w1 w2 s caps caps1 caps2 _ IH1 _ IH2
                  |r1 r2 pos w s caps caps' _ IH|r1 r2 pos w s caps caps' _ IH
                  |i r pos w s caps caps' _ IH|pos s caps|s caps|pos caps];
    intros k Hk; cbn [rmatch].
  - simpl. rewrite N.eqb_refl. by rewrite Nat.add_1_r in Hk.
  - by apply rep_match_complete.
  - rewrite <- (assoc_L (++)). apply IH1, IH2.
    by rewrite length_app, Nat.add_assoc in Hk.
  - destruct (IH k Hk) as [a ->]. done.
  - destruct (rmatch r1 pos (w ++ s) caps k); [done|]. by apply IH.
  - apply IH. replace (pos + length w - pos) with (length w) by lia.
    by rewrite take_app_length.
  - by rewrite Nat.add_0_r in Hk.
  - done.
  - by rewrite Nat.add_0_r in Hk.
Qed.

End MatcherFacts.

Lemma Matches_min_len r pos w s caps caps' :
  Matches r pos w s caps caps' → min_len r ≤ length w.
Proof.
  induction 1; simpl; rewrite ?length_app; lia.
Qed.

Lemma search_sound re pos s m e :
  search re pos s = Some (m, e) →
  ∃ n w s' caps,
    drop n s = w ++ s' ∧ n ≤ length s ∧ index m = pos + n ∧
    e = pos + n + length w ∧
    Matches (pattern re) (pos + n) w s' (replicate (S (ngroups re)) None) caps ∧
    groups m = <[0 := Some w]> caps.
Proof.
  revert pos. induction s as [|c s IH]; intros pos; simpl.
  all: destruct (match_at re pos _) as [[m' e']|] eqn:Hat.
  all: try (intros [= -> ->]; unfold match_at in Hat;
    apply rmatch_sound in Hat as (w & s' & caps & Hs & HM & [= <- <-]);
    exists 0, w, s', caps; rewrite Nat.add_0_r; simpl;
    replace (pos + length w - pos) with (length w) by lia;
    rewrite Hs, take_app_length; split_and!; auto with lia).
  intros (n & w & s' & caps & ? & ? & ? & ? & ? & ?)%IH.
  exists (S n), w, s', caps. rewrite <- !Nat.add_succ_comm.
  split_and!; simpl; auto with lia.
Qed.

Lemma exec_sound re lastIndex text m e :
  exec re lastIndex text = (Some m, e) →
  ∃ w caps,
    lastIndex ≤ index m ∧ e = index m + length w ∧ e ≤ length text ∧
    drop (index m) text = w ++ drop e text ∧
    Matches (pattern re) (index m) w (drop e text)
            (replicate (S (ngroups re)) None) caps ∧
    groups m = <[0 := Some w]> caps.
Proof.
  unfold exec. case_match; [done|].
  destruct (search _ _ _) as [[m' e']|] eqn:Hs; [|done].
  intros [= -> ->].
  apply search_sound in Hs as (n & w & s' & caps & Hd & Hn & Hi & He & HM & Hg).
  rewrite drop_drop in Hd. rewrite length_drop in Hn.
  assert (Hlen : length (drop (lastIndex + n) text) = length w + length s')
    by (by rewrite Hd, length_app).
  rewrite length_drop in Hlen.
  assert (Hs' : drop e text = s').
  { subst e. rewrite <- (drop_drop text (length w)), Hd. apply drop_app_length. }
  apply Nat.ltb_ge in H.
  exists w, caps. rewrite Hs', Hi. split_and!; auto with lia.
Qed.

Lemma match_at_complete re pos w s caps :
  Matches (pattern re) pos w s (replicate (S (ngroups re)) None) caps →
  is_Some (match_at re pos (w ++ s)).
Proof.
  intros HM. unfold match_at. by eapply rmatch_complete.
Qed.

(** The search returns the first index at which an attempt succeeds. *)
Lemma search_first re s :
  ∀ pos,
  match search re pos s with
  | Some (m, _) => ∀ j, pos + j < index m → match_at re (pos + j) (drop j s) = None
  | None => ∀ j, j ≤ length s → match_at re (pos + j) (drop j s) = None
  end.
Proof.
  induction s as [|c s IH]; intros pos; cbn [search].
  - destruct (match_at re pos []) as [[m e]|] eqn:Hat.
    + unfold match_at in Hat.
      apply rmatch_sound in Hat as (w & s' & caps & _ & _ & [= <- _]).
      intros j Hj. simpl in Hj. lia.
    + intros j Hj. simpl in Hj. assert (j = 0) as -> by lia.
      by rewrite Nat.add_0_r.
  - destruct (match_at re pos (c :: s)) as [[m e]|] eqn:Hat.
    + unfold match_at in Hat.
      apply rmatch_sound in Hat as (w & s' & caps & _ & _ & [= <- _]).
      intros j Hj. simpl in Hj. lia.
    + specialize (IH (S pos)).
      destruct (search re (S pos) s) as [[m e]|].
      * intros [|j] Hj; [by rewrite Nat.add_0_r|].
        rewrite <- Nat.add_succ_comm. apply IH. lia.
      * intros [|j] Hj; [by rewrite Nat.add_0_r|].
        rewrite <- Nat.add_succ_comm. apply IH. simpl in Hj. lia.
Qed.

Lemma exec_first re lastIndex text :
  lastIndex ≤ length text →
  match exec re lastIndex text with
  | (Some m, _) => ∀ j, lastIndex ≤ j → j < index m →
                        match_at re j (drop j text) = None
  | (None, _) => ∀ j, lastIndex ≤ j → j ≤ length text →
                      match_at re j (drop j text) = None
  end.
Proof.
  intros Hle. unfold exec.
  destruct (Nat.ltb_spec (length text) lastIndex); [lia|].
  pose proof (search_first re (drop lastIndex text) lastIndex) as Hfirst.
  destruct (search re lastIndex (drop lastIndex text)) as [[m e]|].
  - intros j Hj Hlt. specialize (Hfirst (j - lastIndex)).
    rewrite drop_drop in Hfirst.
    replace (lastIndex + (j - lastIndex)) with j in Hfirst by lia.
    apply Hfirst. lia.
  - intros j Hj Hlt. specialize (Hfirst (j - lastIndex)).
    rewrite drop_drop, length_drop in Hfirst.
    replace (lastIndex + (j - lastIndex)) with j in Hfirst by lia.
    apply Hfirst. lia.
Qed.

Lemma Forall_none_of x (w : jsstring) :
  Forall (λ c, class_mem (CNoneOf [x]) c = true) w → free_of x w.
Proof.
  intros Hw. eapply Forall_impl; [exact Hw|]. intros c Hc ->. simpl in Hc.
  by rewrite bool_decide_eq_true_2 in Hc by by apply list_elem_of_singleton.
Qed.

Lemma inline_match_shape pos w s caps :
  Matches (pattern inline_regex) pos w s (replicate 10 None) caps →
  ∃ f inner,
    w = source_of (Marked f inner) ∧
    recognized f inner ∧
    ∀ idx result,
      push_formatted {| index := idx; groups := <[0 := Some w]> caps |} result
      = result ++ [run_of (Marked f inner)].
Proof.
  intros HM.
  let r := eval vm_compute in (pattern inline_regex) in
  change (pattern inline_regex) with r in HM.
  inv_Matches.
  all: repeat match goal with
       | H : Forall (λ c, class_mem (CNoneOf [_]) c = true) _ |- _ =>
           apply Forall_none_of in H
       | H : 1 ≤ length ?w |- _ => destruct w; simpl in H; [lia|clear H]
       end.
  1: eexists (FLink _), _.
  2: exists FCode; eexists.
  3: exists FBoldStar; eexists.
  4: exists FBoldUnder; eexists.
  5: exists FStrike; eexists.
  6: exists FItalicStar; eexists.
  7: exists FItalicUnder; eexists.
  all: split_and!; [| |reflexivity].
  all: try (cbn; rewrite ?(right_id_L [] (++)), <- ?(assoc_L (++)); reflexivity).
  all: unfold recognized; split_and?; done.
Qed.

(** The pattern accepts every recognized span. *)
Lemma Matches_RStr (str : jsstring) pos rest caps :
  Matches (RStr str) pos str rest caps caps.
Proof.
  revert pos. induction str as [|c str IH]; intros pos; [constructor|].
  change (RStr (c :: str)) with (RSeq (RChar c) (RStr str)).
  change (c :: str) with ([c] ++ str). eapply M_seq; [constructor|apply IH].
Qed.

Lemma none_of_Forall x (w : jsstring) :
  free_of x w → Forall (λ c, class_mem (CNoneOf [x]) c = true) w.
Proof.
  intros Hw. eapply Forall_impl; [exact Hw|]. intros c Hc. simpl.
  apply negb_true_iff, bool_decide_eq_false. by intros ->%list_elem_of_singleton.
Qed.

Lemma Matches_delimited (opener closer : jsstring) x min i inner pos rest caps :
  free_of x inner → min ≤ length inner →
  Matches (rseq [RStr opener; RGroup i (RRep (CNoneOf [x]) min None); RStr closer])
    pos (opener ++ inner ++ closer) rest caps (<[i := Some inner]> caps).
Proof.
  intros Hfree Hmin.
  replace (opener ++ inner ++ closer) with (opener ++ inner ++ closer ++ [])
    by (by rewrite (right_id_L [] (++))).
  cbn [rseq foldr].
  eapply M_seq; [apply Matches_RStr|].
  eapply M_seq; [apply M_group, M_rep; [by apply none_of_Forall|done|done]|].
  eapply M_seq; [apply Matches_RStr|constructor].
Qed.

Lemma nonempty_length (l : jsstring) : l ≠ [] → 1 ≤ length l.
Proof. destruct l; [done|simpl; lia]. Qed.

Lemma span_Matches f inner pos rest :
  recognized f inner →
  ∃ caps, Matches (pattern inline_regex) pos (source_of (Marked f inner)) rest
            (replicate 10 None) caps.
Proof.
  intros Hrec. unfold inline_regex, inline_alts. cbn [pattern ralt].
  destruct f as [href| | | | | |]; cbn [source_of opening closing recognized] in *.
  - destruct Hrec as (Hinner & Hfree & Hhref & Hfree').
    eexists. apply M_group, M_alt_l. unfold link_alt.
    replace (js "[" ++ inner ++ js "](" ++ href ++ js ")")
      with (js "[" ++ inner ++ js "](" ++ href ++ js ")" ++ [])
      by (by rewrite (right_id_L [] (++))).
    cbn [rseq foldr].
    eapply M_seq; [apply Matches_RStr|].
    eapply M_seq;
      [apply M_group, M_rep;
         [by apply none_of_Forall|by apply nonempty_length|done]|].
    eapply M_seq; [apply Matches_RStr|].
    eapply M_seq;
      [apply M_group, M_rep;
         [by apply none_of_Forall|by apply nonempty_length|done]|].
    eapply M_seq; [apply Matches_RStr|constructor].
  - eexists. apply M_group, M_alt_r, M_alt_l.
    apply Matches_delimited; [done|lia].
  - destruct Hrec as [Hinner Hfree].
    eexists. apply M_group, M_alt_r, M_alt_r, M_alt_l.
    apply Matches_delimited; [done|by apply nonempty_length].
  - destruct Hrec as [Hinner Hfree].
    eexists. apply M_group, M_alt_r, M_alt_r, M_alt_r, M_alt_l.
    apply Matches_delimited; [done|by apply nonempty_length].
  - destruct Hrec as [Hinner Hfree].
    eexists. apply M_group, M_alt_r, M_alt_r, M_alt_r, M_alt_r, M_alt_l.
    apply Matches_delimited; [done|by apply nonempty_length].
  - destruct Hrec as [Hinner Hfree].
    eexists. apply M_group, M_alt_r, M_alt_r, M_alt_r, M_alt_r, M_alt_r, M_alt_l.
    apply Matches_delimited; [done|by apply nonempty_length].
  - destruct Hrec as [Hinner Hfree].
    eexists. apply M_group, M_alt_r, M_alt_r, M_alt_r, M_alt_r, M_alt_r, M_alt_r.
    apply Matches_delimited; [done|by apply nonempty_length].
Qed.

(** Where an attempt of the pattern fails, no recognized span starts. *)
Lemma no_match_no_span pos (s : jsstring) :
  match_at inline_regex pos s = None → ¬ span_starts s.
Proof.
  intros Hat (f & inner & rest & Hrec & ->).
  destruct (span_Matches f inner pos rest Hrec) as [caps HM].
  apply (match_at_complete inline_regex) in HM as [r Hr]. congruence.
Qed.

Lemma first_split {A} (P : A → Prop) (l1 l1' : list A) x x' l2 l2' :
  Forall (λ y, ¬ P y) l1 → P x → Forall (λ y, ¬ P y) l1' → P x' →
  l1 ++ x :: l2 = l1' ++ x' :: l2' → l1 = l1' ∧ x = x' ∧ l2 = l2'.
Proof.
  intros H1 Hx. revert l1'. induction H1 as [|y l1 Hy H1 IH]; intros l1' H1' Hx'.
  - destruct H1' as [|y' l1' Hy' _]; simpl; [by intros [= -> ->]|].
    intros [= -> _]. done.
  - destruct H1' as [|y' l1' Hy' H1']; simpl; [by intros [= -> _]|].
    intros [= -> Heq]. apply IH in Heq as (-> & -> & ->); done.
Qed.

(** At most one recognized span starts a text. *)
Lemma span_unique f inner rest f' inner' rest' :
  recognized f inner → recognized f' inner' →
  source_of (Marked f inner) ++ rest = source_of (Marked f' inner') ++ rest' →
  f = f' ∧ inner = inner' ∧ rest = rest'.
Proof.
  intros Hrec Hrec' Heq.
  destruct f as [href| | | | | |], f' as [href'| | | | | |];
    cbn [source_of opening closing recognized] in *;
    revert Heq; norm_literals; rewrite <- ?(assoc_L (++)); cbn [app];
    intros Heq; try discriminate.
  - destruct Hrec as (_ & Hfree & _ & Hfree'), Hrec' as (_ & Hfree2 & _ & Hfree2').
    injection Heq as Heq.
    apply (first_split (λ c, c = 93%N)) in Heq as (-> & _ & Heq); [|done..].
    injection Heq as Heq.
    apply (first_split (λ c, c = 41%N)) in Heq as (-> & _ & ->); [|done..].
    done.
  - injection Heq as Heq.
    apply (first_split (λ c, c = 96%N)) in Heq as (-> & _ & ->); [|done..]. done.
  - destruct Hrec as [_ Hfree], Hrec' as [_ Hfree']. injection Heq as Heq.
    apply (first_split (λ c, c = 42%N)) in Heq as (-> & _ & Heq); [|done..].
    by injection Heq as ->.
  - destruct Hrec' as [Hne Hfree']. destruct inner' as [|c inner']; [done|].
    apply Forall_cons in Hfree' as [Hc _]. cbn [app] in Heq. by simplify_eq.
  - destruct Hrec as [_ Hfree], Hrec' as [_ Hfree']. injection Heq as Heq.
    apply (first_split (λ c, c = 95%N)) in Heq as (-> & _ & Heq); [|done..].
    by injection Heq as ->.
  - destruct Hrec' as [Hne Hfree']. destruct inner' as [|c inner']; [done|].
    apply Forall_cons in Hfree' as [Hc _]. cbn [app] in Heq. by simplify_eq.
  - destruct Hrec as [_ Hfree], Hrec' as [_ Hfree']. injection Heq as Heq.
    apply (first_split (λ c, c = 126%N)) in Heq as (-> & _ & Heq); [|done..].
    by injection Heq as ->.
  - destruct Hrec as [Hne Hfree]. destruct inner as [|c inner]; [done|].
    apply Forall_cons in Hfree as [Hc _]. cbn [app] in Heq. by simplify_eq.
  - destruct Hrec as [_ Hfree], Hrec' as [_ Hfree']. injection Heq as Heq.
    apply (first_split (λ c, c = 42%N)) in Heq as (-> & _ & ->); [|done..]. done.
  - destruct Hrec as [Hne Hfree]. destruct inner as [|c inner]; [done|].
    apply Forall_cons in Hfree as [Hc _]. cbn [app] in Heq. by simplify_eq.
  - destruct Hrec as [_ Hfree], Hrec' as [_ Hfree']. injection Heq as Heq.
    apply (first_split (λ c, c = 95%N)) in Heq as (-> & _ & ->); [|done..]. done.
Qed.

Lemma plain_is_bare_app line pos segs1 segs2 :
  plain_is_bare line pos (segs1 ++ segs2) ↔
  plain_is_bare line pos segs1 ∧
  plain_is_bare line (pos + length (concat (source_of <$> segs1))) segs2.
Proof.
  revert pos. induction segs1 as [|g segs1 IH]; intros pos; simpl.
  - rewrite Nat.add_0_r. tauto.
  - rewrite IH, length_app, Nat.add_assoc. tauto.
Qed.

Lemma substring_between (s : jsstring) (from to : nat) :
  from ≤ to → to ≤ length s →
  JS.substring s from to = take (to - from) (drop from s).
Proof.
  intros. unfold JS.substring.
  by rewrite (Nat.min_l from), (Nat.min_l to), Nat.max_r, Nat.min_l by lia.
Qed.

Lemma push_plain_before_segments text currentPos m result :
  currentPos ≤ index m → index m ≤ length text →
  ∃ segs,
    push_plain_before text currentPos m result = result ++ (run_of <$> segs) ∧
    Forall well_formed segs ∧
    concat (source_of <$> segs) = take (index m - currentPos) (drop currentPos text) ∧
    ((∀ j, currentPos ≤ j → j < index m → ¬ span_starts (drop j text)) →
     plain_is_bare text currentPos segs).
Proof.
  intros Hle Hlen. unfold push_plain_before.
  destruct (Nat.ltb_spec currentPos (index m)) as [Hlt|Hge].
  - rewrite substring_between by done.
    destruct (take _ _) as [|c p] eqn:Hp; simpl.
    + exists []. simpl. by rewrite (right_id_L [] (++)).
    + exists [Plain (c :: p)]. simpl. rewrite (right_id_L [] (++)).
      split_and!; [done|by repeat constructor|done|].
      intros Hbare. split; [|done]. intros j Hj Hjlt. apply Hbare; [done|].
      apply (f_equal length) in Hp. rewrite length_take in Hp. simpl in *. lia.
  - exists []. replace (index m - currentPos) with 0 by lia.
    simpl. by rewrite (right_id_L [] (++)).
Qed.

(** The loop terminates within the bound, and its runs are the segments of
    the part of the line it has scanned; no recognized span starts in a
    plain piece, nor in what is left of the line. *)
Lemma inline_loop_segments fuel text pos result :
  pos ≤ length text → length text - pos < fuel →
  ∃ segs currentPos,
    inline_loop fuel text pos pos result
      = Some (result ++ (run_of <$> segs), currentPos) ∧
    pos ≤ currentPos ∧ currentPos ≤ length text ∧
    Forall well_formed segs ∧
    take currentPos text = take pos text ++ concat (source_of <$> segs) ∧
    plain_is_bare text pos segs ∧
    (∀ j, currentPos ≤ j → j ≤ length text → ¬ span_starts (drop j text)).
Proof.
  revert pos result. induction fuel as [|fuel IH]; intros pos result Hpos Hfuel;
    [lia|]. simpl.
  pose proof (exec_first inline_regex pos text Hpos) as Hfirst.
  destruct (exec inline_regex pos text) as [[m|] e] eqn:Hexec.
  - apply exec_sound in Hexec as (w & caps & Hle & He & Helen & Hdrop & HM & Hg).
    pose proof (Matches_min_len _ _ _ _ _ _ HM) as Hmin.
    change (min_len (pattern inline_regex)) with 2 in Hmin.
    apply inline_match_shape in HM as (f & inner & Hw & Hrec & Hpush).
    destruct m as [i gs]. simpl in *. subst gs.
    destruct (push_plain_before_segments text pos
                {| index := i; groups := <[0:=Some w]> caps |} result)
      as (psegs & -> & Hpwf & Hpsrc & Hpbare); [done|simpl; lia|].
    simpl in Hpsrc, Hpbare.
    rewrite Hpush.
    assert (Hg0 : group {| index := i; groups := <[0:=Some w]> caps |} 0 = Some w).
    { unfold group. simpl. destruct caps; [|done].
      (* the captures of a pattern with nine groups are never empty *)
      specialize (Hpush 0 []). discriminate Hpush. }
    rewrite Hg0. simpl. rewrite <- He.
    destruct (IH e ((result ++ (run_of <$> psegs)) ++ [marked inner (mark_of f)]))
      as (segs & cp & -> & Hcp1 & Hcp2 & Hwf & Htake & Hbare & Htail); [lia|lia|].
    exists (psegs ++ Marked f inner :: segs), cp.
    split_and!; [|lia|done| | | |done].
    + do 2 f_equal. rewrite !fmap_app, fmap_cons, <- !(assoc_L (++)). done.
    + apply Forall_app. split; [done|]. by constructor.
    + rewrite Htake. rewrite fmap_app, concat_app, fmap_cons. simpl.
      rewrite Hpsrc, (assoc_L (++)), (assoc_L (++)). f_equal.
      rewrite <- Hw. subst e.
      rewrite <- (take_take_drop text i (length w)), Hdrop, take_app_length.
      f_equal. replace i with (pos + (i - pos)) at 1 by lia.
      by rewrite <- take_take_drop.
    + apply plain_is_bare_app. split.
      * apply Hpbare. intros j Hj Hlt. eapply no_match_no_span. by apply Hfirst.
      * rewrite Hpsrc, length_take, length_drop.
        replace (pos + (i - pos) `min` (length text - pos)) with i by lia.
        simpl. split; [done|]. rewrite <- Hw, <- He. exact Hbare.
  - exists [], pos. simpl. rewrite !(right_id_L [] (++)).
    split_and!; [done..|].
    intros j Hj Hlen. eapply no_match_no_span. by apply Hfirst.
Qed.

(** The runs of a line are the runs of a segmentation of the line, in
    which the recognized spans are the marked segments. *)
Lemma parseInlineFormatting_segments text :
  ∃ segs,
    parseInlineFormatting text = Some (run_of <$> segs) ∧
    concat (source_of <$> segs) = text ∧ Forall well_formed segs ∧ segs ≠ [] ∧
    plain_is_bare text 0 segs.
Proof.
  unfold parseInlineFormatting.
  destruct (inline_loop_segments (S (length text)) text 0 [])
    as (segs & cp & -> & _ & Hcp & Hwf & Htake & Hbare & Htail); [lia|lia|].
  simpl in *.
  assert (Hlen : length (concat (source_of <$> segs)) = cp).
  { rewrite <- Htake, length_take. lia. }
  unfold push_remaining, push_if_empty.
  destruct (Nat.ltb_spec cp (length text)) as [Hlt|Hge].
  - unfold JS.substring_from. destruct (drop cp text) as [|c r] eqn:Hr.
    { apply (f_equal length) in Hr. rewrite length_drop in Hr. simpl in Hr. lia. }
    simpl. exists (segs ++ [Plain (c :: r)]).
    rewrite length_app, Nat.add_comm. simpl. split_and!.
    + by rewrite fmap_app.
    + rewrite fmap_app, concat_app. simpl. rewrite (right_id_L [] (++)).
      by rewrite <- Htake, <- Hr, take_drop.
    + apply Forall_app. split; [done|]. by repeat constructor.
    + by destruct segs.
    + apply plain_is_bare_app. split; [done|]. rewrite Hlen. simpl.
      split; [|done]. intros j Hj Hjlt. apply Htail; [done|].
      apply (f_equal length) in Hr. rewrite length_drop in Hr. simpl in Hr. lia.
  - rewrite take_ge in Htake by done. destruct segs as [|g segs]; simpl.
    + exists [Plain text]. simpl in *. rewrite (right_id_L [] (++)).
      split_and!; [done|done|by repeat constructor|done| |done].
      intros j Hj Hjlt. apply Htail; lia.
    + exists (g :: segs). done.
Qed.

(** *** The segmentation is determined by the line *)

Lemma drop_shift (line w rest : jsstring) pos :
  drop pos line = w ++ rest → drop (pos + length w) line = rest.
Proof.
  intros Hd. by rewrite <- drop_drop, Hd, drop_app_length.
Qed.

Lemma opening_nonempty f : opening f ≠ [].
Proof. by destruct f. Qed.

Lemma sources_nil_stripped segs :
  concat (source_of <$> segs) = [] → concat (stripped_of <$> segs) = [].
Proof.
  induction segs as [|[p|f inner] segs IH]; simpl; [done|..].
  - intros [-> Hs]%app_eq_nil. by apply IH.
  - intros [[Hop _]%app_eq_nil _]%app_eq_nil. by destruct (opening_nonempty f).
Qed.

Lemma span_at_marked line pos f inner segs :
  concat (source_of <$> Marked f inner :: segs) = drop pos line →
  Forall well_formed (Marked f inner :: segs) →
  span_starts (drop pos line).
Proof.
  intros <- [Hrec _]%Forall_cons. by exists f, inner, (concat (source_of <$> segs)).
Qed.

(** Two segmentations of a line in which no recognized span is left in a
    plain piece strip the same delimiters. *)
Lemma bare_unique line n :
  ∀ pos segs1 segs2,
  length (drop pos line) + length segs1 + length segs2 ≤ n →
  concat (source_of <$> segs1) = drop pos line →
  concat (source_of <$> segs2) = drop pos line →
  Forall well_formed segs1 → Forall well_formed segs2 →
  plain_is_bare line pos segs1 → plain_is_bare line pos segs2 →
  concat (stripped_of <$> segs1) = concat (stripped_of <$> segs2).
Proof.
  induction n as [|n IH]; intros pos segs1 segs2 Hn Hs1 Hs2 Hwf1 Hwf2 Hb1 Hb2.
  { destruct segs1, segs2; simpl in Hn; try lia. done. }
  destruct segs1 as [|[[|c p]|f inner] segs1].
  - rewrite <- Hs1 in Hs2. simpl. symmetry. by apply sources_nil_stripped.
  - (* an empty plain piece on the left *)
    simpl in *. destruct Hb1 as [_ Hb1]. rewrite Nat.add_0_r in Hb1.
    apply Forall_cons in Hwf1 as [_ Hwf1].
    apply (IH pos); [lia|done..].
  - destruct segs2 as [|[[|c' p']|f' inner'] segs2].
    + rewrite <- Hs2 in Hs1. simpl in Hs1. discriminate.
    + (* an empty plain piece on the right *)
      destruct Hb2 as [_ Hb2]. cbn [source_of length] in Hb2.
      rewrite Nat.add_0_r in Hb2. apply Forall_cons in Hwf2 as [_ Hwf2].
      change (concat (stripped_of <$> Plain [] :: segs2))
        with (concat (stripped_of <$> segs2)).
      apply (IH pos); [simpl in *; lia|done..].
    + (* one unit of plain text on both sides *)
      cbn [fmap list_fmap concat source_of stripped_of app] in *.
      assert (c' = c) as -> by (rewrite <- Hs2 in Hs1; by injection Hs1).
      f_equal.
      apply Forall_cons in Hwf1 as [_ Hwf1]. apply Forall_cons in Hwf2 as [_ Hwf2].
      destruct Hb1 as [Hb1 Hb1'], Hb2 as [Hb2 Hb2'].
      cbn [source_of length] in *. rewrite Nat.add_succ_r in Hb1', Hb2'.
      assert (Hd : drop (S pos) line = drop 1 (drop pos line))
        by (by rewrite drop_drop, Nat.add_1_r).
      apply (IH (S pos) (Plain p :: segs1) (Plain p' :: segs2)).
      * rewrite Hd, length_drop. rewrite <- Hs1 in Hn |- *. simpl in *. lia.
      * by rewrite Hd, <- Hs1.
      * by rewrite Hd, <- Hs2.
      * by constructor.
      * by constructor.
      * split; [|done]. intros j Hj Hlt. apply Hb1; lia.
      * split; [|done]. intros j Hj Hlt. apply Hb2; lia.
    + (* plain text on the left where a span starts on the right *)
      destruct Hb1 as [Hb1 _]. destruct (Hb1 pos); [done|simpl; lia|].
      by eapply span_at_marked.
  - destruct segs2 as [|[[|c' p']|f' inner'] segs2].
    + rewrite <- Hs2 in Hs1. simpl in Hs1.
      apply app_eq_nil in Hs1 as [[Hop _]%app_eq_nil _].
      by destruct (opening_nonempty f).
    + destruct Hb2 as [_ Hb2]. cbn [source_of length] in Hb2.
      rewrite Nat.add_0_r in Hb2. apply Forall_cons in Hwf2 as [_ Hwf2].
      change (concat (stripped_of <$> Plain [] :: segs2))
        with (concat (stripped_of <$> segs2)).
      apply (IH pos); [simpl in *; lia|done..].
    + destruct Hb2 as [Hb2 _]. destruct (Hb2 pos); [done|simpl; lia|].
      by eapply span_at_marked.
    + (* the same span on both sides *)
      pose proof Hs1 as Heq. rewrite <- Hs2 in Heq.
      cbn [fmap list_fmap concat] in Heq.
      apply Forall_cons in Hwf1 as [Hrec1 Hwf1].
      apply Forall_cons in Hwf2 as [Hrec2 Hwf2].
      apply span_unique in Heq as (<- & <- & Heq); [|done..].
      cbn [fmap list_fmap concat stripped_of]. f_equal.
      destruct Hb1 as [_ Hb1], Hb2 as [_ Hb2].
      cbn [fmap list_fmap concat] in Hs1, Hs2.
      symmetry in Hs1, Hs2. pose proof Hs1 as Hlen.
      apply (f_equal length) in Hlen. rewrite length_app in Hlen.
      apply drop_shift in Hs1, Hs2.
      apply (IH (pos + length (source_of (Marked f inner)))); [|done..].
      rewrite Hs1. simpl in Hn. lia.
Qed.

Lemma plain_text_run_of segs :
  plain_text (run_of <$> segs) = concat (stripped_of <$> segs).
Proof.
  unfold plain_text. induction segs as [|[s|f inner] segs IH]; simpl; by f_equal.
Qed.

(** C3. For every line the tokenizer returns runs that stand one to one for
    the segments of a segmentation of the line into plain pieces and
    recognized spans (each span well formed for its form) in which no
    recognized span is left in a plain piece: no span starts at an index of
    the line that lies in a plain piece. Re-joining the text fields of the
    runs gives the line with the delimiters of every recognized span removed,
    and that text is determined by the line: every such segmentation of the
    line strips to it. For a link the closing delimiter is the bracketed
    target, which goes to the link mark. *)
Theorem plain_text_roundtrip (line : jsstring) :
  ∃ runs segs,
    parseInlineFormatting line = Some runs ∧
    concat (source_of <$> segs) = line ∧
    Forall well_formed segs ∧
    plain_is_bare line 0 segs ∧
    runs = run_of <$> segs ∧
    plain_text runs = concat (stripped_of <$> segs) ∧
    ∀ segs',
      concat (source_of <$> segs') = line →
      Forall well_formed segs' →
      plain_is_bare line 0 segs' →
      concat (stripped_of <$> segs') = plain_text runs.
Proof.
  destruct (parseInlineFormatting_segments line)
    as (segs & Hruns & Hsrc & Hwf & _ & Hbare).
  exists (run_of <$> segs), segs.
  split_and!; auto using plain_text_run_of.
  intros segs' Hsrc' Hwf' Hbare'. rewrite plain_text_run_of.
  by eapply (bare_unique line _ 0 segs' segs).
Qed.

(** A tokenizer that leaves a recognized span in a plain piece does not
    meet the statement: the line as one plain piece is no such segmentation
    of a bold word. *)
Example whole_line_is_not_bare :
  parseInlineFormatting (js "**bold**") = Some [Text (js "bold") (Some [MStrong])] ∧
  ¬ plain_is_bare (js "**bold**") 0 [Plain (js "**bold**")].
Proof.
  split; [reflexivity|]. intros [Hbare _]. apply (Hbare 0); [lia|simpl; lia|].
  exists FBoldStar, (js "bold"), []. split; [|reflexivity].
  split; [done|]. repeat constructor; discriminate.
Qed.

Example plain_text_of_mixed_line :
  plain_text <$> parseInlineFormatting (js "see [go](http://x) and **b** or `c`")
  = Some (js "see go and b or c").
Proof. reflexivity. Qed.


Lemma exec_no_match text :
  search inline_regex 0 text = None → exec inline_regex 0 text = (None, 0).
Proof.
  intros Hs. unfold exec. change (drop 0 text) with text. by rewrite Hs.
Qed.

(** C4. When the combined pattern matches nowhere in the line, the tokenizer
    returns exactly one run without marks holding the whole line; a line with
    a stray asterisk is such a line. *)
Theorem unmatched_line_single_plain_run (line : jsstring) :
  search inline_regex 0 line = None →
  parseInlineFormatting line = Some [Text line None].
Proof.
  intros Hs. unfold parseInlineFormatting. cbn [inline_loop].
  rewrite (exec_no_match _ Hs). simpl.
  unfold push_remaining, push_if_empty, JS.substring_from. simpl.
  by destruct line.
Qed.

Lemma unmatched_line_single_plain_run_witness :
  search inline_regex 0 (js "a * b") = None ∧
  parseInlineFormatting (js "a * b") = Some [Text (js "a * b") None].
Proof.
  split; [reflexivity|].
  apply (unmatched_line_single_plain_run (js "a * b")). reflexivity.
Defined.

(** ** Totality of the converter *)

Lemma parseInlineFormatting_total text : is_Some (parseInlineFormatting text).
Proof.
  destruct (parseInlineFormatting_segments text) as (segs & -> & _). eauto.
Qed.

Lemma step_total st line : is_Some (step st line).
Proof.
  unfold step.
  repeat first
    [ done
    | match goal with
      | |- is_Some (parseInlineFormatting ?t ≫= _) =>
          destruct (parseInlineFormatting_total t) as [? ->]; simpl
      end
    | case_match ].
Qed.

Lemma run_lines_total lines st : is_Some (run_lines lines st).
Proof.
  revert st. induction lines as [|line lines IH]; intros st; simpl; [done|].
  destruct (step_total st line) as [st' ->]. simpl. apply IH.
Qed.

(** C1. For every input string the conversion returns a Document, its block
    sequence is never empty, and when the blocks accumulated over all the
    lines (the end-of-input flush included) are none the Document is the
    single paragraph with empty inline content; the empty string is such an
    input. *)
Theorem textToADF_nonempty :
  (∀ s : jsstring, ∃ st doc,
     run_lines (JS.split LF s) initial = Some st ∧
     textToADF s = Some doc ∧
     doc_content doc ≠ [] ∧
     doc = {| version := 1;
              doc_content := match flush_unclosed st with
                             | [] => [Paragraph []]
                             | blocks => blocks
                             end |}) ∧
  textToADF (js "") = Some {| version := 1; doc_content := [Paragraph []] |}.
Proof.
  split; [|reflexivity].
  intros s. unfold textToADF.
  destruct (run_lines_total (JS.split LF s) initial) as [st Hst].
  exists st. rewrite Hst. simpl. eexists. split_and!; [done|done|..].
  - simpl. unfold or_empty_paragraph. by destruct (flush_unclosed st).
  - unfold or_empty_paragraph. by destruct (flush_unclosed st).
Qed.

(** C2, as stated, fails on the input made of an opening fence alone: the
    converter is left inside a code block and the Document holds no code
    block. *)
Lemma lone_fence_not_flushed : ¬ flushes_open_code_block (js "```").
Proof.
  intros H. destruct (H _ eq_refl eq_refl) as (doc & Hdoc & Hlast).
  vm_compute in Hdoc. injection Hdoc as <-. vm_compute in Hlast. discriminate.
Qed.

(** C2, amended. When the input ends inside an open code block whose buffer
    holds at least one line, the conversion returns the blocks emitted so
    far followed by one code block of the buffered lines joined by
    newlines. *)
Theorem unclosed_code_block_flushed (s : jsstring) (st : State) :
  run_lines (JS.split LF s) initial = Some st →
  inCodeBlock st = true →
  codeBlockLines st ≠ [] →
  textToADF s
  = Some {| version := 1;
            doc_content := content st ++
              [CodeBlock (JS.truthy (Some (codeLanguage st)))
                         [Text (JS.join newline (codeBlockLines st)) None]] |}.
Proof.
  intros Hrun Hin Hbuf. unfold textToADF. rewrite Hrun. simpl.
  unfold flush_unclosed. rewrite Hin.
  destruct (codeBlockLines st) as [|l ls] eqn:Hls; [done|]. simpl.
  unfold or_empty_paragraph. rewrite length_app, Nat.add_comm. done.
Qed.

Lemma unclosed_code_block_flushed_witness :
  textToADF (js "```" ++ newline ++ js "x")
  = Some {| version := 1; doc_content := [CodeBlock None [Text (js "x") None]] |}.
Proof.
  apply (unclosed_code_block_flushed (js "```" ++ newline ++ js "x")
           {| content := []; inCodeBlock := true; codeBlockLines := [js "x"];
              codeLanguage := [] |}).
  - reflexivity.
  - reflexivity.
  - discriminate.
Defined.

(** C10, as stated, fails when a block precedes the opening fence: the
    Document is that block, not the single empty paragraph. *)
Lemma paragraph_before_lone_fence :
  ¬ empty_open_fence_gives_empty_paragraph (js "a" ++ newline ++ js "```").
Proof.
  intros H. specialize (H _ eq_refl eq_refl eq_refl). vm_compute in H. discriminate.
Qed.

(** C10, amended. When the input ends inside an open code block with an
    empty buffer, no code block is emitted for it: the Document is the
    blocks emitted before, and the single empty paragraph when there are
    none. *)
Theorem empty_open_fence_emits_nothing (s : jsstring) (st : State) :
  run_lines (JS.split LF s) initial = Some st →
  inCodeBlock st = true →
  codeBlockLines st = [] →
  textToADF s
  = Some {| version := 1;
            doc_content := match content st with
                           | [] => [Paragraph []]
                           | blocks => blocks
                           end |}.
Proof.
  intros Hrun Hin Hbuf. unfold textToADF. rewrite Hrun. simpl.
  unfold flush_unclosed. rewrite Hin, Hbuf. simpl.
  unfold or_empty_paragraph. by destruct (content st).
Qed.

Lemma empty_open_fence_emits_nothing_witness :
  textToADF (js "```") = Some {| version := 1; doc_content := [Paragraph []] |}.
Proof.
  apply (empty_open_fence_emits_nothing (js "```")
           {| content := []; inCodeBlock := true; codeBlockLines := [];
              codeLanguage := [] |}); reflexivity.
Defined.

(** ** The greedy repetition on a maximal run *)

Lemma rep_match_greedy {A} p min max pos w s (k : nat → jsstring → option A) a :
  Forall (λ c, p c = true) w →
  (∀ c s', s = c :: s' → p c = false) →
  min ≤ length w →
  (∀ m, max = Some m → length w ≤ m) →
  k (pos + length w) s = Some a →
  rep_match p min max pos (w ++ s) k = Some a.
Proof.
  intros Hw Hs. revert min max pos.
  induction Hw as [|c w Hc Hw IH]; intros min max pos Hmin Hmax Hk; simpl in *.
  - rewrite Nat.add_0_r in Hk. assert (min = 0) as -> by lia.
    destruct s as [|c s']; [done|]. simpl. by rewrite (Hs c s' eq_refl).
  - rewrite Hc. simpl.
    assert (can_take max = true) as ->.
    { destruct max as [[|m]|]; try done. specialize (Hmax 0 eq_refl). lia. }
    rewrite (IH (pred min) (pred <$> max) (S pos)); [done|lia|..].
    + intros m Hm. destruct max as [m'|]; [|done]. simpl in Hm.
      specialize (Hmax m' eq_refl). injection Hm as <-. lia.
    + by rewrite Nat.add_succ_comm.
Qed.

Lemma first_Some {A} (x y : option A) a :
  x = Some a → match x with Some r => Some r | None => y end = Some a.
Proof. by intros ->. Qed.

Lemma take_prefix (n : nat) (w l rest : jsstring) :
  l = w ++ rest → n = length w → take n l = w.
Proof. intros -> ->. apply take_app_length. Qed.

Lemma match_at_bold pos inner rest :
  inner ≠ [] → Forall (λ c, c ≠ ch "*") inner →
  match_at inline_regex pos (js "**" ++ inner ++ js "**" ++ rest)
  = Some ({| index := pos;
             groups := [Some (js "**" ++ inner ++ js "**");
                        Some (js "**" ++ inner ++ js "**");
                        None; None; None; Some inner; None; None; None; None] |},
          pos + length (js "**" ++ inner ++ js "**")).
Proof.
  intros Hne Hin. unfold match_at. norm_literals.
  cbn [rmatch N.eqb Pos.eqb app].
  apply first_Some.
  eapply rep_match_greedy.
  - eapply Forall_impl; [exact Hin|]. intros c Hc. simpl.
    apply negb_true_iff, bool_decide_eq_false. by intros ->%list_elem_of_singleton.
  - by intros c s' [= <- <-].
  - destruct inner; [done|simpl; lia].
  - done.
  - cbn [N.eqb Pos.eqb]. simpl.
    rewrite (take_prefix _ (42 :: 42 :: inner ++ [42; 42])%N _ rest),
            (take_prefix _ inner _ (42 :: 42 :: rest)%N).
    + do 2 f_equal. rewrite length_app. simpl. lia.
    + done.
    + lia.
    + simpl. by rewrite <- (assoc_L (++)).
    + simpl. rewrite length_app. simpl. lia.
Qed.

Lemma search_here re pos s r :
  match_at re pos s = Some r → search re pos s = Some r.
Proof. intros H. destruct s; simpl; by rewrite H. Qed.

Lemma exec_at_end text :
  exec inline_regex (length text) text = (None, 0).
Proof.
  unfold exec. rewrite Nat.ltb_irrefl, drop_all. reflexivity.
Qed.

Lemma match_at_first_match pos s :
  match_at inline_regex pos s
  = first_match [link_alt; code_alt; bold_star_alt; bold_under_alt; strike_alt;
                 italic_star_alt; italic_under_alt] pos s.
Proof.
  unfold match_at, first_match, match_at. cbn [pattern ngroups inline_regex].
  cbn [ralt inline_alts rmatch].
  repeat (destruct (rmatch _ _ _ _ _); [done|]); done.
Qed.

Lemma tokenize_bold inner :
  inner ≠ [] → Forall (λ c, c ≠ ch "*") inner →
  parseInlineFormatting (js "**" ++ inner ++ js "**")
  = Some [Text inner (Some [MStrong])].
Proof.
  intros Hne Hin. unfold parseInlineFormatting.
  set (text := js "**" ++ inner ++ js "**").
  assert (Hlen : length text = S (S (length inner + 2))).
  { unfold text. simpl. by rewrite length_app. }
  rewrite Hlen. cbn [inline_loop]. clear Hlen.
  assert (Hexec : exec inline_regex 0 text
                  = (Some {| index := 0;
                             groups := [Some text; Some text; None; None; None;
                                        Some inner; None; None; None; None] |},
                     length text)).
  { unfold exec. change (drop 0 text) with text.
    pose proof (match_at_bold 0 inner [] Hne Hin) as Hat.
    rewrite (right_id_L [] (++)) in Hat.
    change (js "**" ++ inner ++ js "**") with text in Hat.
    by rewrite (search_here _ _ _ _ Hat). }
  rewrite Hexec. cbn [index]. rewrite exec_at_end.
  destruct inner as [|c inner]; [done|]. simpl.
  unfold push_remaining, push_if_empty. by rewrite Nat.ltb_irrefl.
Qed.

(** C8. At each index the alternatives are tried in the order link, code,
    bold, strikethrough, italic, and the first that matches wins; a span
    written between double asterisks, ["**bold**"] for one, is a single run
    with the one mark strong, not a pair of italic spans. *)
Theorem bold_is_one_strong_run :
  (∀ pos s,
     match_at inline_regex pos s
     = first_match [link_alt; code_alt; bold_star_alt; bold_under_alt; strike_alt;
                    italic_star_alt; italic_under_alt] pos s) ∧
  (∀ inner : jsstring,
     inner ≠ [] → Forall (λ c, c ≠ ch "*") inner →
     parseInlineFormatting (js "**" ++ inner ++ js "**")
     = Some [Text inner (Some [MStrong])]) ∧
  parseInlineFormatting (js "**bold**") = Some [Text (js "bold") (Some [MStrong])].
Proof.
  split_and!; [apply match_at_first_match|apply tokenize_bold|reflexivity].
Qed.

Lemma bold_is_one_strong_run_witness :
  js "bold" ≠ [] ∧ Forall (λ c, c ≠ ch "*") (js "bold") ∧
  parseInlineFormatting (js "**" ++ js "bold" ++ js "**")
  = Some [Text (js "bold") (Some [MStrong])].
Proof.
  assert (H1 : js "bold" ≠ []) by discriminate.
  assert (H2 : Forall (λ c, c ≠ ch "*") (js "bold"))
    by (repeat constructor; discriminate).
  exact (conj H1 (conj H2 (proj1 (proj2 bold_is_one_strong_run) (js "bold") H1 H2))).
Defined.

(** ** The line loop *)

Lemma run_lines_app lines1 lines2 st :
  run_lines (lines1 ++ lines2) st = run_lines lines1 st ≫= run_lines lines2.
Proof.
  revert st. induction lines1 as [|l lines1 IH]; intros st; simpl; [done|].
  destruct (step st l); simpl; auto.
Qed.

Lemma step_open_fence st line :
  is_fence_line line = true → inCodeBlock st = false →
  step st line
  = Some {| content := content st; inCodeBlock := true; codeBlockLines := [];
            codeLanguage := JS.trim (JS.substring_from (JS.trim line) 3) |}.
Proof. unfold is_fence_line, step. by intros -> ->. Qed.

Lemma step_close_fence st line :
  is_fence_line line = true → inCodeBlock st = true →
  step st line
  = Some {| content := content st ++ [code_block (codeLanguage st) (codeBlockLines st)];
            inCodeBlock := false; codeBlockLines := []; codeLanguage := [] |}.
Proof. unfold is_fence_line, step. by intros -> ->. Qed.

Lemma step_inside_code_block st line :
  is_fence_line line = false → inCodeBlock st = true →
  step st line
  = Some {| content := content st; inCodeBlock := true;
            codeBlockLines := codeBlockLines st ++ [line];
            codeLanguage := codeLanguage st |}.
Proof. unfold is_fence_line, step. by intros -> ->. Qed.

Lemma run_lines_inside_code_block inner blocks buffer language :
  Forall (λ line, is_fence_line line = false) inner →
  run_lines inner {| content := blocks; inCodeBlock := true;
                     codeBlockLines := buffer; codeLanguage := language |}
  = Some {| content := blocks; inCodeBlock := true;
            codeBlockLines := buffer ++ inner; codeLanguage := language |}.
Proof.
  intros Hinner. revert buffer.
  induction Hinner as [|line inner Hline _ IH]; intros buffer; simpl.
  - by rewrite (right_id_L [] (++)).
  - rewrite step_inside_code_block by done. simpl.
    by rewrite IH, <- (assoc_L (++)).
Qed.

(** C6. Over a fenced region (an opening fence line, inner lines none of
    which is a fence line, a closing fence line) met outside a code block,
    the loop pushes exactly one code block: its language is the trimmed text
    after the backticks of the opening fence (none when that text is empty)
    and its text is the inner lines, untouched, joined by newlines; the
    state is reset. The fenced ["js"] example converts accordingly. *)
Theorem fenced_region_one_code_block :
  (∀ (st : State) (opening closing : jsstring) (inner : list jsstring),
     inCodeBlock st = false →
     is_fence_line opening = true →
     Forall (λ line, is_fence_line line = false) inner →
     is_fence_line closing = true →
     run_lines (opening :: inner ++ [closing]) st
     = Some {| content := content st ++
                 [CodeBlock
                    (JS.truthy (Some (JS.trim (JS.substring_from (JS.trim opening) 3))))
                    [Text (JS.join newline inner) None]];
               inCodeBlock := false; codeBlockLines := []; codeLanguage := [] |}) ∧
  textToADF (js "```js" ++ newline ++ js "code()" ++ newline ++ js "```")
  = Some {| version := 1;
            doc_content := [CodeBlock (Some (js "js")) [Text (js "code()") None]] |}.
Proof.
  split; [|reflexivity].
  intros st opening closing inner Hst Hopen Hinner Hclose.
  cbn [run_lines]. rewrite step_open_fence by done. cbn [mbind option_bind].
  rewrite run_lines_app, run_lines_inside_code_block by done.
  cbn [mbind option_bind run_lines]. rewrite step_close_fence by done. done.
Qed.

Lemma fenced_region_one_code_block_witness :
  run_lines ([js "```js"] ++ [js "code()"; js "**b**"] ++ [js "```"]) initial
  = Some {| content := [CodeBlock (Some (js "js"))
                          [Text (js "code()" ++ newline ++ js "**b**") None]];
            inCodeBlock := false; codeBlockLines := []; codeLanguage := [] |}.
Proof.
  apply (proj1 fenced_region_one_code_block initial (js "```js") (js "```")
           [js "code()"; js "**b**"]).
  - reflexivity.
  - reflexivity.
  - repeat constructor.
  - reflexivity.
Defined.

(** ** Heading and bullet lines *)

Lemma trim_cons_nonspace c l :
  JS.is_space c = false → ∃ t, JS.trim (c :: l) = c :: t.
Proof.
  intros Hc. unfold JS.trim. simpl. rewrite Hc. simpl.
  destruct (JS.trimEnd l); rewrite ?Hc; eauto.
Qed.

Lemma string_match_Some re text m :
  string_match re text = Some m →
  ∃ n w s' caps,
    drop n text = w ++ s' ∧ index m = n ∧
    Matches (pattern re) n w s' (replicate (S (ngroups re)) None) caps ∧
    groups m = <[0 := Some w]> caps.
Proof.
  unfold string_match. destruct (search re 0 text) as [[m' e]|] eqn:Hs; [|done].
  intros [= ->].
  apply search_sound in Hs as (n & w & s' & caps & ? & ? & ? & ? & ? & ?).
  exists n, w, s', caps. done.
Qed.

(** What the heading pattern accepts, and what it captures. *)
Lemma heading_match_shape line m :
  string_match heading_regex line = Some m →
  ∃ k ws body,
    line = replicate k (ch "#") ++ ws ++ body ∧
    1 ≤ k ∧ k ≤ 6 ∧
    ws ≠ [] ∧ Forall (λ x, JS.is_space x = true) ws ∧
    body ≠ [] ∧ Forall (λ x, JS.is_line_terminator x = false) body ∧
    group m 1 = Some (replicate k (ch "#")) ∧ group m 2 = Some body.
Proof.
  intros (n & w & s' & caps & Hd & _ & HM & Hg)%string_match_Some.
  let r := eval vm_compute in (pattern heading_regex) in
  change (pattern heading_regex) with r in HM.
  change (ngroups heading_regex) with 2 in HM.
  inv_Matches.
  simpl in H2, Hd. subst s'. rewrite !(right_id_L [] (++)) in Hd.
  assert (Hw0 : w0 = replicate (length w0) (ch "#")).
  { clear -H3. induction H3 as [|c w0 Hc _ IH]; [done|]. simpl in *.
    apply bool_decide_eq_true, list_elem_of_singleton in Hc as ->.
    by rewrite <- IH. }
  exists (length w0), w2, w3. rewrite <- Hw0.
  split_and!.
  - exact Hd.
  - done.
  - by apply (H19 6).
  - destruct w2; simpl in *; [lia|done].
  - done.
  - destruct w3; simpl in *; [lia|done].
  - eapply Forall_impl; [exact H6|]. intros x Hx. simpl in Hx.
    by apply negb_true_iff in Hx.
  - unfold group. by rewrite Hg.
  - unfold group. by rewrite Hg.
Qed.

(** A line the heading pattern matches starts with a number sign. *)
Lemma heading_match_starts_with_hash line m :
  string_match heading_regex line = Some m → ∃ l, line = ch "#" :: l.
Proof.
  intros (k & ws & body & -> & Hk & _)%heading_match_shape.
  destruct k; [lia|]. simpl. eauto.
Qed.

Lemma bullet_line_not_heading line :
  is_bullet_line line = true → string_match heading_regex line = None.
Proof.
  unfold is_bullet_line. intros Hb.
  destruct (string_match heading_regex line) as [m|] eqn:Hm; [|done].
  apply heading_match_starts_with_hash in Hm as [l ->].
  destruct (trim_cons_nonspace (ch "#") l eq_refl) as [t Ht].
  rewrite Ht in Hb. destruct t; [discriminate Hb|].
  apply andb_true_iff in Hb as [Hb _]. by vm_compute in Hb.
Qed.

Lemma bullet_line_not_fence line :
  is_bullet_line line = true → is_fence_line line = false.
Proof.
  unfold is_bullet_line, is_fence_line.
  destruct (JS.trim line) as [|c [|w t]]; [discriminate..|].
  intros [Hc _]%andb_true_iff.
  unfold fence. norm_literals. cbn [JS.startsWith].
  destruct (N.eqb_spec c 96) as [->|]; [|done]. by vm_compute in Hc.
Qed.

Lemma rep_match_zero {A} p pos s (k : nat → jsstring → option A) :
  rep_match p 0 (Some 0) pos s k = k pos s.
Proof. destruct s; simpl; by rewrite ?andb_false_r. Qed.

Lemma rep_match_one {A} p pos c s (k : nat → jsstring → option A) :
  p c = true → rep_match p 1 (Some 1) pos (c :: s) k = k (S pos) s.
Proof.
  intros Hp. simpl. rewrite Hp. simpl. rewrite rep_match_zero.
  by destruct (k (S pos) s).
Qed.

Lemma bullet_line_matches line :
  is_bullet_line line = true → is_Some (string_match bullet_regex (JS.trim line)).
Proof.
  unfold is_bullet_line.
  destruct (JS.trim line) as [|c [|w t]]; [discriminate..|].
  intros [Hc Hw]%andb_true_iff.
  unfold string_match. erewrite search_here; [done|].
  unfold match_at.
  cbn [pattern ngroups bullet_regex rseq foldr ROne rmatch Nat.eqb].
  rewrite rep_match_one by done. rewrite rep_match_one by done. reflexivity.
Qed.

Lemma step_bullet st line :
  inCodeBlock st = false → is_bullet_line line = true →
  ∃ inline,
    parseInlineFormatting (drop 2 (JS.trim line)) = Some inline ∧
    step st line
    = Some (with_content st (push_bullet (content st) (list_item inline))).
Proof.
  intros Hst Hb.
  destruct (parseInlineFormatting_total (drop 2 (JS.trim line))) as [inline Hin].
  exists inline. split; [done|]. unfold step.
  pose proof (bullet_line_not_fence _ Hb) as Hf. unfold is_fence_line in Hf.
  rewrite Hf, Hst, (bullet_line_not_heading _ Hb).
  rewrite bool_decide_eq_false_2
    by (unfold is_bullet_line in Hb; by intros Ht; rewrite Ht in Hb).
  destruct (bullet_line_matches _ Hb) as [m ->].
  unfold JS.substring_from. by rewrite Hin.
Qed.

Lemma push_bullet_onto_list blocks items item :
  push_bullet (blocks ++ [BulletList items]) item
  = blocks ++ [BulletList (items ++ [item])].
Proof.
  unfold push_bullet. rewrite last_snoc, length_app. simpl.
  by rewrite Nat.add_sub, take_app_length.
Qed.

Lemma push_bullet_new_list content item :
  (∀ blocks items, content ≠ blocks ++ [BulletList items]) →
  push_bullet content item = content ++ [BulletList [item]].
Proof.
  intros Hlast. unfold push_bullet.
  destruct (last content) as [block|] eqn:Hl; [|done].
  apply last_Some in Hl as [blocks ->].
  destruct block; try done. by destruct (Hlast blocks content0).
Qed.

(** C5. A bullet item line met outside a code block has its two-unit marker
    prefix dropped and the remainder tokenized; the item is appended to the
    last emitted block when that block is a bullet list, otherwise it starts
    a new bullet list of one item. Two bullet lines in a row give one list
    of two items in order, and bullet lines separated by a paragraph give two
    lists. *)
Theorem bullet_item_appended_or_new_list :
  (∀ (st : State) (line : jsstring),
     inCodeBlock st = false →
     is_bullet_line line = true →
     ∃ inline st',
       parseInlineFormatting (drop 2 (JS.trim line)) = Some inline ∧
       step st line = Some st' ∧
       inCodeBlock st' = false ∧
       (∀ blocks items,
          content st = blocks ++ [BulletList items] →
          content st' = blocks ++ [BulletList (items ++ [ListItem [Paragraph inline]])]) ∧
       ((∀ blocks items, content st ≠ blocks ++ [BulletList items]) →
        content st' = content st ++ [BulletList [ListItem [Paragraph inline]]])) ∧
  textToADF (js "- a" ++ newline ++ js "- b")
  = Some {| version := 1;
            doc_content :=
              [BulletList [ListItem [Paragraph [Text (js "a") None]];
                           ListItem [Paragraph [Text (js "b") None]]]] |} ∧
  textToADF (js "- a" ++ newline ++ js "x" ++ newline ++ js "- b")
  = Some {| version := 1;
            doc_content :=
              [BulletList [ListItem [Paragraph [Text (js "a") None]]];
               Paragraph [Text (js "x") None];
               BulletList [ListItem [Paragraph [Text (js "b") None]]]] |}.
Proof.
  split_and!; [|reflexivity..].
  intros st line Hst Hb.
  destruct (step_bullet st line Hst Hb) as (inline & Hin & Hstep).
  eexists inline, _. split_and!; [done|exact Hstep|done|..]; simpl.
  - intros blocks items ->. apply push_bullet_onto_list.
  - apply push_bullet_new_list.
Qed.

Lemma bullet_item_appended_or_new_list_witness :
  ∃ st',
    step (with_content initial [BulletList [ListItem [Paragraph [Text (js "a") None]]]])
         (js "- b") = Some st' ∧
    content st' = [BulletList [ListItem [Paragraph [Text (js "a") None]];
                               ListItem [Paragraph [Text (js "b") None]]]].
Proof.
  destruct (proj1 bullet_item_appended_or_new_list
              (with_content initial [BulletList [ListItem [Paragraph [Text (js "a") None]]]])
              (js "- b") eq_refl eq_refl)
    as (inline & st' & Hin & Hstep & _ & Happend & _).
  exists st'. split; [exact Hstep|].
  vm_compute in Hin. injection Hin as <-.
  exact (Happend [] [ListItem [Paragraph [Text (js "a") None]]] eq_refl).
Defined.

Lemma rep_match_greedy_end {A} p min max pos w (k : nat → jsstring → option A) a :
  Forall (λ c, p c = true) w →
  min ≤ length w →
  (∀ m, max = Some m → length w ≤ m) →
  k (pos + length w) [] = Some a →
  rep_match p min max pos w k = Some a.
Proof.
  intros. rewrite <- (right_id_L [] (++) w). by apply rep_match_greedy.
Qed.

Lemma match_at_heading k ws c content :
  1 ≤ k → k ≤ 6 →
  ws ≠ [] → Forall (λ x, JS.is_space x = true) ws →
  JS.is_space c = false →
  Forall (λ x, JS.is_line_terminator x = false) (c :: content) →
  match_at heading_regex 0 (replicate k (ch "#") ++ ws ++ c :: content)
  = Some ({| index := 0;
             groups := [Some (replicate k (ch "#") ++ ws ++ c :: content);
                        Some (replicate k (ch "#"));
                        Some (c :: content)] |},
          length (replicate k (ch "#") ++ ws ++ c :: content)).
Proof.
  intros Hk1 Hk6 Hws Hsp Hc Hcontent. unfold match_at.
  cbn [pattern ngroups heading_regex rseq foldr RPlus rmatch Nat.eqb].
  eapply rep_match_greedy.
  { apply Forall_replicate. reflexivity. }
  { destruct ws as [|w ws']; [done|]. intros x s' [= <- <-].
    apply Forall_cons in Hsp as [Hw _]. simpl.
    apply bool_decide_eq_false. intros ->%list_elem_of_singleton. done. }
  { rewrite length_replicate. lia. }
  { intros m [= <-]. rewrite length_replicate. lia. }
  eapply rep_match_greedy.
  { exact Hsp. }
  { intros x s' [= <- <-]. exact Hc. }
  { destruct ws; [done|simpl; lia]. }
  { done. }
  eapply rep_match_greedy_end.
  { eapply Forall_impl; [exact Hcontent|]. intros x Hx. simpl. by rewrite Hx. }
  { simpl. lia. }
  { done. }
  rewrite (take_ge (replicate k (ch "#") ++ ws ++ c :: content))
    by (rewrite !length_app; lia).
  rewrite (take_ge (c :: content)) by lia.
  rewrite (take_prefix _ (replicate k (ch "#")) _ (ws ++ c :: content)) by (done || lia).
  cbn [insert list_insert replicate]. do 2 f_equal. rewrite !length_app. lia.
Qed.

Lemma step_heading st k ws c tl :
  inCodeBlock st = false →
  1 ≤ k → k ≤ 6 →
  ws ≠ [] → Forall (λ x, JS.is_space x = true) ws →
  JS.is_space c = false →
  Forall (λ x, JS.is_line_terminator x = false) (c :: tl) →
  ∃ inline,
    parseInlineFormatting (c :: tl) = Some inline ∧
    step st (replicate k (ch "#") ++ ws ++ c :: tl)
    = Some (with_content st (content st ++ [Heading k inline])).
Proof.
  intros Hst Hk1 Hk6 Hws Hsp Hc Htl.
  destruct (parseInlineFormatting_total (c :: tl)) as [inline Hin].
  exists inline. split; [done|]. unfold step.
  pose proof (match_at_heading k ws c tl Hk1 Hk6 Hws Hsp Hc Htl) as Hat.
  apply search_here in Hat. unfold string_match. rewrite Hat. clear Hat.
  destruct k as [|k]; [lia|]. cbn [replicate app].
  destruct (trim_cons_nonspace (ch "#") (replicate k (ch "#") ++ ws ++ c :: tl) eq_refl)
    as [t ->].
  change (JS.startsWith (ch "#" :: t) fence) with false. cbn iota.
  rewrite Hst. rewrite bool_decide_eq_false_2 by done.
  cbn [fmap option_fmap option_map fst group groups lookup list_lookup mjoin
       option_join default id].
  rewrite Hin. cbn [mbind option_bind length]. by rewrite length_replicate.
Qed.

(** The repetition gives its last unit back when what follows it needs
    one. *)
Lemma rep_match_give_back {A} p min pos w c (k : nat → jsstring → option A) a :
  Forall (λ x, p x = true) w → p c = true →
  min ≤ length w →
  k (pos + length w + 1) [] = None →
  k (pos + length w) [c] = Some a →
  rep_match p min None pos (w ++ [c]) k = Some a.
Proof.
  intros Hw Hc. revert min pos.
  induction Hw as [|x w Hx Hw IH]; intros min pos Hmin Hend Hk; simpl in *.
  - assert (min = 0) as -> by lia. rewrite Nat.add_0_r in *.
    rewrite Hc. simpl. by rewrite Nat.add_1_r in Hend; rewrite Hend.
  - rewrite Hx. simpl.
    rewrite (IH (pred min) (S pos)); [done|lia|..].
    + by rewrite <- Hend; f_equal; lia.
    + by rewrite <- Hk; f_equal; lia.
Qed.

Lemma match_at_heading_blank k ws c :
  1 ≤ k → k ≤ 6 →
  ws ≠ [] → Forall (λ x, JS.is_space x = true) ws →
  JS.is_space c = true → JS.is_line_terminator c = false →
  match_at heading_regex 0 (replicate k (ch "#") ++ ws ++ [c])
  = Some ({| index := 0;
             groups := [Some (replicate k (ch "#") ++ ws ++ [c]);
                        Some (replicate k (ch "#"));
                        Some [c]] |},
          length (replicate k (ch "#") ++ ws ++ [c])).
Proof.
  intros Hk1 Hk6 Hws Hsp Hc Hterm. unfold match_at.
  cbn [pattern ngroups heading_regex rseq foldr RPlus rmatch Nat.eqb].
  eapply rep_match_greedy.
  { apply Forall_replicate. reflexivity. }
  { destruct ws as [|w ws']; [done|]. intros x s' [= <- <-].
    apply Forall_cons in Hsp as [Hw _]. simpl.
    apply bool_decide_eq_false. intros ->%list_elem_of_singleton. done. }
  { rewrite length_replicate. lia. }
  { intros m [= <-]. rewrite length_replicate. lia. }
  eapply rep_match_give_back.
  { exact Hsp. }
  { exact Hc. }
  { destruct ws; [done|simpl; lia]. }
  { done. }
  eapply (rep_match_greedy_end _ _ _ _ [c]).
  { apply Forall_singleton. simpl. by rewrite Hterm. }
  { simpl. lia. }
  { done. }
  rewrite (take_ge (replicate k (ch "#") ++ ws ++ [c]))
    by (rewrite !length_app; simpl; lia).
  rewrite (take_ge [c]) by (simpl; lia).
  rewrite (take_prefix _ (replicate k (ch "#")) _ (ws ++ [c])) by (done || lia).
  cbn [insert list_insert replicate]. do 2 f_equal. rewrite !length_app. simpl. lia.
Qed.

Lemma step_heading_blank st k ws c :
  inCodeBlock st = false →
  1 ≤ k → k ≤ 6 →
  ws ≠ [] → Forall (λ x, JS.is_space x = true) ws →
  JS.is_space c = true → JS.is_line_terminator c = false →
  ∃ inline,
    parseInlineFormatting [c] = Some inline ∧
    step st (replicate k (ch "#") ++ ws ++ [c])
    = Some (with_content st (content st ++ [Heading k inline])).
Proof.
  intros Hst Hk1 Hk6 Hws Hsp Hc Hterm.
  destruct (parseInlineFormatting_total [c]) as [inline Hin].
  exists inline. split; [done|]. unfold step.
  pose proof (match_at_heading_blank k ws c Hk1 Hk6 Hws Hsp Hc Hterm) as Hat.
  apply search_here in Hat. unfold string_match. rewrite Hat. clear Hat.
  destruct k as [|k]; [lia|]. cbn [replicate app].
  destruct (trim_cons_nonspace (ch "#") (replicate k (ch "#") ++ ws ++ [c]) eq_refl)
    as [t ->].
  change (JS.startsWith (ch "#" :: t) fence) with false. cbn iota.
  rewrite Hst. rewrite bool_decide_eq_false_2 by done.
  cbn [fmap option_fmap option_map fst group groups lookup list_lookup mjoin
       option_join default id].
  rewrite Hin. cbn [mbind option_bind length]. by rewrite length_replicate.
Qed.

(** The heading pattern accepts no line that ends with a line terminator. *)
Lemma heading_match_terminated line t :
  JS.is_line_terminator t = true →
  string_match heading_regex (line ++ [t]) = None.
Proof.
  intros Ht. destruct (string_match heading_regex (line ++ [t])) as [m|] eqn:Hm;
    [|done].
  apply heading_match_shape in Hm
    as (k & ws & body & Heq & _ & _ & _ & _ & Hbody & Hterm & _).
  destruct (exists_last Hbody) as (body' & t' & ->).
  rewrite !(assoc_L (++)) in Heq. apply app_inj_tail in Heq as [_ ->].
  rewrite Forall_app, Forall_singleton in Hterm. destruct Hterm as [_ Hterm].
  congruence.
Qed.

Lemma leading_space_split (l : jsstring) :
  ∃ sp rest,
    l = sp ++ rest ∧ Forall (λ x, JS.is_space x = true) sp ∧
    (rest = [] ∨ ∃ c tl, rest = c :: tl ∧ JS.is_space c = false).
Proof.
  induction l as [|x l (sp & rest & -> & Hsp & Hrest)].
  - exists [], []. split_and!; [done|constructor|by left].
  - destruct (JS.is_space x) eqn:Hx.
    + exists (x :: sp), rest. split_and!; [done|by constructor|done].
    + exists [], (x :: sp ++ rest). split_and!; [done|constructor|].
      right. by exists x, (sp ++ rest).
Qed.

(** The lines the heading pattern accepts are those of the two shapes. *)
Lemma heading_match_only line m :
  string_match heading_regex line = Some m →
  ∃ k ws c tl,
    line = replicate k (ch "#") ++ ws ++ c :: tl ∧
    1 ≤ k ∧ k ≤ 6 ∧
    ws ≠ [] ∧ Forall (λ x, JS.is_space x = true) ws ∧
    Forall (λ x, JS.is_line_terminator x = false) (c :: tl) ∧
    (JS.is_space c = false ∨ tl = []).
Proof.
  intros (k & ws & body & -> & Hk1 & Hk6 & Hws & Hsp & Hbody & Hterm & _)
    %heading_match_shape.
  destruct (leading_space_split body) as (sp & rest & -> & Hsp' & Hrest).
  destruct Hrest as [->|(c & tl & -> & Hc)].
  - rewrite (right_id_L [] (++)) in *.
    destruct (exists_last Hbody) as (sp' & c & ->).
    exists k, (ws ++ sp'), c, []. rewrite <- (assoc_L (++)).
    apply Forall_app in Hsp' as [Hsp' _]. apply Forall_app in Hterm as [_ Hterm].
    split_and!; [done|done|done| |by apply Forall_app|done|by right].
    by destruct ws.
  - exists k, (ws ++ sp), c, tl. rewrite <- (assoc_L (++)).
    apply Forall_app in Hterm as [_ Hterm].
    split_and!; [done|done|done| |by apply Forall_app|done|by left].
    by destruct ws.
Qed.

Lemma step_blank st line :
  inCodeBlock st = false → JS.trim line = [] → step st line = Some st.
Proof.
  intros Hst Ht. unfold step. rewrite Ht, Hst. done.
Qed.




(** ** Lines without markup *)

Lemma inline_match_opener pos w s caps :
  Matches (pattern inline_regex) pos w s (replicate 10 None) caps →
  ∃ c w', w = c :: w' ∧ c ∈ inline_openers.
Proof.
  intros (f & inner & -> & _ & _)%inline_match_shape.
  destruct f; simpl; eexists _, _; (split; [reflexivity|]);
    unfold inline_openers; repeat constructor.
Qed.

Lemma search_inline_None (text : jsstring) (pos : nat) :
  Forall (λ c, c ∉ inline_openers) text → search inline_regex pos text = None.
Proof.
  intros Hfree. destruct (search inline_regex pos text) as [[m e]|] eqn:Hs; [|done].
  apply search_sound in Hs as (n & w & s' & caps & Hd & _ & _ & _ & HM & _).
  apply inline_match_opener in HM as (c & w' & -> & Hc).
  assert (Hin : c ∈ text).
  { apply (subseteq_drop n). rewrite Hd. constructor. }
  rewrite Forall_forall in Hfree. by destruct (Hfree c Hin).
Qed.

Lemma parse_unmatched (line : jsstring) :
  search inline_regex 0 line = None →
  parseInlineFormatting line = Some [Text line None].
Proof.
  intros Hs. unfold parseInlineFormatting. cbn [inline_loop].
  rewrite (exec_no_match _ Hs). simpl.
  unfold push_remaining, push_if_empty, JS.substring_from. simpl.
  by destruct line.
Qed.

(** A line that holds none of the five characters that open inline markup
    is returned as one run without marks, unchanged. *)
Theorem markup_free_line_unchanged (line : jsstring) :
  Forall (λ c, c ∉ inline_openers) line →
  parseInlineFormatting line = Some [Text line None].
Proof.
  intros Hfree. apply parse_unmatched. by apply search_inline_None.
Qed.

Lemma markup_free_line_unchanged_witness :
  parseInlineFormatting (js "3 > 2, (x) and a-b!")
  = Some [Text (js "3 > 2, (x) and a-b!") None].
Proof.
  apply (markup_free_line_unchanged (js "3 > 2, (x) and a-b!")).
  compute_done.
Defined.

(** ** What the tokenizer keeps of the line *)

Lemma stripped_sublist_source segs :
  concat (stripped_of <$> segs) `sublist_of` concat (source_of <$> segs).
Proof.
  induction segs as [|[s|f inner] segs IH]; simpl; [done|..].
  - by apply sublist_app.
  - rewrite <- !(assoc_L (++)). apply sublist_inserts_l.
    apply sublist_app; [done|]. by apply sublist_inserts_l.
Qed.

(** The re-joined text of the runs of a line is a subsequence of the line:
    the tokenizer drops delimiters and link targets, and neither adds,
    repeats nor reorders a code unit. *)
Theorem runs_text_subsequence_of_line (line : jsstring) :
  ∃ runs,
    parseInlineFormatting line = Some runs ∧
    plain_text runs `sublist_of` line ∧
    length (plain_text runs) ≤ length line.
Proof.
  destruct (parseInlineFormatting_segments line) as (segs & Hruns & Hsrc & _).
  exists (run_of <$> segs). rewrite plain_text_run_of.
  pose proof (stripped_sublist_source segs) as Hsub. rewrite Hsrc in Hsub.
  split_and!; [done|done|by apply sublist_length].
Qed.

Lemma push_plain_before_valid text currentPos m result :
  Forall valid_run result →
  Forall valid_run (push_plain_before text currentPos m result).
Proof.
  intros Hres. unfold push_plain_before. case_match; [|done].
  destruct (JS.substring _ _ _) eqn:Hsub; simpl; [done|].
  apply Forall_app. split; [done|]. by repeat constructor.
Qed.

Lemma recognized_valid_run f inner :
  recognized f inner → valid_run (run_of (Marked f inner)).
Proof.
  destruct f; simpl; intros H; try (left; apply H); by right.
Qed.

Lemma inline_loop_valid fuel text lastIndex currentPos result result' currentPos' :
  inline_loop fuel text lastIndex currentPos result = Some (result', currentPos') →
  Forall valid_run result → Forall valid_run result'.
Proof.
  revert lastIndex currentPos result.
  induction fuel as [|fuel IH]; intros lastIndex currentPos result; simpl; [done|].
  destruct (exec inline_regex lastIndex text) as [[m|] e] eqn:Hexec.
  - intros Hloop Hres. apply IH in Hloop; [done|].
    apply exec_sound in Hexec as (w & caps & _ & _ & _ & _ & HM & Hg).
    apply inline_match_shape in HM as (f & inner & _ & Hrec & Hpush).
    destruct m as [i gs]. simpl in Hg. subst gs. rewrite Hpush.
    apply Forall_app. split; [by apply push_plain_before_valid|].
    apply Forall_singleton. by apply recognized_valid_run.
  - by intros [= <- <-].
Qed.

(** The runs of a line that is not empty. *)
Lemma parse_valid_inline text :
  text ≠ [] →
  ∃ runs, parseInlineFormatting text = Some runs ∧ valid_inline runs.
Proof.
  intros Htext. destruct (parseInlineFormatting_total text) as [runs Hruns].
  exists runs. split; [done|].
  unfold parseInlineFormatting in Hruns.
  destruct (inline_loop _ _ _ _ _) as [[result cp]|] eqn:Hloop; [|done].
  simpl in Hruns. injection Hruns as <-.
  apply inline_loop_valid in Hloop; [|done].
  assert (Hrem : Forall valid_run (push_remaining text cp result)).
  { unfold push_remaining. case_match; [|done].
    destruct (JS.substring_from _ _) eqn:Hsub; simpl; [done|].
    apply Forall_app. split; [done|]. by repeat constructor. }
  unfold push_if_empty, valid_inline.
  destruct (push_remaining text cp result) as [|r rs]; simpl.
  - split; [done|]. repeat constructor. by destruct text.
  - done.
Qed.

(** ** Trimmed lines *)

Lemma trimEnd_last_nonspace s l x :
  JS.trimEnd s = l ++ [x] → JS.is_space x = false.
Proof.
  revert l. induction s as [|c s IH]; intros l; simpl.
  - by destruct l.
  - destruct (JS.trimEnd s) as [|t ts] eqn:Ht.
    + destruct (JS.is_space c) eqn:Hc; [by destruct l|].
      destruct l as [|? [|? ?]]; [|done..]. by intros [= <-].
    + destruct l as [|y l]; [done|]. intros [= <- Hl]. by apply (IH l).
Qed.

Lemma trim_last_nonspace line l x :
  JS.trim line = l ++ [x] → JS.is_space x = false.
Proof. apply trimEnd_last_nonspace. Qed.

Lemma trimStart_sublist s : JS.trimStart s `sublist_of` s.
Proof.
  induction s as [|c s IH]; simpl; [done|].
  destruct (JS.is_space c); [by apply sublist_cons|done].
Qed.

Lemma trimEnd_sublist s : JS.trimEnd s `sublist_of` s.
Proof.
  induction s as [|c s IH]; simpl; [done|].
  destruct (JS.trimEnd s) as [|t ts].
  - destruct (JS.is_space c); [by apply sublist_cons|by apply sublist_skip].
  - by apply sublist_skip.
Qed.

Lemma trim_sublist line : JS.trim line `sublist_of` line.
Proof.
  unfold JS.trim. etrans; [apply trimEnd_sublist|apply trimStart_sublist].
Qed.

Lemma trim_nonempty_line line : JS.trim line ≠ [] → line ≠ [].
Proof. by intros H ->. Qed.

(** ** What the list patterns accept *)

Lemma search_shape re text m e :
  search re 0 text = Some (m, e) →
  ∃ w s' caps,
    drop (index m) text = w ++ s' ∧ e = index m + length w ∧
    Matches (pattern re) (index m) w s' (replicate (S (ngroups re)) None) caps.
Proof.
  intros (n & w & s' & caps & ? & ? & Hi & ? & HM & ?)%search_sound.
  simpl in *. subst n. by exists w, s', caps.
Qed.

Lemma bullet_match_shape text m e :
  search bullet_regex 0 text = Some (m, e) →
  ∃ c w rest,
    text = c :: w :: rest ∧ c ∈ [ch "-"; ch "*"; bullet_char] ∧
    JS.is_space w = true.
Proof.
  intros (w & s' & caps & Hd & _ & HM)%search_shape.
  let r := eval vm_compute in (pattern bullet_regex) in
  change (pattern bullet_regex) with r in HM.
  remember (index m) as i. inv_Matches.
  specialize (H12 1 eq_refl). specialize (H15 1 eq_refl).
  destruct w0 as [|c [|? ?]]; simpl in *; try lia.
  destruct w2 as [|w [|? ?]]; simpl in *; try lia.
  rewrite Forall_singleton in H4, H5. simpl in H4, H5.
  apply bool_decide_eq_true in H4.
  rewrite <- H in Hd. exists c, w, s'. done.
Qed.

Lemma ordered_match_shape text m e :
  search ordered_regex 0 text = Some (m, e) →
  ∃ digits w rest,
    text = digits ++ ch "." :: w :: rest ∧ index m = 0 ∧ e = length digits + 2 ∧
    digits ≠ [] ∧ Forall (λ d, JS.is_digit d = true) digits ∧
    JS.is_space w = true.
Proof.
  intros (w & s' & caps & Hd & He & HM)%search_shape.
  let r := eval vm_compute in (pattern ordered_regex) in
  change (pattern ordered_regex) with r in HM.
  remember (index m) as i. inv_Matches.
  specialize (H16 1 eq_refl).
  destruct w3 as [|w [|? ?]]; simpl in *; try lia.
  rewrite Forall_singleton in H6. rewrite <- H in Hd.
  change (drop 0 text) with text in Hd. exists w0, w, s'.
  split_and!; try done.
  - by rewrite Hd, <- (assoc_L (++)).
  - rewrite !length_app. simpl. lia.
  - destruct w0; simpl in *; [lia|done].
Qed.

Lemma match_at_ordered digits w rest :
  digits ≠ [] → Forall (λ d, JS.is_digit d = true) digits →
  JS.is_space w = true →
  ∃ m, match_at ordered_regex 0 (digits ++ ch "." :: w :: rest)
       = Some (m, length digits + 2) ∧ index m = 0.
Proof.
  intros Hne Hd Hw. unfold match_at. eexists. split; [|shelve].
  cbn [pattern ngroups ordered_regex rseq foldr RPlus ROne RStr rmatch Nat.eqb].
  change (js ".") with [ch "."]. cbn [foldr rmatch].
  eapply rep_match_greedy.
  { exact Hd. }
  { by intros c s' [= <- <-]. }
  { destruct digits; [done|simpl; lia]. }
  { done. }
  cbn [RStr foldr rmatch]. rewrite N.eqb_refl. rewrite rep_match_one by done.
  f_equal. f_equal. lia.
  Unshelve. reflexivity.
Qed.

(** ** Ordered items *)

Lemma digit_not_special d :
  JS.is_digit d = true →
  d ≠ ch "`" ∧ d ≠ ch "#" ∧ d ∉ [ch "-"; ch "*"; bullet_char].
Proof.
  unfold JS.is_digit. intros [H1 H2]%andb_true_iff.
  apply N.leb_le in H1, H2.
  split_and!; [intros ->; vm_compute in H2; done..|].
  intros Hin. repeat (apply elem_of_cons in Hin as [->|Hin]);
    [vm_compute in H1 || vm_compute in H2; done..|].
  by apply elem_of_nil in Hin.
Qed.

Lemma step_ordered st line digits w rest :
  inCodeBlock st = false →
  JS.trim line = digits ++ ch "." :: w :: rest →
  digits ≠ [] → Forall (λ d, JS.is_digit d = true) digits →
  JS.is_space w = true →
  ∃ inline,
    parseInlineFormatting rest = Some inline ∧
    step st line
    = Some (with_content st (push_ordered (content st) (list_item inline))).
Proof.
  intros Hst Ht Hne Hd Hw.
  destruct (parseInlineFormatting_total rest) as [inline Hin].
  exists inline. split; [done|]. unfold step. rewrite Ht, Hst.
  destruct digits as [|d ds]; [done|].
  apply Forall_cons in Hd as [Hd0 Hds].
  destruct (digit_not_special d Hd0) as (Hfence & Hhash & Hbullet).
  assert (JS.startsWith ((d :: ds) ++ ch "." :: w :: rest) fence = false) as ->.
  { unfold fence. norm_literals. cbn [app JS.startsWith].
    by destruct (N.eqb_spec d 96). }
  cbn [negb]. rewrite bool_decide_eq_false_2 by done.
  assert (string_match heading_regex line = None) as ->.
  { destruct (string_match heading_regex line) as [m|] eqn:Hm; [|done].
    apply heading_match_starts_with_hash in Hm as [l ->].
    destruct (trim_cons_nonspace (ch "#") l eq_refl) as [t Ht'].
    rewrite Ht' in Ht. by injection Ht as <-. }
  assert (string_match bullet_regex ((d :: ds) ++ ch "." :: w :: rest) = None) as ->.
  { unfold string_match.
    destruct (search bullet_regex 0 _) as [[m e]|] eqn:Hm; [|done].
    apply bullet_match_shape in Hm as (c & w' & rest' & [= <- _] & Hc & _). done. }
  destruct (match_at_ordered (d :: ds) w rest) as (m & Hat & Hi);
    [done|by constructor|done|].
  apply search_here in Hat. unfold string_match, replace_empty. rewrite Hat.
  cbn [fmap option_fmap option_map fst]. rewrite Hi. cbn [take].
  replace (length (d :: ds) + 2) with (length ((d :: ds) ++ [ch "."; w]))
    by (rewrite length_app; simpl; lia).
  replace ((d :: ds) ++ ch "." :: w :: rest) with (((d :: ds) ++ [ch "."; w]) ++ rest)
    by (by rewrite <- (assoc_L (++))).
  rewrite drop_app_length. change (take 0 ?l) with (@nil N).
  cbn [app]. by rewrite Hin.
Qed.

Lemma push_ordered_onto_list blocks items item :
  push_ordered (blocks ++ [OrderedList items]) item
  = blocks ++ [OrderedList (items ++ [item])].
Proof.
  unfold push_ordered. rewrite last_snoc, length_app. simpl.
  by rewrite Nat.add_sub, take_app_length.
Qed.

Lemma push_ordered_new_list content item :
  (∀ blocks items, content ≠ blocks ++ [OrderedList items]) →
  push_ordered content item = content ++ [OrderedList [item]].
Proof.
  intros Hlast. unfold push_ordered.
  destruct (last content) as [block|] eqn:Hl; [|done].
  apply last_Some in Hl as [blocks ->].
  destruct block; try done. by destruct (Hlast blocks content0).
Qed.

(** An ordered item line met outside a code block (trimmed: digits, a
    period, one white-space unit, the remainder) has its marker dropped, the
    number included, and the remainder tokenized; the item is appended to
    the last emitted block when that block is an ordered list, otherwise it
    starts a new ordered list of one item. *)
Theorem ordered_item_appended_or_new_list
    (st : State) (line digits : jsstring) (w : N) (rest : jsstring) :
  inCodeBlock st = false →
  JS.trim line = digits ++ ch "." :: w :: rest →
  digits ≠ [] → Forall (λ d, JS.is_digit d = true) digits →
  JS.is_space w = true →
  ∃ inline st',
    parseInlineFormatting rest = Some inline ∧
    step st line = Some st' ∧
    inCodeBlock st' = false ∧
    (∀ blocks items,
       content st = blocks ++ [OrderedList items] →
       content st' = blocks ++ [OrderedList (items ++ [ListItem [Paragraph inline]])]) ∧
    ((∀ blocks items, content st ≠ blocks ++ [OrderedList items]) →
     content st' = content st ++ [OrderedList [ListItem [Paragraph inline]]]).
Proof.
  intros Hst Ht Hne Hd Hw.
  destruct (step_ordered st line digits w rest Hst Ht Hne Hd Hw)
    as (inline & Hin & Hstep).
  eexists inline, _. split_and!; [done|exact Hstep|done|..]; simpl.
  - intros blocks items ->. apply push_ordered_onto_list.
  - apply push_ordered_new_list.
Qed.

Lemma ordered_item_appended_or_new_list_witness :
  ∃ st',
    step (with_content initial [OrderedList [ListItem [Paragraph [Text (js "a") None]]]])
         (js "  12. b") = Some st' ∧
    content st' = [OrderedList [ListItem [Paragraph [Text (js "a") None]];
                                ListItem [Paragraph [Text (js "b") None]]]].
Proof.
  destruct (ordered_item_appended_or_new_list
              (with_content initial [OrderedList [ListItem [Paragraph [Text (js "a") None]]]])
              (js "  12. b") (js "12") (ch " ") (js "b")
              eq_refl eq_refl ltac:(discriminate) ltac:(by repeat constructor) eq_refl)
    as (inline & st' & Hin & Hstep & _ & Happend & _).
  exists st'. split; [exact Hstep|].
  vm_compute in Hin. injection Hin as <-.
  exact (Happend [] [ListItem [Paragraph [Text (js "a") None]]] eq_refl).
Defined.

(** ** The transitions of the line loop *)

Lemma step_transition st line st' :
  step st line = Some st' → transition st st'.
Proof.
  unfold step.
  destruct (JS.startsWith (JS.trim line) fence).
  { destruct (inCodeBlock st) eqn:Hst; simpl; intros [= <-]; by constructor. }
  destruct (inCodeBlock st) eqn:Hst.
  { intros [= <-]. pose proof (T_buffer st line Hst) as HT. by rewrite Hst in HT. }
  case_bool_decide as Hblank.
  { intros [= <-]. by constructor. }
  destruct (string_match heading_regex line) as [m|] eqn:Hm.
  { apply heading_match_shape in Hm
      as (k & ws & body & _ & Hk1 & Hk6 & _ & _ & Hbody & _ & -> & ->).
    simpl. destruct (parse_valid_inline body Hbody) as (runs & -> & Hruns).
    simpl. rewrite length_replicate. intros [= <-]. by constructor. }
  unfold string_match.
  destruct (search bullet_regex 0 (JS.trim line)) as [[m e]|] eqn:Hb; simpl.
  { apply bullet_match_shape in Hb as (c & w & rest & Ht & _ & Hw).
    rewrite Ht. unfold JS.substring_from. simpl.
    assert (Hrest : rest ≠ []).
    { intros ->. apply (trim_last_nonspace line [c] w) in Ht. congruence. }
    destruct (parse_valid_inline rest Hrest) as (runs & -> & Hruns).
    simpl. intros [= <-]. by constructor. }
  destruct (search ordered_regex 0 (JS.trim line)) as [[m e]|] eqn:Ho; simpl.
  { unfold replace_empty. rewrite Ho.
    apply ordered_match_shape in Ho
      as (digits & w & rest & Ht & -> & -> & _ & _ & Hw).
    assert (Hrest : rest ≠ []).
    { intros ->. rewrite (trim_last_nonspace line (digits ++ [ch "."]) w) in Hw; [done|].
      by rewrite Ht, <- (assoc_L (++)). }
    rewrite Ht.
    replace (length digits + 2) with (length (digits ++ [ch "."; w]))
      by (rewrite length_app; simpl; lia).
    replace (digits ++ ch "." :: w :: rest) with ((digits ++ [ch "."; w]) ++ rest)
      by (by rewrite <- (assoc_L (++))).
    rewrite drop_app_length. change (take 0 ?l) with (@nil N). cbn [app].
    destruct (parse_valid_inline rest Hrest) as (runs & -> & Hruns).
    simpl. intros [= <-]. by constructor. }
  destruct (parse_valid_inline line (trim_nonempty_line _ Hblank)) as (runs & -> & Hruns).
  simpl. intros [= <-]. by constructor.
Qed.

Lemma run_lines_invariant (P : State → Prop) :
  (∀ st st', transition st st' → P st → P st') →
  ∀ lines st st', run_lines lines st = Some st' → P st → P st'.
Proof.
  intros Hstep lines. induction lines as [|line lines IH]; intros st st'; simpl.
  - by intros [= <-].
  - destruct (step st line) as [st1|] eqn:Hst1; [|done]. simpl.
    intros Hrun HP. apply (IH st1); [done|].
    apply (Hstep st); [by eapply step_transition|done].
Qed.

(** ** Well-formed documents *)

Lemma valid_code_block language lines : valid_block (code_block language lines).
Proof. by destruct language. Qed.

Lemma valid_list_item runs : valid_inline runs → valid_item (list_item runs).
Proof. done. Qed.

Lemma push_bullet_valid content runs :
  Forall valid_block content → valid_inline runs →
  Forall valid_block (push_bullet content (list_item runs)).
Proof.
  intros Hc Hruns. unfold push_bullet.
  destruct (last content) as [block|] eqn:Hl.
  - apply last_Some in Hl as [blocks ->].
    apply Forall_app in Hc as [Hblocks Hlast]. rewrite Forall_singleton in Hlast.
    assert (Hnew : valid_block (BulletList [list_item runs])).
    { split; [done|]. by apply Forall_singleton. }
    destruct block; try (apply Forall_app; split;
      [by apply Forall_app; rewrite Forall_singleton|by apply Forall_singleton]).
    rewrite length_app. simpl. rewrite Nat.add_sub, take_app_length.
    apply Forall_app. split; [done|]. apply Forall_singleton.
    destruct Hlast as [? Hitems]. split; [by destruct content0|].
    apply Forall_app. split; [done|]. by apply Forall_singleton.
  - apply Forall_app. split; [done|]. apply Forall_singleton.
    split; [done|]. by apply Forall_singleton.
Qed.

Lemma push_ordered_valid content runs :
  Forall valid_block content → valid_inline runs →
  Forall valid_block (push_ordered content (list_item runs)).
Proof.
  intros Hc Hruns. unfold push_ordered.
  destruct (last content) as [block|] eqn:Hl.
  - apply last_Some in Hl as [blocks ->].
    apply Forall_app in Hc as [Hblocks Hlast]. rewrite Forall_singleton in Hlast.
    assert (Hnew : valid_block (OrderedList [list_item runs])).
    { split; [done|]. by apply Forall_singleton. }
    destruct block; try (apply Forall_app; split;
      [by apply Forall_app; rewrite Forall_singleton|by apply Forall_singleton]).
    rewrite length_app. simpl. rewrite Nat.add_sub, take_app_length.
    apply Forall_app. split; [done|]. apply Forall_singleton.
    destruct Hlast as [? Hitems]. split; [by destruct content0|].
    apply Forall_app. split; [done|]. by apply Forall_singleton.
  - apply Forall_app. split; [done|]. apply Forall_singleton.
    split; [done|]. by apply Forall_singleton.
Qed.

Lemma transition_valid st st' :
  transition st st' →
  Forall valid_block (content st) → Forall valid_block (content st').
Proof.
  destruct 1; simpl; intros Hc; try done.
  - apply Forall_app. split; [done|]. apply Forall_singleton, valid_code_block.
  - apply Forall_app. split; [done|]. by apply Forall_singleton.
  - by apply push_bullet_valid.
  - by apply push_ordered_valid.
  - apply Forall_app. split; [done|]. apply Forall_singleton. by right.
Qed.

Lemma lists_merged_snoc blocks b :
  lists_merged blocks →
  (∀ b', last blocks = Some b' →
         ¬ (is_bullet_list b' = true ∧ is_bullet_list b = true) ∧
         ¬ (is_ordered_list b' = true ∧ is_ordered_list b = true)) →
  lists_merged (blocks ++ [b]).
Proof.
  induction blocks as [|b1 [|b2 blocks] IH]; intros Hm Hlast; [done|..].
  - simpl. destruct (Hlast b1 eq_refl). done.
  - destruct Hm as (? & ? & Hm). split_and!; [done..|].
    apply IH; [done|]. intros b' Hb'. by apply Hlast.
Qed.

Lemma lists_merged_replace_last blocks b b' :
  lists_merged (blocks ++ [b]) →
  is_bullet_list b' = is_bullet_list b →
  is_ordered_list b' = is_ordered_list b →
  lists_merged (blocks ++ [b']).
Proof.
  intros Hm Hb Ho. induction blocks as [|b1 [|b2 blocks] IH]; [done|..].
  - simpl in *. by rewrite Hb, Ho.
  - destruct Hm as (? & ? & Hm). split_and!; [done..|]. by apply IH.
Qed.

Lemma push_bullet_merged content item :
  lists_merged content → lists_merged (push_bullet content item).
Proof.
  intros Hm. unfold push_bullet.
  destruct (last content) as [block|] eqn:Hl.
  - pose proof Hl as [blocks ->]%last_Some.
    destruct block; try (apply lists_merged_snoc; [done|];
      intros b'; rewrite Hl; intros [= <-]; by split; intros []).
    rewrite length_app. simpl. rewrite Nat.add_sub, take_app_length.
    by eapply lists_merged_replace_last.
  - apply lists_merged_snoc; [done|]. by intros b'; rewrite Hl.
Qed.

Lemma push_ordered_merged content item :
  lists_merged content → lists_merged (push_ordered content item).
Proof.
  intros Hm. unfold push_ordered.
  destruct (last content) as [block|] eqn:Hl.
  - pose proof Hl as [blocks ->]%last_Some.
    destruct block; try (apply lists_merged_snoc; [done|];
      intros b'; rewrite Hl; intros [= <-]; by split; intros []).
    rewrite length_app. simpl. rewrite Nat.add_sub, take_app_length.
    by eapply lists_merged_replace_last.
  - apply lists_merged_snoc; [done|]. by intros b'; rewrite Hl.
Qed.

Lemma transition_merged st st' :
  transition st st' → lists_merged (content st) → lists_merged (content st').
Proof.
  destruct 1; simpl; intros Hm; try done.
  1,2,5: apply lists_merged_snoc; [done|]; intros b' _; by split; intros [].
  - by apply push_bullet_merged.
  - by apply push_ordered_merged.
Qed.

(** Every Document the converter returns is well formed: each block is a
    paragraph, a heading of level 1 to 6 with inline content, a list that is
    not empty and whose items each hold one paragraph with inline content,
    or a code block holding one unmarked text and a language that is not
    the empty string; a run has at most one mark, and its text is empty only
    under the code mark. No two neighbouring blocks are lists of the same
    type. *)
Theorem document_well_formed (s : jsstring) :
  ∃ doc,
    textToADF s = Some doc ∧
    Forall valid_block (doc_content doc) ∧
    lists_merged (doc_content doc).
Proof.
  unfold textToADF.
  destruct (run_lines_total (JS.split LF s) initial) as [st Hst].
  rewrite Hst. simpl. eexists. split; [done|]. simpl.
  assert (Hv : Forall valid_block (content st)).
  { by apply (run_lines_invariant (λ st, Forall valid_block (content st))
                transition_valid _ _ _ Hst). }
  assert (Hm : lists_merged (content st)).
  { by apply (run_lines_invariant (λ st, lists_merged (content st))
                transition_merged _ _ _ Hst). }
  assert (Hfv : Forall valid_block (flush_unclosed st)).
  { unfold flush_unclosed. case_match; [|done].
    apply Forall_app. split; [done|]. apply Forall_singleton, valid_code_block. }
  assert (Hfm : lists_merged (flush_unclosed st)).
  { unfold flush_unclosed. case_match; [|done].
    apply lists_merged_snoc; [done|]. intros b' _. by split; intros []. }
  unfold or_empty_paragraph. case_match; [done|].
  split; [|done]. apply Forall_singleton. by left.
Qed.

(** ** Blocks and lines *)

Lemma push_bullet_length content item :
  length (push_bullet content item) ≤ length content + 1.
Proof.
  unfold push_bullet. repeat case_match;
    rewrite ?length_app, ?length_take; simpl; lia.
Qed.

Lemma push_ordered_length content item :
  length (push_ordered content item) ≤ length content + 1.
Proof.
  unfold push_ordered. repeat case_match;
    rewrite ?length_app, ?length_take; simpl; lia.
Qed.

Lemma transition_count st st' :
  transition st st' →
  length (content st') + (if inCodeBlock st' then 1 else 0)
  ≤ length (content st) + (if inCodeBlock st then 1 else 0) + 1.
Proof.
  destruct 1 as [| | | | | |? H|]; simpl;
    rewrite ?length_app; simpl;
    try pose proof (push_bullet_length (content st) (list_item runs));
    try pose proof (push_ordered_length (content st) (list_item runs));
    repeat match goal with H : inCodeBlock st = _ |- _ => rewrite H end; lia.
Qed.

Lemma run_lines_count lines st st' :
  run_lines lines st = Some st' →
  length (content st') + (if inCodeBlock st' then 1 else 0)
  ≤ length (content st) + (if inCodeBlock st then 1 else 0) + length lines.
Proof.
  revert st. induction lines as [|line lines IH]; intros st; simpl.
  - intros [= <-]. lia.
  - destruct (step st line) as [st1|] eqn:Hst1; [|done]. simpl.
    intros Hrun%IH. apply step_transition, transition_count in Hst1. lia.
Qed.

Lemma split_nonempty sep s : JS.split sep s ≠ [].
Proof. destruct s as [|c s]; simpl; [done|]. by repeat case_match. Qed.

(** The Document never holds more blocks than the input has lines. *)
Theorem blocks_at_most_lines (s : jsstring) :
  ∃ doc,
    textToADF s = Some doc ∧
    length (doc_content doc) ≤ length (JS.split LF s).
Proof.
  unfold textToADF.
  destruct (run_lines_total (JS.split LF s) initial) as [st Hst].
  rewrite Hst. simpl. eexists. split; [done|]. simpl.
  apply run_lines_count in Hst. simpl in Hst.
  pose proof (split_nonempty LF s) as Hne.
  destruct (JS.split LF s) as [|l ls]; [done|]. simpl in *.
  unfold or_empty_paragraph, flush_unclosed.
  destruct (inCodeBlock st); simpl;
    repeat case_match; rewrite ?length_app; simpl; lia.
Qed.

(** ** Splitting and joining lines *)

Lemma split_app_sep sep (a b : jsstring) :
  JS.split sep (a ++ sep :: b) = JS.split sep a ++ JS.split sep b.
Proof.
  induction a as [|c a IH]; simpl.
  - by rewrite N.eqb_refl.
  - destruct (c =? sep)%N; [by rewrite IH|]. rewrite IH.
    pose proof (split_nonempty sep a). by destruct (JS.split sep a).
Qed.

Lemma split_no_sep sep (a : jsstring) : sep ∉ a → JS.split sep a = [a].
Proof.
  induction a as [|c a IH]; simpl; [done|].
  intros [Hc Ha]%not_elem_of_cons. rewrite IH by done.
  by destruct (N.eqb_spec c sep).
Qed.

Lemma split_join sep (lines : list jsstring) :
  lines ≠ [] → Forall (λ l, sep ∉ l) lines →
  JS.split sep (JS.join [sep] lines) = lines.
Proof.
  intros Hne Hfree. induction Hfree as [|x lines Hx Hfree IH]; [done|].
  destruct lines as [|y lines].
  - simpl. by apply split_no_sep.
  - change (JS.join [sep] (x :: y :: lines))
      with (x ++ sep :: JS.join [sep] (y :: lines)).
    rewrite split_app_sep, split_no_sep, IH by done. done.
Qed.

Lemma join_split sep (s : jsstring) : JS.join [sep] (JS.split sep s) = s.
Proof.
  induction s as [|c s IH]; simpl; [done|].
  destruct (N.eqb_spec c sep) as [->|].
  - pose proof (split_nonempty sep s).
    destruct (JS.split sep s) as [|l ls]; [done|]. simpl in *. by rewrite IH.
  - destruct (JS.split sep s) as [|l ls]; [by simpl in *; subst|].
    destruct ls; simpl in *; by rewrite <- IH.
Qed.

(** ** Lines of plain prose *)

Lemma prose_line_inv line :
  is_prose_line line = true →
  ∃ d t,
    JS.trim line = d :: t ∧ JS.is_digit d = false ∧
    Forall (λ c, c ∉ [LF; ch "#"; ch "-"; bullet_char] ++ inline_openers) line.
Proof.
  unfold is_prose_line. destruct (JS.trim line) as [|d t]; [done|].
  intros [Hd Hall]%andb_true_iff. exists d, t. split_and!; [done|..].
  - by apply negb_true_iff.
  - apply Forall_forall. intros c Hc.
    rewrite forallb_forall in Hall. specialize (Hall c).
    rewrite <- list_elem_of_In in Hall. specialize (Hall Hc).
    by apply negb_true_iff, bool_decide_eq_false in Hall.
Qed.

Lemma step_prose st line :
  inCodeBlock st = false → is_prose_line line = true →
  step st line = Some (with_content st (content st ++ [Paragraph [Text line None]])).
Proof.
  intros Hst (d & t & Ht & Hd & Hfree)%prose_line_inv.
  assert (Hsub : ∀ c, c ∈ JS.trim line →
            c ∉ [LF; ch "#"; ch "-"; bullet_char] ++ inline_openers).
  { intros c Hc. rewrite Forall_forall in Hfree. apply Hfree.
    by eapply sublist_subseteq; [apply trim_sublist|]. }
  unfold step. rewrite Hst, Ht.
  assert (JS.startsWith (d :: t) fence = false) as ->.
  { unfold fence. norm_literals. cbn [JS.startsWith].
    destruct (N.eqb_spec d 96) as [->|]; [|done].
    destruct (Hsub 96%N); [rewrite Ht; constructor|]. compute_done. }
  rewrite bool_decide_eq_false_2 by done.
  assert (string_match heading_regex line = None) as ->.
  { destruct (string_match heading_regex line) as [m|] eqn:Hm; [|done].
    apply heading_match_starts_with_hash in Hm as [l ->].
    apply Forall_cons in Hfree as [Hhash _]. destruct Hhash. compute_done. }
  assert (string_match bullet_regex (d :: t) = None) as ->.
  { unfold string_match.
    destruct (search bullet_regex 0 _) as [[m e]|] eqn:Hm; [|done].
    apply bullet_match_shape in Hm as (c & w' & rest' & [= <- _] & Hc & _).
    destruct (Hsub d); [rewrite Ht; constructor|].
    repeat (apply elem_of_cons in Hc as [->|Hc]); [compute_done..|].
    by apply elem_of_nil in Hc. }
  assert (string_match ordered_regex (d :: t) = None) as ->.
  { unfold string_match.
    destruct (search ordered_regex 0 _) as [[m e]|] eqn:Hm; [|done].
    apply ordered_match_shape in Hm as (digits & w & rest & Heq & _ & _ & Hne & Hdig & _).
    destruct digits as [|d' ds]; [done|]. injection Heq as <- _.
    apply Forall_cons in Hdig as [Hd' _]. congruence. }
  rewrite parse_unmatched; [done|].
  apply search_inline_None. eapply Forall_impl; [exact Hfree|].
  intros c Hc Hin. apply Hc. apply elem_of_app. by right.
Qed.

Lemma run_lines_prose lines st :
  inCodeBlock st = false → Forall (λ line, is_prose_line line = true) lines →
  run_lines lines st
  = Some (with_content st
            (content st ++ ((λ line, Paragraph [Text line None]) <$> lines))).
Proof.
  intros Hst Hlines. revert st Hst.
  induction Hlines as [|line lines Hline _ IH]; intros st Hst; simpl.
  - rewrite (right_id_L [] (++)). by destruct st.
  - rewrite step_prose by done. simpl. rewrite IH by done.
    unfold with_content. simpl. by rewrite <- (assoc_L (++)).
Qed.

Lemma prose_line_no_LF line : is_prose_line line = true → LF ∉ line.
Proof.
  intros (d & t & _ & _ & Hfree)%prose_line_inv Hin.
  rewrite Forall_forall in Hfree. apply (Hfree LF Hin). constructor.
Qed.

Lemma prose_paragraph_lines (lines : list jsstring) :
  flat_map block_lines ((λ line, Paragraph [Text line None]) <$> lines) = lines.
Proof.
  induction lines as [|l lines IH]; simpl; [done|].
  f_equal; [|exact IH]. unfold plain_text. simpl. by rewrite (right_id_L [] (++)).
Qed.

(** Plain prose survives the round trip: a text whose lines are all lines of
    plain prose converts to one paragraph per line, and the plain text read
    back from that Document is the text itself. *)
Theorem prose_round_trip (lines : list jsstring) :
  lines ≠ [] →
  Forall (λ line, is_prose_line line = true) lines →
  textToADF (JS.join newline lines)
  = Some {| version := 1;
            doc_content := (λ line, Paragraph [Text line None]) <$> lines |} ∧
  adfToPlainText <$> textToADF (JS.join newline lines)
  = Some (JS.join newline lines).
Proof.
  intros Hne Hlines.
  assert (Hdoc : textToADF (JS.join newline lines)
    = Some {| version := 1;
              doc_content := (λ line, Paragraph [Text line None]) <$> lines |}).
  { unfold textToADF, newline. rewrite split_join; [|done|].
    - rewrite run_lines_prose by done. simpl.
      unfold flush_unclosed, or_empty_paragraph. simpl.
      by destruct lines.
    - eapply Forall_impl; [exact Hlines|]. apply prose_line_no_LF. }
  split; [done|]. rewrite Hdoc. cbn [fmap option_fmap option_map].
  unfold adfToPlainText. cbn [doc_content].
  by rewrite prose_paragraph_lines.
Qed.

Lemma prose_round_trip_witness :
  adfToPlainText <$> textToADF (JS.join newline [js "Hello, world."; js "  Second line"])
  = Some (JS.join newline [js "Hello, world."; js "  Second line"]).
Proof.
  apply (prose_round_trip [js "Hello, world."; js "  Second line"]).
  - discriminate.
  - repeat constructor.
Defined.

(** ** Reading a code block back *)

Lemma run_lines_fenced st opening closing inner :
  inCodeBlock st = false →
  is_fence_line opening = true →
  Forall (λ line, is_fence_line line = false) inner →
  is_fence_line closing = true →
  run_lines (opening :: inner ++ [closing]) st
  = Some {| content := content st ++
              [code_block (JS.trim (JS.substring_from (JS.trim opening) 3)) inner];
            inCodeBlock := false; codeBlockLines := []; codeLanguage := [] |}.
Proof.
  intros Hst Hopen Hinner Hclose.
  cbn [run_lines]. rewrite step_open_fence by done. cbn [mbind option_bind].
  rewrite run_lines_app, run_lines_inside_code_block by done.
  cbn [mbind option_bind run_lines]. rewrite step_close_fence by done. done.
Qed.

(** A fenced region written alone reads back as its inner lines between two
    bare fences: the code is kept unit for unit, while the language tag and
    whatever else stood on the fence lines are lost. *)
Theorem fenced_text_read_back (opening closing : jsstring) (inner : list jsstring) :
  is_fence_line opening = true →
  Forall (λ line, is_fence_line line = false) inner →
  is_fence_line closing = true →
  Forall (λ line, LF ∉ line) (opening :: inner ++ [closing]) →
  adfToPlainText <$> textToADF (JS.join newline (opening :: inner ++ [closing]))
  = Some (fence ++ newline ++ JS.join newline inner ++ newline ++ fence).
Proof.
  intros Hopen Hinner Hclose Hfree.
  unfold textToADF, newline. rewrite split_join by done.
  rewrite run_lines_fenced by done. cbn [mbind option_bind fmap option_fmap option_map].
  unfold flush_unclosed, or_empty_paragraph, adfToPlainText. simpl.
  unfold plain_text. simpl. by rewrite !(right_id_L [] (++)).
Qed.

Lemma fenced_text_read_back_witness :
  adfToPlainText <$> textToADF (JS.join newline ([js "  ```js"] ++ [js "a **b**"; js ""] ++ [js "``` end"]))
  = Some (JS.join newline [js "```"; js "a **b**"; js ""; js "```"]).
Proof.
  apply (fenced_text_read_back (js "  ```js") (js "``` end") [js "a **b**"; js ""]).
  - reflexivity.
  - repeat constructor.
  - reflexivity.
  - compute_done.
Defined.

(** ** Reading an ordered list back *)

Lemma step_ordered_line st line :
  inCodeBlock st = false → ordered_item_line line →
  ∃ item, step st line = Some (with_content st (push_ordered (content st) item)).
Proof.
  intros Hst (digits & w & rest & Ht & Hne & Hd & Hw).
  destruct (step_ordered st line digits w rest Hst Ht Hne Hd Hw) as (inline & _ & ->).
  eauto.
Qed.

Lemma run_lines_ordered_merge lines st items :
  inCodeBlock st = false → content st = [OrderedList items] →
  Forall ordered_item_line lines →
  ∃ items',
    run_lines lines st = Some (with_content st [OrderedList (items ++ items')]) ∧
    length items' = length lines.
Proof.
  intros Hst Hc Hlines. revert st items Hst Hc.
  induction Hlines as [|line lines Hline _ IH]; intros st items Hst Hc.
  - exists []. simpl. rewrite (right_id_L [] (++)), <- Hc. by destruct st.
  - destruct (step_ordered_line st line Hst Hline) as [item Hstep].
    simpl. rewrite Hstep. simpl.
    rewrite Hc. change (push_ordered [OrderedList items] item)
      with (push_ordered ([] ++ [OrderedList items]) item).
    rewrite push_ordered_onto_list. cbn [app].
    destruct (IH (with_content st [OrderedList (items ++ [item])]) (items ++ [item]))
      as (items' & -> & Hlen); [done..|].
    exists (item :: items'). simpl. rewrite <- (assoc_L (++)). by rewrite Hlen.
Qed.

(** A text made only of ordered item lines converts to one ordered list with
    one item per line, and the plain text read back from that Document is
    empty: adfToPlainText renders no ordered list. *)
Theorem ordered_list_reads_back_empty (lines : list jsstring) :
  lines ≠ [] →
  Forall (λ line, LF ∉ line) lines →
  Forall ordered_item_line lines →
  ∃ items,
    textToADF (JS.join newline lines)
    = Some {| version := 1; doc_content := [OrderedList items] |} ∧
    length items = length lines ∧
    adfToPlainText {| version := 1; doc_content := [OrderedList items] |} = [].
Proof.
  intros Hne Hfree Hlines.
  unfold textToADF, newline. rewrite split_join by done.
  destruct Hlines as [|line lines Hline Hlines]; [done|].
  destruct (step_ordered_line initial line eq_refl Hline) as [item Hstep].
  cbn [run_lines]. rewrite Hstep. cbn [mbind option_bind].
  change (push_ordered (content initial) item) with [OrderedList [item]].
  destruct (run_lines_ordered_merge lines (with_content initial [OrderedList [item]])
              [item] eq_refl eq_refl Hlines) as (items' & -> & Hlen).
  exists (item :: items'). simpl. by rewrite Hlen.
Qed.

Lemma ordered_list_reads_back_empty_witness :
  ∃ items,
    textToADF (JS.join newline [js "1. first"; js "2. second"])
    = Some {| version := 1; doc_content := [OrderedList items] |} ∧
    length items = 2 ∧
    adfToPlainText {| version := 1; doc_content := [OrderedList items] |} = [].
Proof.
  apply (ordered_list_reads_back_empty [js "1. first"; js "2. second"]).
  - discriminate.
  - compute_done.
  - repeat constructor.
    + by exists (js "1"), (ch " "), (js "first"); split_and!; [|discriminate|compute_done|].
    + by exists (js "2"), (ch " "), (js "second"); split_and!; [|discriminate|compute_done|].
Defined.

(** ** Reading bullet items and headings back *)

Lemma run_lines_bullet_merge lines st items :
  inCodeBlock st = false → content st = [BulletList items] →
  Forall (λ line, is_bullet_line line = true) lines →
  ∃ inlines,
    run_lines lines st
    = Some (with_content st [BulletList (items ++ (list_item <$> inlines))]) ∧
    Forall2 (λ line inline,
               parseInlineFormatting (drop 2 (JS.trim line)) = Some inline)
            lines inlines.
Proof.
  intros Hst Hc Hlines. revert st items Hst Hc.
  induction Hlines as [|line lines Hline _ IH]; intros st items Hst Hc.
  - exists []. simpl. rewrite (right_id_L [] (++)), <- Hc.
    split; [by destruct st|constructor].
  - destruct (step_bullet st line Hst Hline) as (inline & Hin & Hstep).
    simpl. rewrite Hstep. cbn [mbind option_bind].
    rewrite Hc. change (push_bullet [BulletList items] (list_item inline))
      with (push_bullet ([] ++ [BulletList items]) (list_item inline)).
    rewrite push_bullet_onto_list. cbn [app].
    destruct (IH (with_content st [BulletList (items ++ [list_item inline])])
                (items ++ [list_item inline]))
      as (inlines & -> & Hall); [done..|].
    exists (inline :: inlines). split; [|by constructor].
    simpl. by rewrite <- (assoc_L (++)).
Qed.

Lemma bullet_item_lines (inlines : list (list Node)) :
  flat_map item_lines (list_item <$> inlines)
  = (λ inline, js "- " ++ plain_text inline) <$> inlines.
Proof.
  induction inlines as [|inline inlines IH]; simpl; [done|]. f_equal. exact IH.
Qed.

(** A text made only of bullet item lines reads back with one line per item:
    a hyphen, a space, and the re-joined text of the tokenized remainder.
    The marker written (hyphen, asterisk or bullet), the white space around
    the line and the inline markup are not read back. *)
Theorem bullet_list_read_back (lines : list jsstring) :
  lines ≠ [] →
  Forall (λ line, LF ∉ line) lines →
  Forall (λ line, is_bullet_line line = true) lines →
  ∃ inlines,
    Forall2 (λ line inline,
               parseInlineFormatting (drop 2 (JS.trim line)) = Some inline)
            lines inlines ∧
    adfToPlainText <$> textToADF (JS.join newline lines)
    = Some (JS.join newline ((λ inline, js "- " ++ plain_text inline) <$> inlines)).
Proof.
  intros Hne Hfree Hlines.
  unfold textToADF, newline. rewrite split_join by done.
  destruct Hlines as [|line lines Hline Hlines]; [done|].
  destruct (step_bullet initial line eq_refl Hline) as (inline & Hin & Hstep).
  cbn [run_lines]. rewrite Hstep. cbn [mbind option_bind].
  change (push_bullet (content initial) (list_item inline))
    with [BulletList [list_item inline]].
  destruct (run_lines_bullet_merge lines
              (with_content initial [BulletList [list_item inline]])
              [list_item inline] eq_refl eq_refl Hlines) as (inlines & -> & Hall).
  exists (inline :: inlines). split; [by constructor|].
  cbn [mbind option_bind fmap option_fmap option_map].
  unfold adfToPlainText, flush_unclosed, or_empty_paragraph.
  cbn [doc_content with_content content inCodeBlock initial andb length Nat.ltb
       Nat.leb flat_map block_lines app].
  rewrite (right_id_L [] (++)).
  change ([list_item inline] ++ (list_item <$> inlines))
    with (list_item <$> (inline :: inlines)).
  by rewrite bullet_item_lines.
Qed.

Lemma bullet_list_read_back_witness :
  adfToPlainText <$> textToADF (JS.join newline [js "* **a** b"; js "  - c"])
  = Some (JS.join newline [js "- a b"; js "- c"]).
Proof.
  destruct (bullet_list_read_back [js "* **a** b"; js "  - c"])
    as (inlines & Hall & Hread).
  - discriminate.
  - compute_done.
  - repeat constructor.
  - apply Forall2_cons_inv_l in Hall as (i1 & inlines1 & H1 & Hall & ->).
    apply Forall2_cons_inv_l in Hall as (i2 & inlines2 & H2 & Hall & ->).
    apply Forall2_nil_inv_l in Hall as ->.
    vm_compute in H1. injection H1 as <-.
    vm_compute in H2. injection H2 as <-.
    exact Hread.
Defined.

(** A heading line written alone (1 to 6 number signs, white space other
    than a line feed, content) reads back as the same number signs, one
    space, and the re-joined text of the tokenized content. *)
Theorem heading_read_back (k : nat) (ws : jsstring) (c : N) (tl : jsstring) :
  1 ≤ k → k ≤ 6 →
  ws ≠ [] → Forall (λ x, JS.is_space x = true) ws → LF ∉ ws →
  JS.is_space c = false →
  Forall (λ x, JS.is_line_terminator x = false) (c :: tl) →
  ∃ runs,
    parseInlineFormatting (c :: tl) = Some runs ∧
    adfToPlainText <$> textToADF (replicate k (ch "#") ++ ws ++ c :: tl)
    = Some (replicate k (ch "#") ++ js " " ++ plain_text runs).
Proof.
  intros Hk1 Hk6 Hws Hsp Hlf Hc Htl.
  destruct (step_heading initial k ws c tl eq_refl Hk1 Hk6 Hws Hsp Hc Htl)
    as (runs & Hruns & Hstep).
  exists runs. split; [done|].
  unfold textToADF. rewrite split_no_sep.
  - cbn [run_lines]. rewrite Hstep.
    cbn [mbind option_bind fmap option_fmap option_map].
    unfold adfToPlainText, flush_unclosed, or_empty_paragraph. simpl.
    by destruct k; [lia|].
  - rewrite !not_elem_of_app. split_and!; [|done|].
    + intros Hin%elem_of_replicate. by destruct Hin.
    + intros Hin. rewrite Forall_forall in Htl. by specialize (Htl LF Hin).
Qed.

Lemma heading_read_back_witness :
  adfToPlainText <$> textToADF (js "##   A *b*")
  = Some (js "## A b").
Proof.
  destruct (heading_read_back 2 (js "   ") (ch "A") (js " *b*")
              ltac:(lia) ltac:(lia) ltac:(discriminate) ltac:(compute_done)
              ltac:(compute_done) eq_refl ltac:(compute_done))
    as (runs & Hruns & Hread).
  vm_compute in Hruns. injection Hruns as <-. exact Hread.
Defined.

(** ** The paging loop of searchIssues *)

Section SearchIssuesFacts.
Context {Issue : Type}.
Implicit Types (get : nat → SearchParams → option (@PageData Issue)).
Implicit Types (calls : list SearchParams) (allIssues : list Issue).
Implicit Types (maxResults : Number.t).

Lemma length_lt_finite (n : nat) (q : Q) :
  Number.lt (Number.of_nat n) (Number.Finite q) = true ↔
  (inject_Z (Z.of_nat n) < q)%Q.
Proof.
  unfold Number.of_nat. simpl. rewrite negb_true_iff. split.
  - intros Hle. destruct (Qlt_le_dec (inject_Z (Z.of_nat n)) q) as [|Hge]; [done|].
    apply Qle_bool_iff in Hge. congruence.
  - intros Hlt. destruct (Qle_bool q (inject_Z (Z.of_nat n))) eqn:Hle; [|done].
    apply Qle_bool_iff in Hle. lra.
Qed.

Lemma length_lt_ceiling (n : nat) (q : Q) :
  (inject_Z (Z.of_nat n) < q)%Q → (Z.of_nat n < Qceiling q)%Z.
Proof.
  intros Hlt. rewrite Zlt_Qlt. pose proof (Qle_ceiling q). lra.
Qed.

(** The size of a page, as it is computed under the guard of the loop. *)
Lemma page_size_spec maxResults (n : nat) :
  Number.lt (Number.of_nat n) maxResults = true →
  ∃ s, Number.min (Number.Finite 100)
         (Number.sub maxResults (Number.of_nat n)) = Number.Finite s ∧
       (0 < s)%Q ∧ (s <= 100)%Q ∧
       ∀ q, maxResults = Number.Finite q → (s <= q - inject_Z (Z.of_nat n))%Q ∧
            (s == 100 ∨ s == q - inject_Z (Z.of_nat n))%Q.
Proof.
  destruct maxResults as [| | |q]; try done.
  - intros _. exists 100%Q. split_and!; [done|lra|lra|done].
  - intros Hlt%length_lt_finite. unfold Number.of_nat. simpl.
    destruct (Qle_bool 100 (q - inject_Z (Z.of_nat n))) eqn:Hle.
    + apply Qle_bool_iff in Hle. exists 100%Q.
      split_and!; [done|lra|lra|]. intros ? [= <-]. split; [done|by left].
    + assert (q - inject_Z (Z.of_nat n) < 100)%Q as Hsmall.
      { destruct (Qlt_le_dec (q - inject_Z (Z.of_nat n)) 100) as [|Hge]; [done|].
        apply Qle_bool_iff in Hge. congruence. }
      exists (q - inject_Z (Z.of_nat n))%Q.
      split_and!; [done|lra|lra|]. intros ? [= <-]. split; [lra|by right].
Qed.

Lemma issues_left_step maxResults (n k : nat) b :
  Number.lt (Number.of_nat n) maxResults = true →
  issues_left maxResults n = Some b →
  0 < k →
  ∃ b', issues_left maxResults (n + k) = Some b' ∧ b' < b.
Proof.
  destruct maxResults as [| | |q]; try done.
  intros Hlt%length_lt_finite%length_lt_ceiling [= <-] Hk. simpl.
  eexists. split; [done|]. lia.
Qed.

Lemma search_loop_ends get jql maxResults fuel calls allIssues token isLast b :
  issues_left maxResults (length allIssues) = Some b →
  b < fuel →
  is_Some (search_loop fuel get jql maxResults calls allIssues token isLast).
Proof.
  revert calls allIssues token isLast b.
  induction fuel as [|fuel IH]; intros calls allIssues token isLast b Hb Hfuel; [lia|].
  cbn [search_loop]. destruct (negb isLast && _) eqn:Hhead; [|eauto].
  apply andb_true_iff in Hhead as [_ Hlt].
  destruct (get (length calls) _) as [data|]; [|eauto].
  destruct (no_issues data || _) eqn:Hbreak; [eauto|].
  apply orb_false_iff in Hbreak as [Hissues _]. unfold no_issues in Hissues.
  destruct (page_issues data) as [[|x page]|]; try done.
  destruct (issues_left_step maxResults (length allIssues) (S (length page)) b
              Hlt Hb ltac:(lia)) as (b' & Hb' & Hlt').
  eapply (IH _ _ _ _ b'); [|lia]. by rewrite length_app.
Qed.

Lemma search_loop_sized get jql maxResults fuel calls allIssues token isLast
    out calls' :
  search_loop fuel get jql maxResults calls allIssues token isLast
  = Some (out, calls') →
  ∃ new,
    calls' = calls ++ new ∧ Forall (well_sized jql) new ∧
    ∀ b, issues_left maxResults (length allIssues) = Some b → length new ≤ b.
Proof.
  revert calls allIssues token isLast.
  induction fuel as [|fuel IH]; intros calls allIssues token isLast; [done|].
  cbn [search_loop]. destruct (negb isLast && _) eqn:Hhead.
  - apply andb_true_iff in Hhead as [_ Hlt].
    destruct (page_size_spec maxResults (length allIssues) Hlt)
      as (s & Hs & Hpos & Hle & _).
    set (params := {| param_jql := jql;
                      param_maxResults :=
                        Number.min (Number.Finite 100)
                          (Number.sub maxResults (Number.of_nat (length allIssues)));
                      param_nextPageToken := JS.truthy token |}).
    assert (Hparams : well_sized jql params) by (split; [done|by exists s]).
    assert (Hone : ∀ b, issues_left maxResults (length allIssues) = Some b →
                        length [params] ≤ b).
    { intros b Hb.
      destruct (issues_left_step maxResults (length allIssues) 1 b Hlt Hb)
        as (b' & _ & Hb'); simpl; lia. }
    destruct (get (length calls) params) as [data|].
    + destruct (no_issues data || _) eqn:Hbreak.
      * intros [= <- <-]. exists [params]. split_and!; [done|by constructor|done].
      * apply orb_false_iff in Hbreak as [Hissues _]. unfold no_issues in Hissues.
        destruct (page_issues data) as [[|x page]|] eqn:Hpage; try done.
        intros (new & -> & Hnew & Hlen)%IH. exists (params :: new).
        rewrite <- (assoc_L (++)). split_and!; [done|by constructor|].
        intros b Hb.
        destruct (issues_left_step maxResults (length allIssues) (S (length page)) b
                    Hlt Hb ltac:(lia)) as (b' & Hb' & Hlt').
        simpl in Hlen. rewrite length_app in Hlen. simpl in Hlen.
        specialize (Hlen b' Hb'). simpl. lia.
    + intros [= <- <-]. exists [params]. split_and!; [done|by constructor|done].
  - intros [= <- <-]. exists []. rewrite (right_id_L [] (++)).
    split_and!; [done|constructor|simpl; lia].
Qed.

Lemma search_loop_whole get jql (q : Q) (z : Z) fuel calls allIssues token isLast
    out calls' :
  (q == inject_Z z)%Q →
  search_loop fuel get jql (Number.Finite q) calls allIssues token isLast
  = Some (out, calls') →
  ∃ new, calls' = calls ++ new ∧ Forall whole_sized new.
Proof.
  intros Hq. revert calls allIssues token isLast.
  induction fuel as [|fuel IH]; intros calls allIssues token isLast; [done|].
  cbn [search_loop]. destruct (negb isLast && _) eqn:Hhead.
  - apply andb_true_iff in Hhead as [_ Hlt].
    destruct (page_size_spec _ (length allIssues) Hlt)
      as (s & Hs & Hpos & Hle & Hwhole).
    destruct (Hwhole q eq_refl) as [_ Hcase].
    apply length_lt_finite in Hlt.
    set (params := {| param_jql := jql;
                      param_maxResults :=
                        Number.min (Number.Finite 100)
                          (Number.sub (Number.Finite q)
                             (Number.of_nat (length allIssues)));
                      param_nextPageToken := JS.truthy token |}).
    assert (Hparams : whole_sized params).
    { exists s. destruct Hcase as [Hs100|Hdiff].
      - exists 100%Z. split_and!; [done|done|lia|lia].
      - assert (Heq : (s == inject_Z (z - Z.of_nat (length allIssues)))%Q).
        { rewrite Hdiff, Hq. unfold Z.sub.
          rewrite inject_Z_plus, inject_Z_opp. reflexivity. }
        exists (z - Z.of_nat (length allIssues))%Z. split_and!; [done|done|..].
        + assert (0 < z - Z.of_nat (length allIssues))%Z; [|lia].
          rewrite Zlt_Qlt, <- Heq. exact Hpos.
        + rewrite Zle_Qle, <- Heq. exact Hle. }
    destruct (get (length calls) params) as [data|].
    + destruct (no_issues data || _).
      * intros [= <- <-]. exists [params]. split; [done|by constructor].
      * intros (new & -> & Hnew)%IH. exists (params :: new).
        rewrite <- (assoc_L (++)). split; [done|by constructor].
    + intros [= <- <-]. exists [params]. split; [done|by constructor].
  - intros [= <- <-]. exists []. by rewrite (right_id_L [] (++)).
Qed.

(** The paging loop asks for little and, unless [maxResults] is infinite,
    ends: every request carries the query unchanged and asks for more than
    0 and at most 100 issues, a whole number of them when [maxResults] is
    whole; there are at most as many requests as issues asked for, rounded
    up, so none at all when [maxResults] is zero, negative or NaN; and one
    iteration more than that is enough for the loop to end, whatever the
    server answers. *)
Theorem search_requests_bounded get (jql : jsstring)
    (maxResults : option Number.t) :
  (∀ fuel out calls,
     searchIssues fuel get jql maxResults = Some (out, calls) →
     Forall (well_sized jql) calls ∧
     (∀ bound, issue_cap maxResults = Some bound → length calls ≤ bound) ∧
     (∀ q z, default (Number.Finite 50) maxResults = Number.Finite q →
             (q == inject_Z z)%Q → Forall whole_sized calls)) ∧
  (∀ bound fuel,
     issue_cap maxResults = Some bound → bound < fuel →
     is_Some (searchIssues fuel get jql maxResults)).
Proof.
  split.
  - intros fuel out calls Hs. unfold searchIssues in Hs.
    destruct (search_loop_sized _ _ _ _ _ _ _ _ _ _ Hs) as (new & -> & Hnew & Hlen).
    split_and!; [done|exact Hlen|].
    intros q z Hq Hz. rewrite Hq in Hs.
    by destruct (search_loop_whole _ _ _ _ _ _ _ _ _ _ _ Hz Hs) as (new' & -> & Hnew').
  - intros bound fuel Hbound Hfuel. by eapply search_loop_ends.
Qed.

Lemma chained_snoc get calls p :
  chained get calls →
  match last calls with
  | None => param_nextPageToken p = None
  | Some prev => follows_page get (length calls - 1) prev p
  end →
  chained get (calls ++ [p]).
Proof.
  intros [Hfirst Hnext] Hlast. split.
  - intros p0. destruct calls as [|p1 calls]; simpl in *; [by intros [= <-]|].
    intros [= <-]. by apply Hfirst.
  - intros i prev p0 Hi HSi.
    destruct (decide (S i < length calls)) as [Hlt|Hge].
    + rewrite lookup_app_l in Hi, HSi by lia. by eapply Hnext.
    + assert (S i = length calls) as Hlen.
      { apply lookup_lt_Some in HSi. rewrite length_app in HSi. simpl in HSi. lia. }
      rewrite lookup_app_l in Hi by lia.
      rewrite Hlen, lookup_app_r, Nat.sub_diag in HSi by lia.
      injection HSi as <-.
      rewrite last_lookup, <- Hlen in Hlast. simpl in Hlast. rewrite Hi in Hlast.
      by rewrite Nat.sub_0_r in Hlast.
Qed.

Lemma search_loop_chained get jql maxResults fuel calls allIssues token isLast
    out calls' :
  search_loop fuel get jql maxResults calls allIssues token isLast
  = Some (out, calls') →
  chained get calls →
  (isLast = false →
   match last calls with
   | None => token = None
   | Some prev =>
       ∃ data x page c tok,
         get (length calls - 1) prev = Some data ∧
         page_isLast data = Some false ∧
         page_issues data = Some (x :: page) ∧
         page_nextPageToken data = Some (c :: tok) ∧
         token = Some (c :: tok)
   end) →
  chained get calls'.
Proof.
  revert calls allIssues token isLast.
  induction fuel as [|fuel IH]; intros calls allIssues token isLast; [done|].
  cbn [search_loop]. destruct (negb isLast && _) eqn:Hhead; [|by intros [= <- <-]].
  apply andb_true_iff in Hhead as [HisLast%negb_true_iff _].
  set (params := {| param_jql := jql;
                    param_maxResults :=
                      Number.min (Number.Finite 100)
                        (Number.sub maxResults (Number.of_nat (length allIssues)));
                    param_nextPageToken := JS.truthy token |}).
  intros Hloop Hchained Hpending. specialize (Hpending HisLast).
  assert (Hnew : chained get (calls ++ [params])).
  { apply chained_snoc; [done|]. destruct (last calls) as [prev|].
    - destruct Hpending as (data & x & page & c & tok & ? & ? & ? & ? & ->).
      by exists data, x, page, c, tok.
    - by subst token. }
  destruct (get (length calls) params) as [data|] eqn:Hget;
    [|by injection Hloop as <- <-].
  destruct (no_issues data || _) eqn:Hbreak; [by injection Hloop as <- <-|].
  apply orb_false_iff in Hbreak as [Hissues Htoken].
  apply IH in Hloop; [done..|].
  intros Hcont. rewrite last_snoc, length_app. simpl. rewrite Nat.add_sub.
  apply negb_false_iff, bool_decide_eq_true in Hcont.
  rewrite Hcont in Htoken. simpl in Htoken. rewrite andb_true_r in Htoken.
  apply negb_false_iff, bool_decide_eq_true in Htoken as [tok Htok].
  unfold no_issues in Hissues.
  destruct (page_issues data) as [[|x page]|] eqn:Hpage; try done.
  destruct (page_nextPageToken data) as [[|c tok']|] eqn:Hnext; try done.
  by exists data, x, page, c, tok'.
Qed.

(** The pages are chained, whatever [maxResults] is: the first request
    carries no page token, and every later request carries the token of the
    response before it, which said [isLast: false] and held at least one
    issue. So the loop stops after the first response that does not say
    [isLast: false], that holds no issue, or that gives no token. Unless
    [maxResults] is infinite, the loop ends with such requests. *)
Theorem search_pages_chained get (jql : jsstring) (maxResults : option Number.t) :
  (∀ fuel out calls,
     searchIssues fuel get jql maxResults = Some (out, calls) →
     chained get calls) ∧
  (∀ bound fuel,
     issue_cap maxResults = Some bound → bound < fuel →
     ∃ out calls,
       searchIssues fuel get jql maxResults = Some (out, calls) ∧
       chained get calls).
Proof.
  assert (Hpart : ∀ fuel out calls,
            searchIssues fuel get jql maxResults = Some (out, calls) →
            chained get calls).
  { intros fuel out calls Hs. unfold searchIssues in Hs.
    eapply search_loop_chained; [exact Hs| |done]. split; intros; done. }
  split; [exact Hpart|].
  intros bound fuel Hbound Hfuel.
  destruct (search_loop_ends get jql _ fuel [] [] None false bound Hbound Hfuel)
    as [[out calls] Hs].
  exists out, calls. split; [exact Hs|]. by eapply Hpart.
Qed.

Lemma pages_of_snoc get calls p :
  pages_of get (calls ++ [p])
  = pages_of get calls ++ default [] (get (length calls) p ≫= page_issues).
Proof.
  unfold pages_of. rewrite imap_app, concat_app. simpl.
  by rewrite Nat.add_0_r, (right_id_L [] (++)).
Qed.

Lemma search_loop_pages get jql maxResults fuel calls allIssues token isLast
    out calls' :
  search_loop fuel get jql maxResults calls allIssues token isLast
  = Some (out, calls') →
  allIssues = pages_of get calls →
  outcome_of_pages get out calls'.
Proof.
  revert calls allIssues token isLast.
  induction fuel as [|fuel IH]; intros calls allIssues token isLast; [done|].
  cbn [search_loop]. destruct (negb isLast && _); [|by intros [= <- <-] ->].
  set (params := {| param_jql := jql;
                    param_maxResults :=
                      Number.min (Number.Finite 100)
                        (Number.sub maxResults (Number.of_nat (length allIssues)));
                    param_nextPageToken := JS.truthy token |}).
  intros Hloop ->.
  destruct (get (length calls) params) as [data|] eqn:Hget.
  - assert (Hpages : pages_of get calls ++ default [] (page_issues data)
                     = pages_of get (calls ++ [params])).
    { by rewrite pages_of_snoc, Hget. }
    destruct (no_issues data || _).
    + injection Hloop as <- <-. simpl. by rewrite Hpages.
    + by apply IH in Hloop.
  - injection Hloop as <- <-. exists params.
    rewrite last_snoc, length_app. simpl. by rewrite Nat.add_sub.
Qed.

(** What is returned is what was received, whatever [maxResults] is: the
    issues are those of the pages received, page after page in the order of
    the requests, [total] is their number and [isLast] is reported true
    whatever the last response said; the call throws only when its last
    request threw. Unless [maxResults] is infinite, the loop ends so. *)
Theorem search_result_is_pages get (jql : jsstring) (maxResults : option Number.t) :
  (∀ fuel out calls,
     searchIssues fuel get jql maxResults = Some (out, calls) →
     outcome_of_pages get out calls) ∧
  (∀ bound fuel,
     issue_cap maxResults = Some bound → bound < fuel →
     ∃ out calls,
       searchIssues fuel get jql maxResults = Some (out, calls) ∧
       outcome_of_pages get out calls).
Proof.
  assert (Hpart : ∀ fuel out calls,
            searchIssues fuel get jql maxResults = Some (out, calls) →
            outcome_of_pages get out calls).
  { intros fuel out calls Hs. unfold searchIssues in Hs.
    by eapply search_loop_pages. }
  split; [exact Hpart|].
  intros bound fuel Hbound Hfuel.
  destruct (search_loop_ends get jql _ fuel [] [] None false bound Hbound Hfuel)
    as [[out calls] Hs].
  exists out, calls. split; [exact Hs|]. by eapply Hpart.
Qed.

Lemma search_loop_capped get jql maxResults fuel calls allIssues token isLast
    r calls' bound :
  (∀ i p data, get i p = Some data →
     length (default [] (page_issues data)) ≤ asked_for p) →
  issues_left maxResults 0 = Some bound →
  search_loop fuel get jql maxResults calls allIssues token isLast
  = Some (Returned r, calls') →
  length allIssues ≤ bound →
  result_total r ≤ bound.
Proof.
  intros Hget Hbound. revert calls allIssues token isLast.
  induction fuel as [|fuel IH]; intros calls allIssues token isLast; [done|].
  cbn [search_loop]. destruct (negb isLast && _) eqn:Hhead; [|by intros [= <- <-]].
  apply andb_true_iff in Hhead as [_ Hlt].
  set (params := {| param_jql := jql;
                    param_maxResults :=
                      Number.min (Number.Finite 100)
                        (Number.sub maxResults (Number.of_nat (length allIssues)));
                    param_nextPageToken := JS.truthy token |}).
  destruct (get (length calls) params) as [data|] eqn:Hdata; [|done].
  apply Hget in Hdata.
  assert (Hlen : length (allIssues ++ default [] (page_issues data)) ≤ bound).
  { destruct (page_size_spec maxResults (length allIssues) Hlt)
      as (s & Hs & _ & _ & Hq).
    destruct maxResults as [| | |q]; try done.
    destruct (Hq q eq_refl) as [Hsq _].
    apply length_lt_finite, length_lt_ceiling in Hlt.
    injection Hbound as <-.
    unfold asked_for in Hdata. cbn [param_maxResults params] in Hdata.
    rewrite Hs in Hdata.
    assert (Qceiling s ≤ Qceiling q - Z.of_nat (length allIssues))%Z.
    { rewrite <- (Qceiling_Z (Qceiling q - Z.of_nat (length allIssues))).
      apply Qceiling_resp_le. unfold Z.sub.
      rewrite inject_Z_plus, inject_Z_opp. pose proof (Qle_ceiling q). lra. }
    rewrite length_app. lia. }
  destruct (no_issues data || _).
  - intros [= <- <-] _. done.
  - intros Hloop _. by eapply IH.
Qed.

(** Against a server that never sends more issues in a page than the
    request asked for, rounded up, the search returns at most [maxResults]
    issues, rounded up, and none when [maxResults] is negative or NaN. *)
Theorem search_total_capped get (jql : jsstring) (maxResults : option Number.t)
    (fuel : nat) (r : SearchResult) calls (bound : nat) :
  (∀ i p data, get i p = Some data →
     length (default [] (page_issues data)) ≤ asked_for p) →
  issue_cap maxResults = Some bound →
  searchIssues fuel get jql maxResults = Some (Returned r, calls) →
  result_total r ≤ bound.
Proof.
  intros Hget Hbound Hs. unfold searchIssues in Hs.
  eapply search_loop_capped; [exact Hget|exact Hbound|exact Hs|simpl; lia].
Qed.

Lemma search_loop_server_ends get jql maxResults (k : nat) fuel calls allIssues
    token isLast :
  (∀ p, ends_paging (get k p) = true) →
  length calls ≤ k ∨ (isLast = true ∧ length calls ≤ S k) →
  S k - length calls < fuel →
  ∃ out new,
    search_loop fuel get jql maxResults calls allIssues token isLast
    = Some (out, calls ++ new) ∧
    length (calls ++ new) ≤ S k.
Proof.
  intros Hends. revert calls allIssues token isLast.
  induction fuel as [|fuel IH]; intros calls allIssues token isLast Hcalls Hfuel;
    [lia|].
  cbn [search_loop]. destruct (negb isLast && _) eqn:Hhead.
  - apply andb_true_iff in Hhead as [HisLast%negb_true_iff _].
    destruct Hcalls as [Hcalls|[? _]]; [|congruence].
    set (params := {| param_jql := jql;
                      param_maxResults :=
                        Number.min (Number.Finite 100)
                          (Number.sub maxResults (Number.of_nat (length allIssues)));
                      param_nextPageToken := JS.truthy token |}).
    assert (Hone : length (calls ++ [params]) ≤ S k)
      by (rewrite length_app; simpl; lia).
    destruct (get (length calls) params) as [data|] eqn:Hget.
    + destruct (no_issues data || _) eqn:Hbreak.
      * by exists (Returned
               {| result_issues := allIssues ++ default [] (page_issues data);
                  result_total := length (allIssues ++ default [] (page_issues data));
                  result_isLast := true |}), [params].
      * destruct (IH (calls ++ [params])
                    (allIssues ++ default [] (page_issues data))
                    (page_nextPageToken data)
                    (negb (bool_decide (page_isLast data = Some false))))
          as (out & new & -> & Hlen).
        { destruct (decide (length calls = k)) as [Hk|Hk].
          - right. split; [|done]. specialize (Hends params).
            rewrite <- Hk, Hget in Hends. simpl in Hends.
            apply orb_false_iff in Hbreak as [Hissues Htoken].
            rewrite Hissues, orb_false_r in Hends.
            apply orb_true_iff in Hends as [Hlast|Hnone]; [done|].
            rewrite Hnone in Htoken. simpl in Htoken.
            by apply negb_false_iff in Htoken.
          - left. rewrite length_app. simpl. lia. }
        { rewrite length_app. simpl. lia. }
        exists out, (params :: new). by rewrite <- (assoc_L (++)) in *.
    + by exists Thrown, [params].
  - exists (Returned {| result_issues := allIssues;
                        result_total := length allIssues;
                        result_isLast := true |}), [].
    rewrite (right_id_L [] (++)). split; [done|]. destruct Hcalls as [|[_ ?]]; lia.
Qed.

(** The server ends the paging, whatever [maxResults] is, infinite or not:
    when every response to the request of number [k] is a throw or a page
    that does not say [isLast: false], holds no issue or gives no token, the
    loop ends within [k + 2] iterations, after [k + 1] requests at most. *)
Theorem search_ends_with_server get (jql : jsstring) (maxResults : option Number.t)
    (k fuel : nat) :
  (∀ p, ends_paging (get k p) = true) →
  k + 1 < fuel →
  ∃ out calls,
    searchIssues fuel get jql maxResults = Some (out, calls) ∧
    length calls ≤ k + 1.
Proof.
  intros Hends Hfuel. unfold searchIssues.
  destruct (search_loop_server_ends get jql (default (Number.Finite 50) maxResults)
              k fuel [] [] None false Hends) as (out & new & Hs & Hlen).
  { left. simpl. lia. }
  { simpl. lia. }
  exists out, new. split; [exact Hs|]. simpl in Hlen. lia.
Qed.

End SearchIssuesFacts.

(** With [maxResults] infinite the loop goes on until the third page, which
    says [isLast: true]. *)
Lemma search_ends_with_server_witness :
  ∃ out calls,
    searchIssues 4 three_page_server (js "project = X") (Some Number.PosInf)
    = Some (out, calls) ∧
    param_maxResults <$> calls
    = [Number.Finite 100; Number.Finite 100; Number.Finite 100] ∧
    length calls ≤ 3.
Proof.
  destruct (search_ends_with_server three_page_server (js "project = X")
              (Some Number.PosInf) 2 4) as (out & calls & Hs & Hlen).
  - intros p. reflexivity.
  - lia.
  - exists out, calls. split_and!; [exact Hs| |exact Hlen].
    vm_compute in Hs. by injection Hs as <- <-.
Defined.

(** With [maxResults] 2.5 and one issue in each page, three requests ask
    for 2.5, 1.5 and 0.5 issues. *)
Lemma search_requests_bounded_witness :
  ∃ out calls,
    searchIssues 4 one_issue_server (js "project = X") (Some (Number.Finite (5 # 2)))
    = Some (out, calls) ∧
    param_maxResults <$> calls
    = [Number.Finite (5 # 2); Number.Finite (3 # 2); Number.Finite (1 # 2)] ∧
    Forall (well_sized (js "project = X")) calls ∧ length calls ≤ 3.
Proof.
  destruct (search_requests_bounded one_issue_server (js "project = X")
              (Some (Number.Finite (5 # 2)))) as [Hpart Hends].
  destruct (Hends 3 4 eq_refl ltac:(lia)) as [[out calls] Hs].
  destruct (Hpart 4 out calls Hs) as (Hsized & Hbound & _).
  exists out, calls. split_and!; [exact Hs| |exact Hsized|exact (Hbound 3 eq_refl)].
  vm_compute in Hs. by injection Hs as <- <-.
Defined.

Lemma search_pages_chained_witness :
  ∃ out calls,
    searchIssues 4 one_issue_server (js "project = X") (Some (Number.Finite (5 # 2)))
    = Some (out, calls) ∧
    length calls = 3 ∧ chained one_issue_server calls.
Proof.
  destruct (proj2 (search_pages_chained one_issue_server (js "project = X")
                     (Some (Number.Finite (5 # 2)))) 3 4 eq_refl ltac:(lia))
    as (out & calls & Hs & Hchained).
  exists out, calls. split_and!; [exact Hs| |exact Hchained].
  vm_compute in Hs. by injection Hs as <- <-.
Defined.

Lemma search_result_is_pages_witness :
  ∃ r calls,
    searchIssues 4 one_issue_server (js "project = X") (Some (Number.Finite (5 # 2)))
    = Some (Returned r, calls) ∧
    result_issues r = [0; 1; 2] ∧ result_total r = 3.
Proof.
  destruct (proj2 (search_result_is_pages one_issue_server (js "project = X")
                     (Some (Number.Finite (5 # 2)))) 3 4 eq_refl ltac:(lia))
    as (out & calls & Hs & Hout).
  pose proof Hs as Hrun. vm_compute in Hrun. injection Hrun as <- <-.
  destruct Hout as (Hissues & Htotal & _).
  eexists _, _. split_and!; [exact Hs|exact Hissues|exact Htotal].
Defined.

(** With [maxResults] 250.5 and full pages, three requests bring 100, 100
    and 51 issues. *)
Lemma search_total_capped_witness :
  ∃ r calls,
    searchIssues 4 full_page_server (js "project = X") (Some (Number.Finite (501 # 2)))
    = Some (Returned r, calls) ∧
    length calls = 3 ∧ result_total r ≤ 251.
Proof.
  eexists _, _. split; [vm_compute; reflexivity|]. split; [reflexivity|].
  eapply (search_total_capped full_page_server (js "project = X")
            (Some (Number.Finite (501 # 2))) 4).
  - intros i p data [= <-]. simpl. by rewrite length_replicate.
  - reflexivity.
  - vm_compute. reflexivity.
Defined.

(** ** Pod aliases *)

Lemma pod_match_shape pos w s caps :
  Matches (pattern pod_regex) pos w s (replicate 2 None) caps →
  ∃ p o d ws1 ws2 q1 name q2,
    w = pod_clause p o d ws1 ws2 q1 name q2 ∧
    p ∈ [ch "P"; ch "p"] ∧ o ∈ [ch "O"; ch "o"] ∧ d ∈ [ch "D"; ch "d"] ∧
    Forall (λ c, JS.is_space c = true) ws1 ∧
    Forall (λ c, JS.is_space c = true) ws2 ∧
    q1 ∈ quotes ∧ q2 ∈ quotes ∧
    name ≠ [] ∧ Forall (λ c, c ∉ quotes) name ∧
    caps = [None; Some name].
Proof.
  intros HM.
  let r := eval vm_compute in (pattern pod_regex) in
  change (pattern pod_regex) with r in HM.
  inv_Matches.
  repeat match goal with
  | H : ∀ m, Some 1 = Some m → length ?w ≤ m |- _ =>
      specialize (H 1 eq_refl);
      destruct w as [|? [|? ?]]; simpl in *; try lia
  end.
  repeat match goal with
  | H : Forall _ [_] |- _ => rewrite Forall_singleton in H; simpl in H;
      apply bool_decide_eq_true in H
  end.
  eexists _, _, _, w3, w5, _, w7, _. split_and!; try done.
  - destruct w7; simpl in *; [lia|done].
  - eapply Forall_impl; [exact H2|]. intros c Hc. simpl in Hc.
    by apply negb_true_iff, bool_decide_eq_false in Hc.
Qed.

Lemma search_pod_None (text : jsstring) (pos : nat) :
  Forall (λ c, c ∉ quotes) text → search pod_regex pos text = None.
Proof.
  intros Hfree. destruct (search pod_regex pos text) as [[m e]|] eqn:Hs; [|done].
  apply search_sound in Hs as (n & w & s' & caps & Hd & _ & _ & _ & HM & _).
  apply pod_match_shape in HM
    as (p & o & d & ws1 & ws2 & q1 & name & q2 & -> & _ & _ & _ & _ & _ & Hq1 & _).
  assert (Hin : q1 ∈ text).
  { apply (subseteq_drop n). rewrite Hd. unfold pod_clause.
    rewrite !elem_of_app, !elem_of_cons. naive_solver. }
  rewrite Forall_forall in Hfree. by destruct (Hfree q1 Hin).
Qed.

Section PodAliasesFacts.
Variable toLowerCase : jsstring → jsstring.
Variable inherited : jsstring → option jsstring.

(** A query that holds no quote character, double or single, comes back
    unchanged. *)
Theorem quote_free_query_unchanged (jql : jsstring) :
  Forall (λ c, c ∉ quotes) jql →
  expandPodAliases toLowerCase inherited jql = Some jql.
Proof.
  intros Hfree. unfold expandPodAliases, replace_global. cbn [replace_loop].
  unfold exec. change (drop 0 jql) with jql.
  by rewrite search_pod_None.
Qed.

End PodAliasesFacts.

Lemma quote_free_query_unchanged_witness :
  expandPodAliases ascii_lower (λ _, None) (js "project = X AND pod = growth")
  = Some (js "project = X AND pod = growth").
Proof.
  apply (quote_free_query_unchanged ascii_lower (λ _, None)
           (js "project = X AND pod = growth")).
  compute_done.
Defined.

Lemma quote_not_space q : q ∈ quotes → JS.is_space q = false.
Proof.
  unfold quotes. intros Hq. repeat (apply elem_of_cons in Hq as [->|Hq]); [done..|].
  by apply elem_of_nil in Hq.
Qed.

Lemma match_at_pod_clause pos p o d ws1 ws2 q1 name q2 rest :
  p ∈ [ch "P"; ch "p"] → o ∈ [ch "O"; ch "o"] → d ∈ [ch "D"; ch "d"] →
  Forall (λ c, JS.is_space c = true) ws1 →
  Forall (λ c, JS.is_space c = true) ws2 →
  q1 ∈ quotes → q2 ∈ quotes →
  name ≠ [] → Forall (λ c, c ∉ quotes) name →
  match_at pod_regex pos (pod_clause p o d ws1 ws2 q1 name q2 ++ rest)
  = Some ({| index := pos;
             groups := [Some (pod_clause p o d ws1 ws2 q1 name q2); Some name] |},
          pos + length (pod_clause p o d ws1 ws2 q1 name q2)).
Proof.
  intros Hp Ho Hd Hws1 Hws2 Hq1 Hq2 Hname Hfree.
  unfold match_at.
  set (text := pod_clause p o d ws1 ws2 q1 name q2 ++ rest).
  assert (Htext : text = p :: o :: d :: ws1 ++ ch "=" :: ws2 ++ q1 :: name ++ q2 :: rest).
  { unfold text, pod_clause. by rewrite <- !(assoc_L (++)). }
  rewrite Htext at 1.
  cbn [pattern ngroups pod_regex rseq foldr RPlus RStar ROne RStr rmatch].
  rewrite !rep_match_one by (by apply bool_decide_eq_true).
  eapply rep_match_greedy; [exact Hws1|by intros c s' [= <- <-]|lia|done|].
  change (js "=") with [ch "="]. cbn [RStr foldr rmatch]. rewrite N.eqb_refl.
  eapply rep_match_greedy;
    [exact Hws2|intros c s' [= <- <-]; by apply quote_not_space|lia|done|].
  rewrite rep_match_one by (by apply bool_decide_eq_true).
  eapply rep_match_greedy.
  { eapply Forall_impl; [exact Hfree|]. intros c Hc. simpl.
    by apply negb_true_iff, bool_decide_eq_false. }
  { intros c s' [= <- <-]. simpl. by apply negb_false_iff, bool_decide_eq_true. }
  { destruct name; [done|simpl; lia]. }
  { done. }
  rewrite rep_match_one by (by apply bool_decide_eq_true).
  assert (Hlen : length (pod_clause p o d ws1 ws2 q1 name q2)
                 = 6 + length ws1 + length ws2 + length name).
  { unfold pod_clause. rewrite !length_app. simpl. lia. }
  rewrite (take_prefix _ (pod_clause p o d ws1 ws2 q1 name q2) text rest)
    by (done || lia).
  rewrite (take_prefix _ name _ (q2 :: rest)) by (done || lia).
  cbn [insert list_insert replicate]. do 2 f_equal. lia.
Qed.

(** A match holds the letters of the pattern only at its start. *)
Lemma pod_clause_prefix_tail o d ws1 ws2 :
  o ∈ [ch "O"; ch "o"] → d ∈ [ch "D"; ch "d"] →
  Forall (λ c, JS.is_space c = true) ws1 →
  Forall (λ c, JS.is_space c = true) ws2 →
  Forall (λ c, c ∉ [ch "P"; ch "p"]) ([o; d] ++ ws1 ++ [ch "="] ++ ws2).
Proof.
  intros Ho Hd Hws1 Hws2.
  assert (Hsp : ∀ ws, Forall (λ c, JS.is_space c = true) ws →
                      Forall (λ c, c ∉ [ch "P"; ch "p"]) ws).
  { intros ws Hws. eapply Forall_impl; [exact Hws|]. intros c Hc Hin.
    repeat (apply elem_of_cons in Hin as [->|Hin]); [done..|].
    by apply elem_of_nil in Hin. }
  repeat (apply elem_of_cons in Ho as [->|Ho]); [..|by apply elem_of_nil in Ho].
  all: repeat (apply elem_of_cons in Hd as [->|Hd]); [..|by apply elem_of_nil in Hd].
  all: repeat first [apply Forall_cons; split; [compute_done|]|apply Forall_app; split];
    auto.
Qed.

Lemma pod_clause_prefix_quote_free p o d ws1 ws2 :
  p ∈ [ch "P"; ch "p"] → o ∈ [ch "O"; ch "o"] → d ∈ [ch "D"; ch "d"] →
  Forall (λ c, JS.is_space c = true) ws1 →
  Forall (λ c, JS.is_space c = true) ws2 →
  Forall (λ c, ¬ c ∈ quotes) ([p; o; d] ++ ws1 ++ [ch "="] ++ ws2).
Proof.
  intros Hp Ho Hd Hws1 Hws2.
  assert (Hsp : ∀ ws, Forall (λ c, JS.is_space c = true) ws →
                      Forall (λ c, ¬ c ∈ quotes) ws).
  { intros ws Hws. eapply Forall_impl; [exact Hws|]. intros c Hc Hin.
    apply quote_not_space in Hin. congruence. }
  repeat (apply elem_of_cons in Hp as [->|Hp]); [..|by apply elem_of_nil in Hp].
  all: repeat (apply elem_of_cons in Ho as [->|Ho]); [..|by apply elem_of_nil in Ho].
  all: repeat (apply elem_of_cons in Hd as [->|Hd]); [..|by apply elem_of_nil in Hd].
  all: repeat first [apply Forall_cons; split; [compute_done|]|apply Forall_app; split];
    auto.
Qed.

Lemma no_pod_match_before pos c pre p o d ws1 ws2 q1 name q2 post :
  Forall (λ x, x ∉ quotes) (c :: pre) →
  p ∈ [ch "P"; ch "p"] → o ∈ [ch "O"; ch "o"] → d ∈ [ch "D"; ch "d"] →
  Forall (λ x, JS.is_space x = true) ws1 →
  Forall (λ x, JS.is_space x = true) ws2 →
  q1 ∈ quotes →
  match_at pod_regex pos ((c :: pre) ++ pod_clause p o d ws1 ws2 q1 name q2 ++ post)
  = None.
Proof.
  intros Hpre Hp Ho Hd Hws1 Hws2 Hq1.
  destruct (match_at _ _ _) as [r|] eqn:Hat; [|done]. exfalso.
  unfold match_at in Hat.
  apply rmatch_sound in Hat as (w & s' & caps & Heq & HM & _).
  apply pod_match_shape in HM
    as (p' & o' & d' & sp1 & sp2 & q & name' & q' & -> & Hp' & Ho' & Hd' & Hsp1 & Hsp2
        & Hq & _).
  unfold pod_clause in Heq.
  assert (Heq' :
    ((c :: pre) ++ [p; o; d] ++ ws1 ++ [ch "="] ++ ws2) ++ q1 :: (name ++ [q2] ++ post)
    = ([p'; o'; d'] ++ sp1 ++ [ch "="] ++ sp2) ++ q :: (name' ++ [q'] ++ s')).
  { revert Heq. rewrite <- !(assoc_L (++)). simpl. done. }
  apply (first_split (λ x, x ∈ quotes)) in Heq' as (Heq' & _ & _); [|..|done]; [| |done|].
  - simpl in Heq'. injection Heq' as -> Htail.
    pose proof (pod_clause_prefix_tail o' d' sp1 sp2 Ho' Hd' Hsp1 Hsp2) as Hnot.
    simpl in Hnot. rewrite <- Htail in Hnot.
    apply Forall_app in Hnot as [_ Hnot]. apply Forall_cons in Hnot as [Hnot _].
    done.
  - apply Forall_app. split; [done|]. by apply pod_clause_prefix_quote_free.
  - by apply pod_clause_prefix_quote_free.
Qed.

Lemma search_pod_clause pos pre p o d ws1 ws2 q1 name q2 post :
  Forall (λ x, x ∉ quotes) pre →
  p ∈ [ch "P"; ch "p"] → o ∈ [ch "O"; ch "o"] → d ∈ [ch "D"; ch "d"] →
  Forall (λ x, JS.is_space x = true) ws1 →
  Forall (λ x, JS.is_space x = true) ws2 →
  q1 ∈ quotes → q2 ∈ quotes →
  name ≠ [] → Forall (λ x, x ∉ quotes) name →
  search pod_regex pos (pre ++ pod_clause p o d ws1 ws2 q1 name q2 ++ post)
  = Some ({| index := pos + length pre;
             groups := [Some (pod_clause p o d ws1 ws2 q1 name q2); Some name] |},
          pos + length pre + length (pod_clause p o d ws1 ws2 q1 name q2)).
Proof.
  intros Hpre Hp Ho Hd Hws1 Hws2 Hq1 Hq2 Hname Hfree. revert pos.
  induction pre as [|c pre IH]; intros pos.
  - rewrite app_nil_l. cbn [length]. rewrite Nat.add_0_r.
    apply search_here. by apply match_at_pod_clause.
  - pose proof (no_pod_match_before pos c pre p o d ws1 ws2 q1 name q2 post
                  Hpre Hp Ho Hd Hws1 Hws2 Hq1) as Hnone.
    apply Forall_cons in Hpre as [_ Hpre]. specialize (IH Hpre (S pos)).
    remember (pod_clause p o d ws1 ws2 q1 name q2 ++ post) as tail.
    remember (pod_clause p o d ws1 ws2 q1 name q2) as clause.
    cbn [app search length] in *. rewrite Hnone, IH.
    do 3 f_equal; lia.
Qed.

(** *** Replacement, one match after the other *)

Lemma rep_match_shift {A B} (f : A → B) d (p : N → bool) s :
  ∀ min max pos (k : nat → jsstring → option A) (k' : nat → jsstring → option B),
  (∀ pos' s', k' (d + pos') s' = f <$> k pos' s') →
  rep_match p min max (d + pos) s k' = f <$> rep_match p min max pos s k.
Proof.
  induction s as [|c s IH]; intros min max pos k k' Hk; cbn [rep_match].
  - destruct min; [apply Hk|done].
  - destruct (p c && can_take max).
    + rewrite <- Nat.add_succ_r, (IH _ _ _ k k' Hk).
      destruct (rep_match p (pred min) (pred <$> max) (S pos) s k); [done|].
      destruct min; [apply Hk|done].
    + destruct min; [apply Hk|done].
Qed.

Lemma rmatch_shift {A B} (f : A → B) d r :
  anchor_free r = true →
  ∀ pos s caps (k : nat → jsstring → captures → option A)
    (k' : nat → jsstring → captures → option B),
  (∀ pos' s' caps', k' (d + pos') s' caps' = f <$> k pos' s' caps') →
  rmatch r (d + pos) s caps k' = f <$> rmatch r pos s caps k.
Proof.
  induction r as [c|cl min max|r1 IH1 r2 IH2|r1 IH1 r2 IH2|i r IH| | |];
    intros Hfree pos s caps k k' Hk; cbn [rmatch anchor_free] in *.
  - destruct s as [|x s]; [done|]. destruct (x =? c)%N; [|done].
    rewrite <- Nat.add_succ_r. apply Hk.
  - apply rep_match_shift. intros pos' s'. apply Hk.
  - apply andb_true_iff in Hfree as [Hfree1 Hfree2].
    apply IH1; [done|]. intros pos' s' caps'. by apply IH2.
  - apply andb_true_iff in Hfree as [Hfree1 Hfree2].
    rewrite (IH1 Hfree1 _ _ _ k k' Hk).
    destruct (rmatch r1 pos s caps k); [done|]. by apply IH2.
  - apply IH; [done|]. intros pos' s' caps'.
    replace (d + pos' - (d + pos)) with (pos' - pos) by lia. apply Hk.
  - apply Hk.
  - done.
  - destruct s; [apply Hk|done].
Qed.

Lemma match_at_shift re d pos s :
  anchor_free (pattern re) = true →
  match_at re (d + pos) s = shift_match d <$> match_at re pos s.
Proof.
  intros Hfree. unfold match_at. apply rmatch_shift; [done|].
  intros pos' s' caps'. unfold shift_match. simpl.
  by replace (d + pos' - (d + pos)) with (pos' - pos) by lia.
Qed.

Lemma search_shift re d s :
  anchor_free (pattern re) = true →
  ∀ pos, search re (d + pos) s = shift_match d <$> search re pos s.
Proof.
  intros Hfree. induction s as [|c s IH]; intros pos; cbn [search].
  - rewrite match_at_shift by done. by destruct (match_at re pos []).
  - rewrite match_at_shift by done. destruct (match_at re pos (c :: s)); [done|].
    rewrite <- Nat.add_succ_r. apply IH.
Qed.

Lemma exec_shift re (front post : jsstring) lastIndex :
  anchor_free (pattern re) = true →
  exec re (length front + lastIndex) (front ++ post)
  = match exec re lastIndex post with
    | (Some m, e) =>
        (Some {| index := length front + index m; groups := groups m |},
         length front + e)
    | (None, _) => (None, 0)
    end.
Proof.
  intros Hfree. unfold exec. rewrite length_app.
  destruct (Nat.ltb_spec (length post) lastIndex) as [Hlt|Hle].
  - by destruct (Nat.ltb_spec (length front + length post)
                              (length front + lastIndex)); [|lia].
  - destruct (Nat.ltb_spec (length front + length post)
                           (length front + lastIndex)); [lia|].
    rewrite drop_app_add', search_shift by done.
    by destruct (search re lastIndex (drop lastIndex post)) as [[m e]|].
Qed.

Lemma substring_shift (front post : jsstring) from to :
  JS.substring (front ++ post) (length front + from) (length front + to)
  = JS.substring post from to.
Proof.
  unfold JS.substring. rewrite length_app.
  rewrite !Nat.add_min_distr_l, Nat.add_max_distr_l.
  rewrite drop_app_add' by done. f_equal. lia.
Qed.

Lemma replace_loop_shift re replacer (front post : jsstring) acc :
  anchor_free (pattern re) = true →
  (∀ m d, replacer {| index := d + index m; groups := groups m |} = replacer m) →
  ∀ fuel lastIndex nextSourcePosition acc',
  replace_loop fuel re replacer (front ++ post) (length front + lastIndex)
    (length front + nextSourcePosition) (acc ++ acc')
  = (acc ++.) <$> replace_loop fuel re replacer post lastIndex nextSourcePosition acc'.
Proof.
  intros Hfree Hrep.
  induction fuel as [|fuel IH]; intros lastIndex nsp acc'; [done|].
  cbn [replace_loop]. rewrite exec_shift by done.
  destruct (exec re lastIndex post) as [[m|] e].
  - unfold group. cbn [groups index].
    set (matched := default [] (mjoin (groups m !! 0))).
    replace (length front + nsp <=? length front + index m)
      with (nsp <=? index m)
      by (destruct (Nat.leb_spec nsp (index m));
          destruct (Nat.leb_spec (length front + nsp) (length front + index m));
          done || lia).
    replace (if length matched =? 0 then S (length front + e) else length front + e)
      with (length front + (if length matched =? 0 then S e else e))
      by (destruct (length matched =? 0); lia).
    destruct (nsp <=? index m); [|apply IH].
    rewrite substring_shift, Hrep, <- (assoc_L (++)), <- Nat.add_assoc.
    apply IH.
  - simpl. unfold JS.substring_from.
    by rewrite drop_app_add', (assoc_L (++)).
Qed.

Lemma replace_loop_fuel re replacer text r :
  ∀ fuel fuel' lastIndex nextSourcePosition acc,
  fuel ≤ fuel' →
  replace_loop fuel re replacer text lastIndex nextSourcePosition acc = Some r →
  replace_loop fuel' re replacer text lastIndex nextSourcePosition acc = Some r.
Proof.
  induction fuel as [|fuel IH]; intros fuel' lastIndex nsp acc Hle; [done|].
  destruct fuel' as [|fuel']; [lia|]. cbn [replace_loop].
  destruct (exec re lastIndex text) as [[m|] e]; [|done].
  destruct (nsp <=? index m); apply IH; lia.
Qed.

(** Every iteration moves [lastIndex] forward, so that one iteration more
    than the text has indices is enough. *)
Lemma replace_loop_total re replacer text :
  ∀ fuel lastIndex nextSourcePosition acc,
  length text + 1 ≤ fuel + lastIndex →
  is_Some (replace_loop (S fuel) re replacer text lastIndex nextSourcePosition acc).
Proof.
  induction fuel as [|fuel IH]; intros lastIndex nsp acc Hfuel; cbn [replace_loop].
  - unfold exec. destruct (Nat.ltb_spec (length text) lastIndex); [eauto|lia].
  - destruct (exec re lastIndex text) as [[m|] e] eqn:Hexec; [|eauto].
    apply exec_sound in Hexec as (w & caps & Hidx & He & _ & _ & _ & Hgroups).
    assert (Hnext : S lastIndex ≤
              if length (default [] (group m 0)) =? 0 then S e else e).
    { destruct (Nat.eqb_spec (length (default [] (group m 0))) 0) as [|Hne]; [lia|].
      assert (default [] (group m 0) = w) as Hw.
      { unfold group in *. rewrite Hgroups in *. destruct caps; [done|done]. }
      rewrite Hw in Hne. lia. }
    destruct (nsp <=? index m); apply IH; lia.
Qed.

Section PodClauseFacts.
Variable toLowerCase : jsstring → jsstring.
Variable inherited : jsstring → option jsstring.

(** The result for a query with one pod clause and no quote character
    before or after it. *)
Lemma expand_single_clause
    (pre post : jsstring) (p o d : N) (ws1 ws2 : jsstring) (q1 : N)
    (name : jsstring) (q2 : N) :
  Forall (λ x, x ∉ quotes) pre → Forall (λ x, x ∉ quotes) post →
  p ∈ [ch "P"; ch "p"] → o ∈ [ch "O"; ch "o"] → d ∈ [ch "D"; ch "d"] →
  Forall (λ x, JS.is_space x = true) ws1 →
  Forall (λ x, JS.is_space x = true) ws2 →
  q1 ∈ quotes → q2 ∈ quotes →
  name ≠ [] → Forall (λ x, x ∉ quotes) name →
  expandPodAliases toLowerCase inherited
    (pre ++ pod_clause p o d ws1 ws2 q1 name q2 ++ post)
  = Some (pre ++
          match alias_lookup inherited (JS.trim (toLowerCase name)) with
          | Some full => js "Pod = " ++ [dquote] ++ full ++ [dquote]
          | None => pod_clause p o d ws1 ws2 q1 name q2
          end ++ post).
Proof.
  intros Hpre Hpost Hp Ho Hd Hws1 Hws2 Hq1 Hq2 Hname Hfree.
  pose proof (search_pod_clause 0 pre p o d ws1 ws2 q1 name q2 post
                Hpre Hp Ho Hd Hws1 Hws2 Hq1 Hq2 Hname Hfree) as Hsearch.
  assert (Hclause : ∃ n, length (pod_clause p o d ws1 ws2 q1 name q2) = S n).
  { unfold pod_clause. simpl. eauto. }
  destruct Hclause as [n Hn].
  remember (pod_clause p o d ws1 ws2 q1 name q2) as clause eqn:Hcl.
  set (text := pre ++ clause ++ post) in *.
  assert (Hlen : length text = length pre + length clause + length post).
  { unfold text. rewrite !length_app. lia. }
  unfold expandPodAliases, replace_global. cbn [replace_loop].
  assert (Hexec1 : exec pod_regex 0 text
    = (Some {| index := 0 + length pre; groups := [Some clause; Some name] |},
       0 + length pre + length clause)).
  { unfold exec. change (drop 0 text) with text. by rewrite Hsearch. }
  rewrite Hexec1.
  cbn [group groups index lookup list_lookup mjoin option_join default id].
  rewrite Hn. cbn [Nat.eqb Nat.leb]. rewrite <- Hn.
  assert (Hexec2 : exec pod_regex (0 + length pre + length clause) text = (None, 0)).
  { unfold exec.
    destruct (Nat.ltb_spec (length text) (0 + length pre + length clause)); [lia|].
    assert (drop (0 + length pre + length clause) text = post) as ->.
    { unfold text. rewrite (assoc_L (++)).
      apply drop_app_length'. rewrite length_app. lia. }
    by rewrite search_pod_None. }
  rewrite Hexec2.
  assert (JS.substring text 0 (0 + length pre) = pre) as ->.
  { rewrite substring_between by lia. rewrite Nat.sub_0_r. unfold text.
    change (drop 0 ?l) with l. apply take_app_length. }
  assert (JS.substring_from text (0 + length pre + length clause) = post) as ->.
  { unfold JS.substring_from, text. rewrite (assoc_L (++)).
    apply drop_app_length'. rewrite length_app. lia. }
  unfold pod_replacer.
  cbn [group groups index lookup list_lookup mjoin option_join default id app].
  by rewrite <- (assoc_L (++)).
Qed.

Lemma alias_lookup_table key full :
  (key, full) ∈ POD_ALIASES → alias_lookup inherited key = Some full.
Proof.
  unfold POD_ALIASES. intros Hin.
  repeat (apply elem_of_cons in Hin as [[= -> ->]|Hin]); [reflexivity..|].
  by apply elem_of_nil in Hin.
Qed.

(** Every alias of the table is expanded: in a query with one pod clause and
    no quote character before or after it, when the name between the quotes,
    lower-cased and trimmed, is a key of [POD_ALIASES], the clause is
    replaced by [Pod = "full name"], whatever the case of the three letters,
    the white space around the equals sign and the kind of quotes; the text
    around the clause is kept. *)
Theorem pod_alias_expanded
    (pre post : jsstring) (p o d : N) (ws1 ws2 : jsstring) (q1 : N)
    (name : jsstring) (q2 : N) (full : jsstring) :
  Forall (λ x, x ∉ quotes) pre → Forall (λ x, x ∉ quotes) post →
  p ∈ [ch "P"; ch "p"] → o ∈ [ch "O"; ch "o"] → d ∈ [ch "D"; ch "d"] →
  Forall (λ x, JS.is_space x = true) ws1 →
  Forall (λ x, JS.is_space x = true) ws2 →
  q1 ∈ quotes → q2 ∈ quotes →
  name ≠ [] → Forall (λ x, x ∉ quotes) name →
  (JS.trim (toLowerCase name), full) ∈ POD_ALIASES →
  expandPodAliases toLowerCase inherited
    (pre ++ pod_clause p o d ws1 ws2 q1 name q2 ++ post)
  = Some (pre ++ (js "Pod = " ++ [dquote] ++ full ++ [dquote]) ++ post).
Proof.
  intros Hpre Hpost Hp Ho Hd Hws1 Hws2 Hq1 Hq2 Hname Hfree Halias.
  rewrite expand_single_clause by done.
  by rewrite (alias_lookup_table _ _ Halias).
Qed.

(** A name that is no alias is left alone: in a query with one pod clause
    and no quote character before or after it, when the name, lower-cased
    and trimmed, is neither a key of [POD_ALIASES] nor a truthy property it
    inherits, the query comes back unchanged. *)
Theorem unknown_pod_name_untouched
    (pre post : jsstring) (p o d : N) (ws1 ws2 : jsstring) (q1 : N)
    (name : jsstring) (q2 : N) :
  Forall (λ x, x ∉ quotes) pre → Forall (λ x, x ∉ quotes) post →
  p ∈ [ch "P"; ch "p"] → o ∈ [ch "O"; ch "o"] → d ∈ [ch "D"; ch "d"] →
  Forall (λ x, JS.is_space x = true) ws1 →
  Forall (λ x, JS.is_space x = true) ws2 →
  q1 ∈ quotes → q2 ∈ quotes →
  name ≠ [] → Forall (λ x, x ∉ quotes) name →
  own_property POD_ALIASES (JS.trim (toLowerCase name)) = None →
  inherited (JS.trim (toLowerCase name)) = None →
  expandPodAliases toLowerCase inherited
    (pre ++ pod_clause p o d ws1 ws2 q1 name q2 ++ post)
  = Some (pre ++ pod_clause p o d ws1 ws2 q1 name q2 ++ post).
Proof.
  intros Hpre Hpost Hp Ho Hd Hws1 Hws2 Hq1 Hq2 Hname Hfree Hown Hinh.
  rewrite expand_single_clause by done.
  unfold alias_lookup. by rewrite Hown, Hinh.
Qed.

(** The lookup also reaches what [POD_ALIASES] inherits: when the name,
    lower-cased and trimmed, is no key of the table but names a truthy
    inherited property, the clause is replaced by [Pod = "..."] holding that
    property as text. *)
Theorem inherited_property_expanded
    (pre post : jsstring) (p o d : N) (ws1 ws2 : jsstring) (q1 : N)
    (name : jsstring) (q2 : N) (text : jsstring) :
  Forall (λ x, x ∉ quotes) pre → Forall (λ x, x ∉ quotes) post →
  p ∈ [ch "P"; ch "p"] → o ∈ [ch "O"; ch "o"] → d ∈ [ch "D"; ch "d"] →
  Forall (λ x, JS.is_space x = true) ws1 →
  Forall (λ x, JS.is_space x = true) ws2 →
  q1 ∈ quotes → q2 ∈ quotes →
  name ≠ [] → Forall (λ x, x ∉ quotes) name →
  own_property POD_ALIASES (JS.trim (toLowerCase name)) = None →
  inherited (JS.trim (toLowerCase name)) = Some text →
  expandPodAliases toLowerCase inherited
    (pre ++ pod_clause p o d ws1 ws2 q1 name q2 ++ post)
  = Some (pre ++ (js "Pod = " ++ [dquote] ++ text ++ [dquote]) ++ post).
Proof.
  intros Hpre Hpost Hp Ho Hd Hws1 Hws2 Hq1 Hq2 Hname Hfree Hown Hinh.
  rewrite expand_single_clause by done.
  unfold alias_lookup. by rewrite Hown, Hinh.
Qed.

(** The clauses of a query are rewritten one after the other: when no quote
    character stands before the first pod clause, the text before it is kept,
    the clause is replaced as its name requires, and what follows the clause
    is expanded as a query of its own. In particular the function returns a
    result for the rest, whatever it is. *)
Theorem first_clause_then_rest
    (pre post : jsstring) (p o d : N) (ws1 ws2 : jsstring) (q1 : N)
    (name : jsstring) (q2 : N) :
  Forall (λ x, x ∉ quotes) pre →
  p ∈ [ch "P"; ch "p"] → o ∈ [ch "O"; ch "o"] → d ∈ [ch "D"; ch "d"] →
  Forall (λ x, JS.is_space x = true) ws1 →
  Forall (λ x, JS.is_space x = true) ws2 →
  q1 ∈ quotes → q2 ∈ quotes →
  name ≠ [] → Forall (λ x, x ∉ quotes) name →
  ∃ rest,
    expandPodAliases toLowerCase inherited post = Some rest ∧
    expandPodAliases toLowerCase inherited
      (pre ++ pod_clause p o d ws1 ws2 q1 name q2 ++ post)
    = Some (pre ++
            match alias_lookup inherited (JS.trim (toLowerCase name)) with
            | Some full => js "Pod = " ++ [dquote] ++ full ++ [dquote]
            | None => pod_clause p o d ws1 ws2 q1 name q2
            end ++ rest).
Proof.
  intros Hpre Hp Ho Hd Hws1 Hws2 Hq1 Hq2 Hname Hfree.
  destruct (replace_loop_total pod_regex (pod_replacer toLowerCase inherited) post
              (S (length post)) 0 0 []) as [rest Hrest]; [lia|].
  exists rest. split; [exact Hrest|].
  pose proof (search_pod_clause 0 pre p o d ws1 ws2 q1 name q2 post
                Hpre Hp Ho Hd Hws1 Hws2 Hq1 Hq2 Hname Hfree) as Hsearch.
  assert (Hclause : ∃ n, length (pod_clause p o d ws1 ws2 q1 name q2) = S n).
  { unfold pod_clause. simpl. eauto. }
  destruct Hclause as [n Hn].
  remember (pod_clause p o d ws1 ws2 q1 name q2) as clause eqn:Hcl.
  set (text := pre ++ clause ++ post) in *.
  assert (Hlen : length text = length pre + length clause + length post).
  { unfold text. rewrite !length_app. lia. }
  unfold expandPodAliases, replace_global.
  remember (S (length text)) as fuel eqn:Hfuel. cbn [replace_loop].
  assert (Hexec1 : exec pod_regex 0 text
    = (Some {| index := 0 + length pre; groups := [Some clause; Some name] |},
       0 + length pre + length clause)).
  { unfold exec. change (drop 0 text) with text. by rewrite Hsearch. }
  rewrite Hexec1.
  cbn [group groups index lookup list_lookup mjoin option_join default id].
  rewrite Hn. cbn [Nat.eqb Nat.leb]. rewrite <- Hn.
  assert (JS.substring text 0 (0 + length pre) = pre) as ->.
  { rewrite substring_between by lia. rewrite Nat.sub_0_r. unfold text.
    change (drop 0 ?l) with l. apply take_app_length. }
  set (acc := [] ++ pre ++ _).
  pose proof (replace_loop_shift pod_regex (pod_replacer toLowerCase inherited)
                (pre ++ clause) post acc eq_refl (λ _ _, eq_refl)
                fuel 0 0 []) as Hshift.
  assert (Hrest' : replace_loop fuel pod_regex
                      (pod_replacer toLowerCase inherited) post 0 0 [] = Some rest).
  { eapply replace_loop_fuel; [|exact Hrest]. lia. }
  rewrite Hrest' in Hshift.
  rewrite length_app, !Nat.add_0_r, (right_id_L [] (++)), <- (assoc_L (++)) in Hshift.
  change (0 + length pre) with (length pre). unfold text.
  rewrite Hshift. simpl. f_equal. unfold acc, pod_replacer.
  cbn [group groups index lookup list_lookup mjoin option_join default id app].
  by rewrite <- !(assoc_L (++)).
Qed.

End PodClauseFacts.

Lemma pod_alias_expanded_witness :
  expandPodAliases ascii_lower (λ _, None)
    (js "project = X AND " ++ pod_clause (ch "p") (ch "O") (ch "d") (js "  ") []
       squote (js "Site Ops ") dquote ++ js " ORDER BY created")
  = Some (js "project = X AND " ++
          (js "Pod = " ++ [dquote] ++ js "Pod SiteOps" ++ [dquote]) ++
          js " ORDER BY created").
Proof.
  apply (pod_alias_expanded ascii_lower (λ _, None)); compute_done.
Defined.

Lemma unknown_pod_name_untouched_witness :
  expandPodAliases ascii_lower (λ _, None)
    (js "project = X AND " ++ pod_clause (ch "P") (ch "o") (ch "d") (js " ") (js " ")
       dquote (js "Billing") dquote ++ js " ORDER BY created")
  = Some (js "project = X AND " ++ pod_clause (ch "P") (ch "o") (ch "d") (js " ") (js " ")
       dquote (js "Billing") dquote ++ js " ORDER BY created").
Proof.
  apply (unknown_pod_name_untouched ascii_lower (λ _, None)); compute_done.
Defined.

(** An object whose prototype has a truthy property [constructor]. *)
Lemma inherited_property_expanded_witness :
  let inherited := λ key, if bool_decide (key = js "constructor")
                          then Some (js "function Object() { [native code] }") else None in
  expandPodAliases ascii_lower inherited
    (pod_clause (ch "P") (ch "o") (ch "d") (js " ") (js " ")
       dquote (js "constructor") dquote ++ [])
  = Some ((js "Pod = " ++ [dquote] ++ js "function Object() { [native code] }" ++ [dquote]) ++ []).
Proof.
  intros inherited.
  apply (inherited_property_expanded ascii_lower inherited [] []);
    compute_done.
Defined.

Lemma first_clause_then_rest_witness :
  ∃ rest,
    expandPodAliases ascii_lower (λ _, None)
      (js " OR " ++ pod_clause (ch "p") (ch "o") (ch "d") [] [] squote (js "AI") squote ++ [])
    = Some rest ∧
    expandPodAliases ascii_lower (λ _, None)
      (js "status = Open AND " ++
       pod_clause (ch "P") (ch "O") (ch "D") (js " ") (js " ") dquote (js "design") dquote ++
       js " OR " ++ pod_clause (ch "p") (ch "o") (ch "d") [] [] squote (js "AI") squote ++ [])
    = Some (js "status = Open AND " ++
            (js "Pod = " ++ [dquote] ++ js "DS Pod" ++ [dquote]) ++ rest).
Proof.
  apply (first_clause_then_rest ascii_lower (λ _, None) (js "status = Open AND "));
    compute_done.
Defined.
